(** * RAGChatbot: document ingestion and retrieval-augmented answering

    A shallow embedding of the ingestion worker ([worker.js]), the upload,
    chat and document routes ([pages/api/upload.js], [pages/api/chat.js],
    [pages/api/docs.js]) and the two scoring libraries
    ([lib/selfCorrection.js], [lib/faithfulness.js]), followed by the
    properties of the pipeline that are stated in the specification.

    Conventions of the embedding:
    - a JavaScript string is the list of its UTF-16 code units;
    - a JavaScript number that holds a length, an offset, an index or a
      count is an integer; a similarity is an IEEE 754 double with the
      arithmetic of the processor; the data of a tensor, the vectors of the
      store and the scores of the cross-encoder are exact rationals ([Q]);
    - a call that may throw returns [exn]; the external collaborators
      (embedding model, PDF extractor, hash, generative model, queue) are
      fields of an environment record;
    - the relational store is a pair of tables (lists of rows, in table
      order) and the object store a finite map from paths to bytes. *)

From Stdlib Require Import Floats.
From Stdlib Require Import ZArith NArith QArith Qround Lia List Bool Ascii String.
From Stdlib Require Import Sorting.Permutation Sorting.Sorted.
From stdpp Require Import base gmap list.

Import ListNotations.
Local Open Scope Z_scope.
Set Warnings "-inexact-float".

(** ** JavaScript strings and the built-ins the sources call *)

Module Js.

(** A string: its UTF-16 code units. *)
Definition jsstring := list N.

Definition NL : N := 10%N.
Definition SP : N := 32%N.

(** A source literal (ASCII) as a JavaScript string. *)
Definition lit (s : string) : jsstring :=
  List.map N_of_ascii (list_ascii_of_string s).

Definition len (s : jsstring) : Z := Z.of_nat (length s).

(** [!s] is false exactly for the non-empty string. *)
Definition truthy (s : jsstring) : bool :=
  match s with
  | [] => false
  | _ :: _ => true
  end.

(** [\s] of a regular expression and the characters [trim] strips:
    WhiteSpace and LineTerminator of ECMAScript. *)
Definition is_ws (c : N) : bool :=
  ((9 <=? c) && (c <=? 13) || (c =? 32) || (c =? 160) || (c =? 5760)
   || (8192 <=? c) && (c <=? 8202) || (c =? 8232) || (c =? 8233)
   || (c =? 8239) || (c =? 8287) || (c =? 12288) || (c =? 65279))%N.

Fixpoint trimStart (s : jsstring) : jsstring :=
  match s with
  | [] => []
  | c :: r => if is_ws c then trimStart r else s
  end.

Fixpoint trimEnd (s : jsstring) : jsstring :=
  match s with
  | [] => []
  | c :: r =>
      match trimEnd r with
      | [] => if is_ws c then [] else [c]
      | r' => c :: r'
      end
  end.

Definition trim (s : jsstring) : jsstring := trimEnd (trimStart s).

(** [s.replace(/[lo-hi]/g, '')]: every code unit of the class is dropped. *)
Definition remove_class (cls : N -> bool) (s : jsstring) : jsstring :=
  List.filter (fun c => negb (cls c)) s.

(** [s.replace(/\s+/g, " ")]: every maximal run of white space becomes one
    space. [inrun] tells that the previous code unit was white space. *)
Fixpoint replace_ws_runs (inrun : bool) (s : jsstring) : jsstring :=
  match s with
  | [] => []
  | c :: r =>
      if is_ws c
      then (if inrun then replace_ws_runs true r
            else SP :: replace_ws_runs true r)
      else c :: replace_ws_runs false r
  end.

(** [s.split("\n\n")]: the pieces between the non-overlapping occurrences of
    the separator, scanned from the left; never the empty array. [acc] holds
    the current piece, reversed. *)
Fixpoint split_nn_from (acc : jsstring) (s : jsstring) : list jsstring :=
  match s with
  | [] => [rev acc]
  | c1 :: t =>
      match t with
      | [] => [rev (c1 :: acc)]
      | c2 :: r =>
          if ((c1 =? NL) && (c2 =? NL))%N
          then rev acc :: split_nn_from [] r
          else split_nn_from (c1 :: acc) t
      end
  end.

Definition split_nn (s : jsstring) : list jsstring := split_nn_from [] s.

(** [parts.join(sep)]. *)
Fixpoint join (sep : jsstring) (parts : list jsstring) : jsstring :=
  match parts with
  | [] => []
  | [p] => p
  | p :: rest => p ++ sep ++ join sep rest
  end.

Fixpoint startsWith (p s : jsstring) : bool :=
  match p, s with
  | [], _ => true
  | _ :: _, [] => false
  | a :: p', b :: s' => (a =? b)%N && startsWith p' s'
  end.

Fixpoint indexOf_at (p s : jsstring) (k : Z) : Z :=
  if startsWith p s then k
  else match s with
       | [] => -1
       | _ :: r => indexOf_at p r (k + 1)
       end.

(** [text.indexOf(p, pos)]: the position is clamped to [0, text.length]. *)
Definition indexOf (text p : jsstring) (pos : Z) : Z :=
  let k := Z.min (Z.max pos 0) (len text) in
  indexOf_at p (drop (Z.to_nat k) text) k.

Definition includes (text p : jsstring) : bool :=
  negb (indexOf text p 0 =? -1).

(** Case folding of the letters A-Z, which is all that the patterns of the
    sources (lower-case ASCII words) can tell apart. *)
Definition lower_unit (c : N) : N :=
  if ((65 <=? c) && (c <=? 90))%N then (c + 32)%N else c.

Definition toLowerCase (s : jsstring) : jsstring := List.map lower_unit s.

(** [/w1|w2|.../i.test(text)] for literal lower-case words. *)
Definition test_words_i (words : list string) (text : jsstring) : bool :=
  existsb (fun w => includes (toLowerCase text) (lit w)) words.

(** [s.split(/\s+/).length]: one more than the number of white-space runs. *)
Fixpoint count_ws_runs (inrun : bool) (s : jsstring) : nat :=
  match s with
  | [] => O
  | c :: r =>
      if is_ws c
      then (if inrun then count_ws_runs true r else S (count_ws_runs true r))
      else count_ws_runs false r
  end.

Definition split_ws_length (s : jsstring) : nat := S (count_ws_runs false s).

(** [s.split(" ").length]. *)
Definition split_sp_length (s : jsstring) : nat :=
  S (length (List.filter (fun c => (c =? SP)%N) s)).

(** A call that may throw: the value, or the message of the error. *)
Inductive exn (A : Type) : Type :=
| Ok (a : A)
| Throw (msg : jsstring).
Arguments Ok {A} a.
Arguments Throw {A} msg.

Definition bind {A B} (m : exn A) (k : A -> exn B) : exn B :=
  match m with
  | Ok a => k a
  | Throw e => Throw e
  end.

End Js.

Import Js.
Notation "'let*' x ':=' m 'in' k" := (Js.bind m (fun x => k))
  (at level 10, x pattern, m at level 100, k at level 200).

Definition Qltb (x y : Q) : bool := negb (Qle_bool y x).

(** ** JavaScript numbers *)

Module Num.

Import SpecFloat FloatOps.

(** A number is an IEEE 754 double; its sums, products, quotients and square
    roots are rounded to the nearest double. *)
Definition number : Set := PrimFloat.float.

(** What arithmetic makes of [undefined]. *)
Definition nan : number := PrimFloat.nan.

(** The double of an integer: exact for every integer that a double holds. *)
Fixpoint of_pos (p : positive) : number :=
  match p with
  | xH => 1%float
  | xO p' => (2 * of_pos p')%float
  | xI p' => (2 * of_pos p' + 1)%float
  end.

Definition of_Z (z : Z) : number :=
  match z with
  | Z0 => 0%float
  | Zpos p => of_pos p
  | Zneg p => (- of_pos p)%float
  end.

Definition of_nat (n : nat) : number := of_Z (Z.of_nat n).

(** [Array.from(t.data)]: the number that holds an element of a tensor. The
    elements are single-precision values, which a double holds exactly: the
    quotient of numerator and denominator is then exact. *)
Definition of_Q (q : Q) : number := (of_Z (Qnum q) / of_pos (Qden q))%float.

(** An integral number, as [Math.round] returns them; [-0] is not told from
    [0]. *)
Inductive integral : Type :=
| Int (z : Z)
| Inf (negative : bool)
| NaN.

(** [Math.round(x)]: the integer nearest to [x], the upper one of two that
    are as near. The double [x] is [n * 2 ^ e] for its signed mantissa [n]
    and its exponent [e]. *)
Definition Math_round (x : number) : integral :=
  match Prim2SF x with
  | S754_zero _ => Int 0
  | S754_infinity s => Inf s
  | S754_nan => NaN
  | S754_finite s m e =>
      let n := if s then Zneg m else Zpos m in
      Int (if 0 <=? e then Z.shiftl n e
           else Z.shiftr (2 * n + 2 ^ (- e)) (- e + 1))
  end.

(** [Math.min(a, b)] and [Math.max(a, b)] of integral numbers. *)
Definition Math_min (a b : integral) : integral :=
  match a, b with
  | NaN, _ | _, NaN => NaN
  | Inf true, _ | _, Inf true => Inf true
  | Inf false, x | x, Inf false => x
  | Int x, Int y => Int (if y <? x then y else x)
  end.

Definition Math_max (a b : integral) : integral :=
  match a, b with
  | NaN, _ | _, NaN => NaN
  | Inf false, _ | _, Inf false => Inf false
  | Inf true, x | x, Inf true => x
  | Int x, Int y => Int (if x <? y then y else x)
  end.

End Num.

Definition number : Set := Num.number.

(** ** The stores: two tables and a bucket *)

Module Db.

Inductive ChunkType : Type := paragraph | recursive | hybrid.

(** A row of [documents]. *)
Record Document : Type := {
  d_id : nat;
  d_user_id : nat;
  d_file_name : jsstring;
  d_storage_path : option jsstring;
  d_file_hash : option jsstring;
}.

(** A row of [chunks]; the last four columns are null for the rows of the
    inline path of the upload route and of the first worker. *)
Record Chunk : Type := {
  c_id : nat;
  c_document_id : nat;
  c_chunk_text : jsstring;
  c_embedding : list Q;
  c_token_count : nat;
  c_chunk_index : option nat;
  c_chunk_type : option ChunkType;
  c_char_start : option Z;
  c_char_end : option Z;
}.

(** The payload of a [pdf-processing] job. *)
Record Job : Type := {
  j_filePath : jsstring;
  j_documentId : nat;
  j_userId : nat;
}.

Record Store : Type := {
  documents : list Document;
  chunks : list Chunk;
  bucket : gmap jsstring (list Byte.byte);
  jobs : list Job;
  next_id : nat;
}.

Definition set_documents (f : list Document -> list Document) (s : Store) : Store :=
  {| documents := f (documents s); chunks := chunks s; bucket := bucket s;
     jobs := jobs s; next_id := next_id s |}.

Definition set_chunks (f : list Chunk -> list Chunk) (s : Store) : Store :=
  {| documents := documents s; chunks := f (chunks s); bucket := bucket s;
     jobs := jobs s; next_id := next_id s |}.

Definition set_bucket (f : gmap jsstring (list Byte.byte) -> gmap jsstring (list Byte.byte))
  (s : Store) : Store :=
  {| documents := documents s; chunks := chunks s; bucket := f (bucket s);
     jobs := jobs s; next_id := next_id s |}.

Definition add_job (j : Job) (s : Store) : Store :=
  {| documents := documents s; chunks := chunks s; bucket := bucket s;
     jobs := jobs s ++ [j]; next_id := next_id s |}.

Definition bump_id (s : Store) : Store :=
  {| documents := documents s; chunks := chunks s; bucket := bucket s;
     jobs := jobs s; next_id := S (next_id s) |}.

(** [from(table).insert(row)]: the store assigns the identifier. *)
Definition insert_document (row : nat -> Document) (s : Store) : Store :=
  bump_id (set_documents (fun t => t ++ [row (next_id s)]) s).

Definition insert_chunk (row : nat -> Chunk) (s : Store) : Store :=
  bump_id (set_chunks (fun t => t ++ [row (next_id s)]) s).

(** [from('chunks').delete().eq('document_id', k)] and
    [from('documents').delete().eq('id', k)]. *)
Definition delete_chunks_of (k : nat) (s : Store) : Store :=
  set_chunks (List.filter (fun c => negb (Nat.eqb (c_document_id c) k))) s.

Definition delete_document (k : nat) (s : Store) : Store :=
  set_documents (List.filter (fun d => negb (Nat.eqb (d_id d) k))) s.

(** The calls to the stores whose failure the routes look at, and the ways a
    call can fail: an [error] in its result, or an exception. *)
Inductive StoreCall : Type :=
| SelectExisting
| FetchInserted
| VectorQuery
| SelectOwned
| SelectOrdered
| SelectUnordered
| DeleteChunks
| DeleteDocument
| RemoveObject.

Inductive Fault : Type :=
| NoFault
| ErrorResult (msg : jsstring)
| Exception (msg : jsstring).

Inductive Method : Type := GET | POST | DELETE | PUT.

(** The payload of the token, as [getUserFromReq] returns it. *)
Record User : Type := {
  u_id : nat;
  u_email : jsstring;
}.

Definition eqb_path (a b : option jsstring) : bool :=
  bool_decide (a = b).

(** [from('documents').select('id').eq('storage_path', p).eq('user_id', u)]. *)
Definition documents_at (p : jsstring) (u : nat) (s : Store) : list Document :=
  List.filter (fun d => eqb_path (d_storage_path d) (Some p) && Nat.eqb (d_user_id d) u)
    (documents s).

(** [from('documents').select(..).eq('id', k).eq('user_id', u)]. *)
Definition documents_owned (k u : nat) (s : Store) : list Document :=
  List.filter (fun d => Nat.eqb (d_id d) k && Nat.eqb (d_user_id d) u) (documents s).

End Db.

Import Db.

(** ** The external collaborators *)

Class Env : Type := {
  (** the embedding pipeline, pooled and normalised: text to vector *)
  embedder : jsstring -> exn (list Q);
  (** [pdf-parse]: bytes to text ([data.text || '']) and page count
      ([data.numpages || 0]) *)
  parsePdf : list Byte.byte -> exn (jsstring * nat);
  (** [createHash('sha256').update(b).digest('hex')] *)
  sha256hex : list Byte.byte -> jsstring;
  (** the square root in the distance of the vector store *)
  sqrt : Q -> Q;
  (** the cross-encoder: loading the pipeline, then scoring one text *)
  reranker : exn (jsstring -> exn Q);
  (** the generative model, when a client could be built: prompt to the text
      of the first candidate, if the response has one *)
  gemini : option (jsstring -> exn (option jsstring));
  openai : option (jsstring -> exn (option jsstring));
  (** [storage.createSignedUrl(path, 60)] *)
  signedUrl : jsstring -> option jsstring;
  (** an error the store answers an insert into [chunks] with *)
  chunk_insert_error : Chunk -> option jsstring;
  (** an error the store answers an insert into [documents] with *)
  document_insert_error : Document -> option jsstring;
  (** an error of the object store other than the object being there *)
  storage_error : jsstring -> option jsstring;
  (** whether the queue answers the probe within its two seconds *)
  queue_ready : bool;
  (** the error that [queue.add] rejects a job with, when it does *)
  queue_add_error : Job -> option jsstring;
  (** how the other calls to the stores fail *)
  store_fault : StoreCall -> Fault;
}.

(** ** The ingestion worker ([worker.js]) *)

Module Worker.

Inductive DocType : Type :=
  short_structured | resume | long_structured | legal | generic.

Definition is_nul (c : N) : bool := (c =? 0)%N.
Definition is_c0 (c : N) : bool := ((1 <=? c) && (c <=? 31))%N.

(** [text.replace(/\0/g, '').replace(/[\u0001-\u001F]/g, '')
        .replace(/\s+/g, " ").trim()] *)
Definition cleanText (text : jsstring) : jsstring :=
  trim (replace_ws_runs false (remove_class is_c0 (remove_class is_nul text))).

Definition classifyDocument (text : jsstring) (metadata_pages : nat) : DocType :=
  let pages := if Nat.eqb metadata_pages 0 then 1%nat else metadata_pages in
  let paragraphs := split_nn text in
  let total := fold_left (fun a p => a + len p) paragraphs 0 in
  let avgParaLength :=
    (inject_Z total / inject_Z (Z.max 1 (Z.of_nat (length paragraphs))))%Q in
  if (pages <=? 2)%nat && Qltb avgParaLength (inject_Z 500) then short_structured
  else if test_words_i ["resume"; "curriculum vitae"; "experience"]%string text then resume
  else if test_words_i ["table of contents"; "chapter"]%string text then long_structured
  else if test_words_i ["legal"; "hereby"; "whereas"]%string text then legal
  else generic.

(** A chunk record. A property that an object lacks reads [undefined]:
    [None]. *)
Record ChunkMeta : Type := {
  chunk_text : option jsstring;
  chunk_index : option nat;
  chunk_type : option ChunkType;
  char_start : option Z;
  char_end : option Z;
}.

(** The object [{}], and [{...c}] of a possibly undefined [c]. *)
Definition empty_object : ChunkMeta :=
  {| chunk_text := None; chunk_index := None; chunk_type := None;
     char_start := None; char_end := None |}.

Definition spread (c : option ChunkMeta) : ChunkMeta :=
  match c with
  | Some c => c
  | None => empty_object
  end.

Definition with_index (i : nat) (c : ChunkMeta) : ChunkMeta :=
  {| chunk_text := chunk_text c; chunk_index := Some i; chunk_type := chunk_type c;
     char_start := char_start c; char_end := char_end c |}.

Definition with_type (t : ChunkType) (c : ChunkMeta) : ChunkMeta :=
  {| chunk_text := chunk_text c; chunk_index := chunk_index c; chunk_type := Some t;
     char_start := char_start c; char_end := char_end c |}.

(** The loop of [paragraphChunkWithMeta] over the remaining parts. *)
Fixpoint paragraph_loop (text : jsstring) (parts : list jsstring)
  (cursor : Z) (index : nat) : list ChunkMeta :=
  match parts with
  | [] => []
  | part :: rest =>
      let trimmed := cleanText part in
      if negb (truthy trimmed)
      then paragraph_loop text rest (cursor + (len part + 2)) index
      else
        let start := indexOf text trimmed cursor in
        let end_ := start + len trimmed in
        {| chunk_text := Some trimmed; chunk_index := Some index;
           chunk_type := Some paragraph;
           char_start := Some start; char_end := Some end_ |}
        :: paragraph_loop text rest end_ (S index)
  end.

Definition paragraphChunkWithMeta (text : jsstring) : list ChunkMeta :=
  paragraph_loop text (split_nn text) 0 0.

(** The variables of the loop of [recursiveChunkWithMeta]. *)
Record RecState : Type := {
  current : jsstring;
  start : Z;
  chunks : list ChunkMeta;
}.

Definition recursive_chunk (cleaned : jsstring) (start : Z) : ChunkMeta :=
  {| chunk_text := Some cleaned; chunk_index := None;
     chunk_type := Some recursive;
     char_start := Some start; char_end := Some (start + len cleaned) |}.

Definition recursive_step (maxChars overlap : Z) (st : RecState) (part : jsstring)
  : RecState :=
  if len (current st ++ part) <=? maxChars
  then {| current := current st ++ part ++ [NL; NL]; start := start st;
          chunks := chunks st |}
  else
    let cleaned := cleanText (current st) in
    {| current := part ++ [NL; NL];
       start := start st + Z.max 0 (len (current st) - overlap);
       chunks := if truthy cleaned
                 then chunks st ++ [recursive_chunk cleaned (start st)]
                 else chunks st |}.

Definition recursive_flush (st : RecState) : list ChunkMeta :=
  if truthy (trim (current st))
  then chunks st ++ [recursive_chunk (cleanText (current st)) (start st)]
  else chunks st.

Definition recursiveChunkWithMeta (text : jsstring) (maxChars overlap : Z)
  : list ChunkMeta :=
  let st := fold_left (recursive_step maxChars overlap) (split_nn text)
              {| current := []; start := 0; chunks := [] |} in
  imap with_index (recursive_flush st).

Definition default_maxChars : Z := 1500.
Definition default_overlap : Z := 200.

(** [c.chunk_text.length] and [c.chunk_text + ...] throw a TypeError on a
    record without text. *)
Definition text_of (c : ChunkMeta) : exn jsstring :=
  match chunk_text c with
  | Some t => Ok t
  | None => Throw (lit "Cannot read properties of undefined")
  end.

(** One round of the merge loop of [hybridChunkWithMeta]: [merged] and
    [current], and the record [next]. *)
Definition merge_step (acc : exn (list ChunkMeta * option ChunkMeta)) (next : ChunkMeta)
  : exn (list ChunkMeta * option ChunkMeta) :=
  let* (merged, current) := acc in
  match current with
  | None => Throw (lit "Cannot read properties of undefined")
  | Some cur =>
      let* ct := text_of cur in
      let* nt := text_of next in
      if len ct + len nt <? 1800
      then Ok (merged,
               Some {| chunk_text := Some (ct ++ [SP] ++ nt);
                       chunk_index := chunk_index cur;
                       chunk_type := Some hybrid;
                       char_start := char_start cur;
                       char_end := char_end next |})
      else Ok (merged ++ [cur], Some next)
  end.

(** [current = base[0]] is undefined for an empty [base]; the loop starts at
    index 1; [merged.push(current)] comes after it whatever [current] is. *)
Definition hybridChunkWithMeta (text : jsstring) : exn (list ChunkMeta) :=
  let base := recursiveChunkWithMeta text 1500 200 in
  let* (merged, current) := fold_left merge_step (tail base) (Ok ([], head base)) in
  Ok (imap (fun i c => with_type hybrid (with_index i (spread c)))
        (List.map Some merged ++ [current])).

(** What the worker writes to the console. *)
Inductive LogEvent : Type :=
| ChunksCreated (n : nat)
| InsertError (msg : jsstring)
| EmbeddingError (msg : jsstring)
| ProcessingError (msg : jsstring)
| Finished.

Section WithEnv.
Context {E : Env}.

(** The row the worker inserts for a chunk. *)
Definition chunk_row (documentId : nat) (chunk : ChunkMeta) (t : jsstring)
  (embedding : list Q) (k : nat) : Chunk :=
  {| c_id := k; c_document_id := documentId; c_chunk_text := t;
     c_embedding := embedding; c_token_count := split_ws_length t;
     c_chunk_index := chunk_index chunk; c_chunk_type := chunk_type chunk;
     c_char_start := char_start chunk; c_char_end := char_end chunk |}.

(** The [for] loop of [processPdfBufferAndInsert]: the store and the console
    after it, and whether it threw. The embedder refuses a text that is
    undefined. *)
Fixpoint embed_and_insert (documentId : nat) (cs : list ChunkMeta)
  (s : Store) (log : list LogEvent) : Store * list LogEvent * exn () :=
  match cs with
  | [] => (s, log, Ok ())
  | chunk :: rest =>
      match (let* t := match chunk_text chunk with
                       | Some t => Ok t
                       | None => Throw (lit "text may not be null or undefined")
                       end in
             let* embedding := embedder t in
             Ok (t, embedding)) with
      | Throw e => (s, log, Throw e)
      | Ok (t, embedding) =>
          let row := chunk_row documentId chunk t embedding in
          match chunk_insert_error (row (next_id s)) with
          | Some e => embed_and_insert documentId rest s (log ++ [InsertError e])
          | None => embed_and_insert documentId rest (insert_chunk row s) log
          end
      end
  end.

Definition processPdfBufferAndInsert (fileBuffer : list Byte.byte) (documentId : nat)
  (s : Store) : Store * list LogEvent :=
  match parsePdf fileBuffer with
  | Throw e => (s, [ProcessingError e])
  | Ok (text, numpages) =>
      let docType := classifyDocument text numpages in
      let chunksWithMeta :=
        match docType with
        | short_structured | resume => Ok (paragraphChunkWithMeta text)
        | _ => hybridChunkWithMeta text
        end in
      match chunksWithMeta with
      | Throw e => (s, [ProcessingError e])
      | Ok cs =>
          let '(s', log, r) :=
            embed_and_insert documentId cs s [ChunksCreated (length cs)] in
          match r with
          | Ok _ => (s', log ++ [Finished])
          | Throw e => (s', log ++ [ProcessingError e])
          end
      end
  end.

(** The first worker of the repository: [cleanText] without the white-space
    step, paragraphs only, and a [try]/[catch] around each chunk. *)
Definition cleanText_v1 (text : jsstring) : jsstring :=
  trim (remove_class is_c0 (remove_class is_nul text)).

Fixpoint worker_v1_loop (documentId : nat) (rawChunks : list jsstring)
  (s : Store) (log : list LogEvent) : Store * list LogEvent :=
  match rawChunks with
  | [] => (s, log)
  | rawChunk :: rest =>
      let chunk := cleanText_v1 rawChunk in
      if negb (truthy chunk) then worker_v1_loop documentId rest s log
      else
        match embedder chunk with
        | Throw e => worker_v1_loop documentId rest s (log ++ [EmbeddingError e])
        | Ok vector =>
            let row k :=
              {| c_id := k; c_document_id := documentId; c_chunk_text := chunk;
                 c_embedding := vector; c_token_count := split_sp_length chunk;
                 c_chunk_index := None; c_chunk_type := None;
                 c_char_start := None; c_char_end := None |} in
            match chunk_insert_error (row (next_id s)) with
            | Some e => worker_v1_loop documentId rest s (log ++ [InsertError e])
            | None => worker_v1_loop documentId rest (insert_chunk row s) log
            end
        end
  end.

Definition worker_v1 (text : jsstring) (documentId : nat) (s : Store)
  : Store * list LogEvent :=
  let rawChunks := List.filter (fun t => 0 <? len (trim t)) (split_nn text) in
  let '(s', log) := worker_v1_loop documentId rawChunks s [] in
  (s', log ++ [Finished]).

End WithEnv.

End Worker.

(** ** Sorting as [Array.prototype.sort] and [ORDER BY] do it *)

(** A stable sort: [before y x] holds when [y] has to come strictly before
    [x]; elements that the order does not separate keep their places. *)
Fixpoint insert_sorted {A : Type} (before : A -> A -> bool) (x : A) (l : list A)
  : list A :=
  match l with
  | [] => [x]
  | y :: r => if before y x then y :: insert_sorted before x r else x :: l
  end.

Definition stable_sort {A : Type} (before : A -> A -> bool) (l : list A) : list A :=
  foldr (insert_sorted before) [] l.

(** [(a, b) => b.score - a.score]: the higher score first. *)
Definition by_score_desc {A : Type} (score : A -> Q) (y x : A) : bool :=
  Qltb (score x) (score y).

(** [ORDER BY key]: the lower key first. *)
Definition by_key_asc {A : Type} (key : A -> Q) (y x : A) : bool :=
  Qltb (key y) (key x).

(** A list whose scores never go up. *)
Definition descending {A : Type} (score : A -> Q) : list A -> Prop :=
  StronglySorted (fun a b => (score b <= score a)%Q).

(** [(a, b) => b.score - a.score] on numbers: the difference of two doubles
    is negative exactly when the first is the smaller one, and it is NaN,
    which [sort] reads as 0, when one of them is NaN or both are the same
    infinity. *)
Definition by_number_desc {A : Type} (score : A -> number) (y x : A) : bool :=
  (score x <? score y)%float.

(** ** Cosine similarity ([lib/selfCorrection.js], [lib/faithfulness.js]) *)

Module Similarity.

(** [a.reduce((s, v, i) => s + v * b[i], 0)]: beyond the end of [b] the
    element [b[i]] is undefined, and its product with [v] is NaN. *)
Fixpoint dot_from (s : number) (a b : list number) : number :=
  match a with
  | [] => s
  | v :: a' => dot_from (s + v * hd Num.nan b)%float a' (tl b)
  end.

Definition dot (a b : list number) : number := dot_from 0%float a b.

Definition norm (a : list number) : number :=
  PrimFloat.sqrt (fold_left (fun s v => s + v * v)%float a 0%float).

Definition cosine (a b : list number) : number :=
  let n := (norm a * norm b + 1e-8)%float in
  (dot a b / n)%float.

End Similarity.

(** An element of [contextChunks]: a string, or an object with a
    [chunk_text] property. *)
Inductive Candidate : Type :=
| CString (s : jsstring)
| CObject (chunk_text : option jsstring).

(** [typeof c === 'string' ? c : c.chunk_text || ''] *)
Definition candidate_text (c : Candidate) : jsstring :=
  match c with
  | CString s => s
  | CObject (Some t) => t
  | CObject None => []
  end.

(** [!question] and [!answer] for a string that may be missing. *)
Definition present (o : option jsstring) : bool :=
  match o with
  | Some s => truthy s
  | None => false
  end.

Module SelfCorrection.

Inductive Reason : Type := no_context.

Record Relevance : Type := {
  needsCorrection : bool;
  reason : option Reason;
  avgSimilarity : option number;
  threshold : option number;
}.

Definition default_threshold : number := 0.30%float.

Section WithEnv.
Context {E : Env}.

(** The [for] loop: [sum] and [count] after the remaining candidates. *)
Fixpoint relevance_loop (qEmb : list number) (cs : list Candidate) (sum : number)
  (count : nat) : number * nat :=
  match cs with
  | [] => (sum, count)
  | c :: rest =>
      let text := candidate_text c in
      if negb (truthy text) then relevance_loop qEmb rest sum count
      else
        match embedder text with
        | Ok t =>
            let emb := List.map Num.of_Q t in
            let sim := Similarity.cosine qEmb emb in
            relevance_loop qEmb rest (sum + sim)%float (S count)
        | Throw _ => relevance_loop qEmb rest sum count
        end
  end.

Definition assessContextRelevance (question : option jsstring)
  (contextChunks : option (list Candidate)) (threshold : number) : exn Relevance :=
  match question, contextChunks with
  | Some ((_ :: _) as q), Some ((_ :: _) as cs) =>
      let* qT := embedder q in
      let qEmb := List.map Num.of_Q qT in
      let '(sum, count) := relevance_loop qEmb cs 0%float 0 in
      let avg := if Nat.eqb count 0 then 0%float else (sum / Num.of_nat count)%float in
      let needsCorrection := (avg <? threshold)%float in
      Ok {| needsCorrection := needsCorrection; reason := None;
            avgSimilarity := Some avg; threshold := Some threshold |}
  | _, _ =>
      Ok {| needsCorrection := true; reason := Some no_context;
            avgSimilarity := None; threshold := None |}
  end.

End WithEnv.
End SelfCorrection.

Module Faithfulness.

Record Faith : Type := {
  score : Num.integral;
  perChunk : list (jsstring * number);
}.

Section WithEnv.
Context {E : Env}.

(** The [for] loop: the entry of each chunk, a failed embedding scoring 0. *)
Definition score_chunk (answerEmb : list number) (chunk : jsstring) : jsstring * number :=
  match embedder chunk with
  | Ok t =>
      let emb := List.map Num.of_Q t in
      (chunk, Similarity.cosine answerEmb emb)
  | Throw _ => (chunk, 0%float)
  end.

Definition getFaithfulnessScore (contextChunks : option (list Candidate))
  (answer : option jsstring) (topK : nat) : exn Faith :=
  match answer, contextChunks with
  | Some ((_ :: _) as ans), Some ((_ :: _) as cs) =>
      let chunks := List.map candidate_text cs in
      let* answerT := embedder ans in
      let answerEmb := List.map Num.of_Q answerT in
      let perChunk := List.map (score_chunk answerEmb) chunks in
      let perChunk := stable_sort (by_number_desc snd) perChunk in
      let top := take topK perChunk in
      let avg := (fold_left (fun s p => s + snd p) top 0
                  / Num.of_nat (Nat.max 1 (length top)))%float in
      let score :=
        Num.Math_max (Num.Int 0)
          (Num.Math_min (Num.Int 100) (Num.Math_round (avg * 100)%float)) in
      Ok {| score := score; perChunk := perChunk |}
  | _, _ => Ok {| score := Num.Int 0; perChunk := [] |}
  end.

End WithEnv.
End Faithfulness.

(** ** The chat route ([pages/api/chat.js]) *)

Module Chat.

(** A row of the vector search. *)
Record Row : Type := {
  r_id : nat;
  r_chunk_text : jsstring;
  r_document_id : nat;
  r_file_name : jsstring;
  r_storage_path : option jsstring;
}.

Definition row_of (c : Chunk) (d : Document) : Row :=
  {| r_id := c_id c; r_chunk_text := c_chunk_text c;
     r_document_id := c_document_id c; r_file_name := d_file_name d;
     r_storage_path := d_storage_path d |}.

(** An element of [sources]: the row, and a signed URL when there is one. *)
Record Source : Type := {
  row : Row;
  signed_url : option jsstring;
}.

Inductive Retrieval : Type := rephrase | original.

Record Trace : Type := {
  initialSimilarity : option number;
  needsCorrection : bool;
  note : option jsstring;
  rephrasedQuestion : option jsstring;
  retrievalUsed : option Retrieval;
}.

Record Answer : Type := {
  answer : jsstring;
  sources : list Source;
  faithfulness : Num.integral;
  faithfulnessDetail : list (jsstring * number);
  selfCorrection : Trace;
}.

Inductive Response : Type :=
| End (status : nat)
| Error (status : nat) (error : jsstring)
| Json (body : Answer).

Record Request : Type := {
  method : Method;
  user : option User;
  question : option jsstring;
}.

Definition rephrasePrompt (question : jsstring) : jsstring :=
  lit "
Rewrite the question into a SHORT factual search query.

Rules:
- Output ONE line only
- No explanations
- No examples
- No markdown
- No assumptions
- Preserve all names exactly
- Do NOT add new information
- Do NOT ask the user for clarification

Question:
" ++ question ++ lit "
          ".

Definition generationPrompt (finalContext question : jsstring) : jsstring :=
  lit "
Answer using ONLY the context below.
If the answer is not in the context, say you don't know.

Context:
" ++ finalContext ++ lit "

Question:
" ++ question ++ lit "
    ".

Definition default_answer : jsstring := lit "Sorry, couldn't generate an answer.".

Section WithEnv.
Context {E : Env}.

(** [getEmbedding]: the vector of the local model, as an array. *)
Definition getEmbedding (text : jsstring) : exn (list Q) := embedder text.

(** [toPgVector] writes the vector as a literal that the store reads back:
    the parameter [$2] is the vector. *)
Definition toPgVector (arr : list Q) : list Q := arr.

(** The operator [<->] of the vector store: the Euclidean distance. *)
Fixpoint sum_sq_diff (a b : list Q) : Q :=
  match a, b with
  | x :: a', y :: b' => ((x - y) * (x - y) + sum_sq_diff a' b')%Q
  | _, _ => 0%Q
  end.

Definition l2_distance (a b : list Q) : Q := sqrt (sum_sq_diff a b).

(** [FROM chunks c JOIN documents d ON c.document_id = d.id]. *)
Definition joined (s : Store) : list (Chunk * Document) :=
  flat_map (fun c =>
      List.map (fun d => (c, d))
        (List.filter (fun d => Nat.eqb (c_document_id c) (d_id d)) (documents s)))
    (chunks s).

(** [vectorQuery] with its parameters [$1] and [$2]. *)
Definition vectorQuery (s : Store) (user_id : nat) (pgVector : list Q) : list Row :=
  let matching :=
    List.filter (fun cd => Nat.eqb (d_user_id (snd cd)) user_id) (joined s) in
  let ordered :=
    stable_sort (by_key_asc (fun cd => l2_distance (c_embedding (fst cd)) pgVector))
      matching in
  List.map (fun cd => row_of (fst cd) (snd cd)) (take 30 ordered).

(** [pool.query(vectorQuery, [user.id, pgVector])] *)
Definition pool_query (s : Store) (user_id : nat) (pgVector : list Q) : exn (list Row) :=
  match store_fault VectorQuery with
  | NoFault => Ok (vectorQuery s user_id pgVector)
  | ErrorResult e | Exception e => Throw e
  end.

(** [queryEmbedding.length > 2000 ? queryEmbedding.slice(0, 2000) : ...] *)
Definition truncate (v : list Q) : list Q :=
  if (2000 <? length v)%nat then take 2000 v else v.

(** [Promise.all(chunks.map(async c => ...))] *)
Fixpoint score_all (scorer : jsstring -> exn Q) (question : jsstring) (chunks : list Row)
  : exn (list (Row * Q)) :=
  match chunks with
  | [] => Ok []
  | c :: rest =>
      let* out := scorer (question ++ lit " [SEP] " ++ r_chunk_text c) in
      let* scored := score_all scorer question rest in
      Ok ((c, out) :: scored)
  end.

(** [rerank], a function declared in the handler; [scorer] is the loaded
    [reranker] it closes over. *)
Definition rerank (scorer : jsstring -> exn Q) (question : jsstring) (chunks : list Row)
  : exn (list (Row * Q)) :=
  let* scored := score_all scorer question chunks in
  Ok (take 6 (stable_sort (by_score_desc snd) scored)).

Definition candidates (rows : list Row) : list Candidate :=
  List.map (fun r => CObject (Some (r_chunk_text r))) rows.

(** The rephrasing request, inside its [try]. *)
Definition rephrase_question (question : jsstring) : option jsstring :=
  match gemini with
  | Some generateContent =>
      match generateContent (rephrasePrompt question) with
      | Ok text => text
      | Throw _ => None
      end
  | None => None
  end.

(** The self-correction block: [finalRows] and [trace]. *)
Definition self_correct (s : Store) (user_id : nat) (question : jsstring)
  (rows : list Row) (relevance : SelfCorrection.Relevance)
  : exn (list Row * Trace) :=
  let trace :=
    {| initialSimilarity := SelfCorrection.avgSimilarity relevance;
       needsCorrection := SelfCorrection.needsCorrection relevance;
       note := None; rephrasedQuestion := None; retrievalUsed := None |} in
  if SelfCorrection.needsCorrection relevance then
    let note := Some (lit "Low question-context similarity") in
    let rephrased := rephrase_question question in
    if present rephrased then
      let* newEmbedding := getEmbedding (default [] rephrased) in
      let pgVector2 := toPgVector (truncate newEmbedding) in
      let* newRows := pool_query s user_id pgVector2 in
      Ok (if (0 <? length newRows)%nat then newRows else rows,
          {| initialSimilarity := initialSimilarity trace;
             needsCorrection := needsCorrection trace; note := note;
             rephrasedQuestion := rephrased; retrievalUsed := Some rephrase |})
    else
      Ok (rows,
          {| initialSimilarity := initialSimilarity trace;
             needsCorrection := needsCorrection trace; note := note;
             rephrasedQuestion := None; retrievalUsed := Some original |})
  else Ok (rows, trace).

(** The context that the generation prompt is built from. *)
Definition finalContext (finalRows : list Row) : jsstring :=
  join [NL; NL] (List.map r_chunk_text finalRows).

(** The generation block. *)
Definition generate (prompt : jsstring) : jsstring :=
  match gemini with
  | Some generateContent =>
      match generateContent prompt with
      | Ok (Some text) => text
      | Ok None | Throw _ => default_answer
      end
  | None =>
      match openai with
      | Some create =>
          match create prompt with
          | Ok (Some ((_ :: _) as content)) => content
          | Ok _ | Throw _ => default_answer
          end
      | None => default_answer
      end
  end.

Definition with_signed_url (r : Row) : Source :=
  {| row := r;
     signed_url := match r_storage_path r with
                   | Some ((_ :: _) as p) =>
                       match signedUrl p with
                       | Some ((_ :: _) as u) => Some u
                       | _ => None
                       end
                   | _ => None
                   end |}.

(** What the pipeline of one question computes, the rows that reach the
    generation included. *)
Record Run : Type := {
  rows : list Row;
  finalRows : list Row;
  prompt : jsstring;
  body : Answer;
}.

Definition run (s : Store) (user_id : nat) (question : jsstring) : exn Run :=
  let* queryEmbedding := getEmbedding question in
  let queryEmbedding := truncate queryEmbedding in
  let pgVector := toPgVector queryEmbedding in
  let* rows := pool_query s user_id pgVector in
  let* scorer := reranker in
  let* relevance :=
    SelfCorrection.assessContextRelevance (Some question) (Some (candidates rows))
      SelfCorrection.default_threshold in
  let* (finalRows, trace) := self_correct s user_id question rows relevance in
  let prompt := generationPrompt (finalContext finalRows) question in
  let answer := generate prompt in
  let* faith :=
    Faithfulness.getFaithfulnessScore (Some (candidates finalRows)) (Some answer) 3 in
  let sourcesBase := if (0 <? length finalRows)%nat then finalRows else rows in
  Ok {| rows := rows; finalRows := finalRows; prompt := prompt;
        body := {| answer := answer;
                   sources := List.map with_signed_url sourcesBase;
                   faithfulness := Faithfulness.score faith;
                   faithfulnessDetail := Faithfulness.perChunk faith;
                   selfCorrection := trace |} |}.

Definition handler (s : Store) (req : Request) : Response :=
  match method req with
  | POST =>
      match user req with
      | None => Error 401 (lit "Unauthorized")
      | Some user =>
          match question req with
          | Some ((_ :: _) as question) =>
              match run s (u_id user) question with
              | Ok r => Json (body r)
              | Throw e => Error 500 e
              end
          | _ => Error 400 (lit "Missing question")
          end
      end
  | _ => End 405
  end.

End WithEnv.
End Chat.

(** ** The documents route ([pages/api/docs.js]) *)

Module Docs.

Record Listed : Type := {
  l_id : nat;
  l_file_name : jsstring;
  l_storage_path : option jsstring;
  l_signed_url : option jsstring;
}.

Inductive Response : Type :=
| Error (status : nat) (error : jsstring)
| Documents (documents : list Listed)
| Success.

Record Request : Type := {
  method : Method;
  user : option User;
  documentId : option nat;
}.

Section WithEnv.
Context {E : Env}.

Definition listed (d : Document) : Listed :=
  {| l_id := d_id d; l_file_name := d_file_name d;
     l_storage_path := d_storage_path d;
     l_signed_url := match d_storage_path d with
                     | Some ((_ :: _) as p) =>
                         match signedUrl p with
                         | Some ((_ :: _) as u) => Some u
                         | _ => None
                         end
                     | _ => None
                     end |}.

(** The [GET] branch. The first select asks for the documents of the user,
    the newest first; when it answers with an error or throws, the second
    asks for them in no order, and the table order is what it gives here; an
    error or an exception of the second is the failure of the listing. *)
Definition list_documents (s : Store) (user_id : nat) : Response :=
  let own := List.filter (fun d => Nat.eqb (d_user_id d) user_id) (documents s) in
  let data :=
    match store_fault SelectOrdered with
    | NoFault => Ok (rev own)
    | ErrorResult _ | Exception _ =>
        match store_fault SelectUnordered with
        | NoFault => Ok own
        | ErrorResult e | Exception e => Throw e
        end
    end in
  match data with
  | Ok data => Documents (List.map listed data)
  | Throw _ => Error 500 (lit "Failed to fetch documents")
  end.

(** One mutating call: the store after it and the calls made so far, or the
    exception it raised. A call that answers with an error changes nothing,
    and the route does not look at that answer. *)
Definition call (op : StoreCall) (f : Store -> Store)
  (st : Store * list StoreCall) : exn (Store * list StoreCall) :=
  match store_fault op with
  | NoFault => Ok (f (fst st), snd st ++ [op])
  | ErrorResult _ => Ok (fst st, snd st ++ [op])
  | Exception e => Throw e
  end.

(** The [DELETE] branch: the response, the store afterwards, and the calls
    that were made, in order. *)
Definition delete_document (s : Store) (user_id : nat) (documentId : nat)
  : Store * list StoreCall * Response :=
  match store_fault SelectOwned with
  | Exception _ => (s, [], Error 500 (lit "Failed to delete document"))
  | ErrorResult _ => (s, [SelectOwned], Error 404 (lit "Document not found"))
  | NoFault =>
      match take 1 (documents_owned documentId user_id s) with
      | [] => (s, [SelectOwned], Error 404 (lit "Document not found"))
      | doc :: _ =>
          let st1 := call DeleteChunks (Db.delete_chunks_of documentId) (s, [SelectOwned]) in
          match st1 with
          | Throw _ => (s, [SelectOwned], Error 500 (lit "Failed to delete document"))
          | Ok st1 =>
              match call DeleteDocument (Db.delete_document documentId) st1 with
              | Throw _ => (st1, Error 500 (lit "Failed to delete document"))
              | Ok st2 =>
                  match d_storage_path doc with
                  | Some ((_ :: _) as p) =>
                      match call RemoveObject (set_bucket (delete p)) st2 with
                      | Throw _ => (st2, Error 500 (lit "Failed to delete document"))
                      | Ok st3 => (st3, Success)
                      end
                  | _ => (st2, Success)
                  end
              end
          end
      end
  end.

(** The route. [!documentId] holds for a missing identifier and for 0. *)
Definition handler (s : Store) (req : Request) : Store * list StoreCall * Response :=
  match user req with
  | None => (s, [], Error 401 (lit "Unauthorized"))
  | Some user =>
      match method req with
      | GET => (s, [], list_documents s (u_id user))
      | DELETE =>
          match documentId req with
          | Some ((S _) as documentId) => delete_document s (u_id user) documentId
          | Some O | None => (s, [], Error 400 (lit "Missing documentId"))
          end
      | _ => (s, [], Error 405 (lit "Method not allowed"))
      end
  end.

End WithEnv.
End Docs.

(** ** The upload route ([pages/api/upload.js]) *)

Module Upload.

Record UploadFile : Type := {
  filepath : jsstring;
  (** [fs.readFileSync(file.filepath)] *)
  fileContent : list Byte.byte;
  originalFilename : option jsstring;
}.

(** An element of [results]. *)
Record FileResult : Type := {
  fileName : option jsstring;
  documentId : option nat;
  storagePath : option jsstring;
  queued : option bool;
  note : option jsstring;
  error : option jsstring;
}.

Inductive Response : Type :=
| Error (status : nat) (error : jsstring)
| Files (files : list FileResult).

Record Request : Type := {
  method : Method;
  user : option User;
  (** what [form.parse] hands over: [err], or [files.file] (an array, one
      file, or nothing) *)
  form : exn (option (list UploadFile));
}.

(** The text after the last dot. *)
Fixpoint after_last_dot (s : jsstring) : option jsstring :=
  match s with
  | [] => None
  | c :: r =>
      match after_last_dot r with
      | Some t => Some t
      | None => if (c =? 46)%N then Some r else None
      end
  end.

(** [origName.match(/(\.[^.]+)$/)?.[1] || ''] *)
Definition extension (origName : jsstring) : jsstring :=
  match after_last_dot origName with
  | Some ((_ :: _) as t) => 46%N :: t
  | _ => []
  end.

(** [file.originalFilename || 'upload.pdf'] *)
Definition origName (file : UploadFile) : jsstring :=
  match originalFilename file with
  | Some ((_ :: _) as n) => n
  | _ => lit "upload.pdf"
  end.

(** An inline task: the document it processes and the bytes of the file. *)
Record Inline : Type := {
  i_documentId : nat;
  i_content : list Byte.byte;
}.

Definition failed (name : option jsstring) (e : jsstring) : FileResult :=
  {| fileName := name; documentId := None; storagePath := None;
     queued := None; note := None; error := Some e |}.

Section WithEnv.
Context {E : Env}.

(** [storage.from('documents').upload(path, content, {upsert: false})]:
    [data] and [error], and the bucket afterwards. *)
Definition storage_upload (path : jsstring) (content : list Byte.byte) (s : Store)
  : Store * option jsstring * option jsstring :=
  match storage_error path with
  | Some e => (s, None, Some e)
  | None =>
      match bucket s !! path with
      | Some _ => (s, None, Some (lit "The resource already exists"))
      | None => (set_bucket (insert path content) s, Some path, None)
      end
  end.

(** The inline fallback, run to its end: paragraphs, cleaned, embedded and
    inserted. *)
Fixpoint inline_loop (documentId : nat) (chunks : list jsstring) (s : Store) : Store :=
  match chunks with
  | [] => s
  | chunk :: rest =>
      match embedder chunk with
      | Throw _ => s
      | Ok embedding =>
          let row k :=
            {| c_id := k; c_document_id := documentId; c_chunk_text := chunk;
               c_embedding := embedding; c_token_count := split_ws_length chunk;
               c_chunk_index := None; c_chunk_type := None;
               c_char_start := None; c_char_end := None |} in
          match chunk_insert_error (row (next_id s)) with
          | Some _ => inline_loop documentId rest s
          | None => inline_loop documentId rest (insert_chunk row s)
          end
      end
  end.

Definition inline_processing (documentId : nat) (content : list Byte.byte) (s : Store)
  : Store :=
  match parsePdf content with
  | Throw _ => s
  | Ok (text, _) =>
      let chunks := List.filter truthy (List.map Worker.cleanText (split_nn text)) in
      inline_loop documentId chunks s
  end.

(** The body of the [for] loop for one file: the store as the awaited calls
    leave it, the element pushed to [results], and the inline task when one
    is started. The task is not awaited: its inserts into [chunks] come at
    any time after this point. A rejected [queue.add] is caught with the
    other errors of the file, after the document row was inserted. *)
Definition upload_file (user_id : nat) (file : UploadFile) (s : Store)
  : Store * FileResult * option Inline :=
  let hash := sha256hex (fileContent file) in
  let origName := origName file in
  let ext := extension origName in
  let storagePath := lit "uploads/" ++ hash ++ ext in
  let existing :=
    match store_fault SelectExisting with
    | NoFault => Ok (take 1 (documents_at storagePath user_id s))
    | ErrorResult _ => Ok []
    | Exception e => Throw e
    end in
  match existing with
  | Throw e => (s, failed (originalFilename file) e, None)
  | Ok (d :: _) =>
      (s, {| fileName := Some origName; documentId := Some (d_id d);
             storagePath := Some storagePath; queued := Some false;
             note := Some (lit "Already uploaded by you"); error := None |}, None)
  | Ok [] =>
      let '(s1, storageData, storageError) :=
        storage_upload storagePath (fileContent file) s in
      let thrown :=
        match storageError with
        | Some msg =>
            if negb (includes (toLowerCase msg) (lit "already exists"))
            then Some msg else None
        | None => None
        end in
      match thrown with
      | Some msg => (s1, failed (originalFilename file) msg, None)
      | None =>
          let finalStoragePath :=
            match storageData with
            | Some ((_ :: _) as p) => p
            | _ => storagePath
            end in
          let row k :=
            {| d_id := k; d_user_id := user_id; d_file_name := origName;
               d_storage_path := Some finalStoragePath; d_file_hash := Some hash |} in
          match document_insert_error (row (next_id s1)) with
          | Some e => (s1, failed (originalFilename file) e, None)
          | None =>
              let s2 := insert_document row s1 in
              let document :=
                match store_fault FetchInserted with
                | NoFault => head (documents_at finalStoragePath user_id s2)
                | _ => None
                end in
              match document with
              | None =>
                  (s2, failed (originalFilename file)
                         (lit "Failed to fetch inserted document"), None)
              | Some document =>
                  if queue_ready
                  then
                    let job := {| j_filePath := filepath file;
                                  j_documentId := d_id document;
                                  j_userId := user_id |} in
                    match queue_add_error job with
                    | Some e => (s2, failed (originalFilename file) e, None)
                    | None =>
                        (add_job job s2,
                         {| fileName := Some origName;
                            documentId := Some (d_id document);
                            storagePath := Some finalStoragePath; queued := Some true;
                            note := None; error := None |}, None)
                    end
                  else
                    (s2,
                     {| fileName := Some origName; documentId := Some (d_id document);
                        storagePath := Some finalStoragePath; queued := Some false;
                        note := Some (lit "Redis unavailable " ++ [8211%N]
                                     ++ lit " inline processing");
                        error := None |},
                     Some {| i_documentId := d_id document;
                             i_content := fileContent file |})
              end
          end
      end
  end.

(** The [for] loop over [uploadedFiles]. *)
Fixpoint upload_files (user_id : nat) (files : list UploadFile) (s : Store)
  : Store * list FileResult * list Inline :=
  match files with
  | [] => (s, [], [])
  | file :: rest =>
      let '(s1, r, task) := upload_file user_id file s in
      let '(s2, rs, tasks) := upload_files user_id rest s1 in
      (s2, r :: rs, match task with
                    | Some t => t :: tasks
                    | None => tasks
                    end)
  end.

(** One request: the store as its awaited calls leave it, the response, and
    the inline tasks it has started. *)
Definition serve (s : Store) (req : Request) : Store * Response * list Inline :=
  match method req with
  | POST =>
      match user req with
      | None => (s, Error 401 (lit "Unauthorized"), [])
      | Some user =>
          match form req with
          | Throw e => (s, Error 400 e, [])
          | Ok None =>
              (s, Error 500 (lit "Cannot read properties of undefined"), [])
          | Ok (Some uploadedFiles) =>
              let '(s', results, tasks) := upload_files (u_id user) uploadedFiles s in
              (s', Files results, tasks)
          end
      end
  | _ => (s, Error 405 (lit "Method not allowed"), [])
  end.

(** The store and the response of one request. *)
Definition handler (s : Store) (req : Request) : Store * Response := (serve s req).1.

End WithEnv.
End Upload.

(** ** The specification's side of the refinements *)

Module Spec.

(** The words of a text: its maximal runs of code units that are not white
    space, in order. [cur] holds the word being read, reversed. *)
Fixpoint words_from (cur : jsstring) (s : jsstring) : list jsstring :=
  match s with
  | [] => match cur with
          | [] => []
          | _ :: _ => [rev cur]
          end
  | c :: r =>
      if is_ws c
      then match cur with
           | [] => words_from [] r
           | _ :: _ => rev cur :: words_from [] r
           end
      else words_from (c :: cur) r
  end.

Definition words (s : jsstring) : list jsstring := words_from [] s.

(** Null and C0 control code units: U+0000 to U+001F. *)
Definition is_control (c : N) : bool := (c <=? 31)%N.

(** The normal form of section 4.1: the controls removed, then the words
    separated by single spaces, nothing before the first or after the last. *)
Definition normalized (s : jsstring) : jsstring :=
  join [SP] (words (List.filter (fun c => negb (is_control c)) s)).

(** No two neighbours are both white space. *)
Fixpoint no_ws_pair (s : jsstring) : Prop :=
  match s with
  | [] => True
  | c :: r =>
      match r with
      | [] => True
      | c' :: _ => (is_ws c && is_ws c' = false) /\ no_ws_pair r
      end
  end.

(** The words of a normal form: none is empty, none holds white space. *)
Definition wordy (ws : list jsstring) : Prop :=
  Forall (fun w => w <> []) ws /\ Forall (Forall (fun c => is_ws c = false)) ws.

(** The sum of a list of numbers, from the left, and their mean, 0 for
    none. *)
Definition sum (l : list number) : number := fold_left PrimFloat.add l 0%float.

Definition mean (l : list number) : number :=
  match l with
  | [] => 0%float
  | _ :: _ => (sum l / Num.of_nat (length l))%float
  end.

(** The component of a vector at an index; there is none beyond its end. *)
Definition component (i : nat) (a : list number) : number := nth i a Num.nan.

(** The inner product over the indices of the first vector, the length of a
    vector, and the cosine of the angle of two vectors. *)
Definition inner (a b : list number) : number :=
  sum (List.map (fun i => component i a * component i b)%float (seq 0 (length a))).

Definition magnitude (a : list number) : number := PrimFloat.sqrt (inner a a).

Definition cosine (a b : list number) : number :=
  (inner a b / (magnitude a * magnitude b))%float.

(** The cosine with 1e-8 added to the product of the lengths. *)
Definition regularised_cosine (a b : list number) : number :=
  (inner a b / (magnitude a * magnitude b + 1e-8))%float.







(** A list whose numbers never go up, and one in which no number is followed
    by a higher one; the two agree when no entry is NaN. *)
Definition descending {A : Type} (score : A -> number) : list A -> Prop :=
  StronglySorted (fun a b => (score b <=? score a)%float = true).


Section WithEnv.
Context {E : Env}.

(** The vector of a text: the data of its tensor, as numbers. *)
Definition embedding (text : jsstring) : option (list number) :=
  match embedder text with
  | Ok t => Some (List.map Num.of_Q t)
  | Throw _ => None
  end.

(** The similarities that enter the mean of the self-correction: one for
    each candidate that has a text and whose embedding is produced. *)
Definition similarities (similarity : list number -> list number -> number)
  (qEmb : list number) (cs : list Candidate) : list number :=
  flat_map (fun c =>
      match candidate_text c with
      | [] => []
      | text =>
          match embedding text with
          | Some emb => [similarity qEmb emb]
          | None => []
          end
      end) cs.


End WithEnv.

(** What the loop of [recursiveChunkWithMeta] keeps true when no part is
    longer than the budget: the buffer is empty or a text within the budget
    followed by the separator, and no chunk pushed so far exceeds the budget. *)
Definition within_budget (maxChars : Z) (chunks : list Worker.ChunkMeta) : Prop :=
  Forall (fun c => exists t, Worker.chunk_text c = Some t /\ len t <= maxChars) chunks.

Definition buffer_ok (maxChars : Z) (st : Worker.RecState) : Prop :=
  (Worker.current st = [] \/ exists body, Worker.current st = body ++ [NL; NL] /\ len body <= maxChars)
  /\ within_budget maxChars (Worker.chunks st).

(** In the store, the user owns the document a row belongs to. *)
Definition owned_by (s : Store) (user_id : nat) (r : Chat.Row) : Prop :=
  exists c d,
    In c (Db.chunks s) /\ In d (documents s)
    /\ c_document_id c = d_id d /\ d_user_id d = user_id
    /\ r = Chat.row_of c d.

(** The primary key of [documents]. *)
Definition documents_keyed (s : Store) : Prop :=
  List.NoDup (List.map d_id (documents s)).

End Spec.

(** ** Sample collaborators and stores *)

Module Sample.

Definition text_of_bytes (b : list Byte.byte) : jsstring :=
  List.map Byte.to_N b.

Definition bytes_of (s : string) : list Byte.byte :=
  List.map byte_of_ascii (list_ascii_of_string s).

Definition hex_digit (n : N) : N :=
  if (n <? 10)%N then (48 + n)%N else (87 + n)%N.

(** The bytes in hexadecimal, two digits each. *)
Definition hex_of_bytes (b : list Byte.byte) : jsstring :=
  flat_map (fun x => [hex_digit (Byte.to_N x / 16); hex_digit (Byte.to_N x mod 16)]%N) b.

Definition para (a b : jsstring) : jsstring := a ++ [NL; NL] ++ b.

(** A model that has no vector for the text "A", and two directions for the
    others; in the place of the digest, the bytes in hexadecimal (what is
    shown with it holds for any function of the bytes); a square root that is
    exact on 0 and 1, the only values the sample vectors lead to. *)
#[local] Instance env : Env := {|
  embedder t :=
    if bool_decide (t = lit "A") then Throw (lit "embedding failed")
    else if startsWith (lit "x") t then Ok [0; 1]%Q
    else Ok [1; 0]%Q;
  parsePdf b := Ok (text_of_bytes b, 1%nat);
  sha256hex b := hex_of_bytes b;
  sqrt x := x;
  reranker := Ok (fun t => Ok (inject_Z (len t)));
  gemini := None;
  openai := None;
  signedUrl p := None;
  chunk_insert_error c := None;
  document_insert_error d := None;
  storage_error p := None;
  queue_ready := true;
  queue_add_error j := None;
  store_fault c := NoFault;
|}.

Definition empty_store : Store :=
  {| documents := []; Db.chunks := []; bucket := ∅; jobs := []; next_id := 1 |}.

Definition alice : User := {| u_id := 1; u_email := lit "alice@example.com" |}.
Definition bob : User := {| u_id := 2; u_email := lit "bob@example.com" |}.

Definition doc (k u : nat) (name : string) : Document :=
  {| d_id := k; d_user_id := u; d_file_name := lit name;
     d_storage_path := Some (lit "uploads/" ++ lit name);
     d_file_hash := None |}.

Definition chunk (k d : nat) (text : string) (v : list Q) : Chunk :=
  {| c_id := k; c_document_id := d; c_chunk_text := lit text; c_embedding := v;
     c_token_count := 1; c_chunk_index := None; c_chunk_type := None;
     c_char_start := None; c_char_end := None |}.

(** Two users, one document each; seven chunks of the first, one of the
    second. *)
Definition store : Store :=
  {| documents := [doc 10 1 "a.pdf"; doc 20 2 "b.pdf"];
     Db.chunks :=
       [chunk 101 10 "one" [1; 0]%Q; chunk 102 10 "two" [1; 0]%Q;
        chunk 103 10 "three" [1; 0]%Q; chunk 104 10 "four" [1; 0]%Q;
        chunk 201 20 "secret" [1; 0]%Q;
        chunk 105 10 "five" [1; 0]%Q; chunk 106 10 "six" [1; 0]%Q;
        chunk 107 10 "seven" [1; 0]%Q];
     bucket := {[ lit "uploads/a.pdf" := bytes_of "a" ]};
     jobs := []; next_id := 300 |}.

Definition upload (name : string) (content : string) : Upload.UploadFile :=
  {| Upload.filepath := lit "/tmp/upload_1";
     Upload.fileContent := bytes_of content;
     Upload.originalFilename := Some (lit name) |}.

Definition upload_request (u : User) (f : Upload.UploadFile) : Upload.Request :=
  {| Upload.method := POST; Upload.user := Some u; Upload.form := Ok (Some [f]) |}.

End Sample.

(** ** The sentence chunker ([lib/chunker.js]) *)

Module Chunker.

Definition is_stop (c : N) : bool := ((c =? 46) || (c =? 63) || (c =? 33))%N.

(** [text.split(/(?<=[.?!])\s+/)]: a separator is a maximal run of white
    space that starts right after a full stop, a question mark or an
    exclamation mark. [acc] holds the current piece, reversed; [skipping]
    tells that a separator is being read. *)
Fixpoint split_sentences_from (acc : jsstring) (skipping : bool) (s : jsstring)
  : list jsstring :=
  match s with
  | [] => [rev acc]
  | c :: r =>
      if skipping
      then (if is_ws c then split_sentences_from [] true r
            else split_sentences_from [c] false r)
      else if is_ws c && match acc with
                         | p :: _ => is_stop p
                         | [] => false
                         end
           then rev acc :: split_sentences_from [] true r
           else split_sentences_from (c :: acc) false r
  end.

Definition split_sentences (text : jsstring) : list jsstring :=
  split_sentences_from [] false text.

(** [s.slice(start)]: a negative start counts from the end, and [-0] is 0. *)
Definition slice_from (start : Z) (s : jsstring) : jsstring :=
  let k := if start <? 0 then Z.max (len s + start) 0 else Z.min start (len s) in
  drop (Z.to_nat k) s.

(** One round of the loop of [chunkText]: [cur] and [chunks]. *)
Definition chunk_step (chunkSize overlap : Z) (st : jsstring * list jsstring)
  (s : jsstring) : jsstring * list jsstring :=
  let '(cur, chunks) := st in
  if len cur + len s <=? chunkSize
  then (cur ++ (if truthy cur then [SP] else []) ++ s, chunks)
  else (slice_from (- Z.min overlap (len s)) s ++ [SP] ++ s,
        if truthy cur then chunks ++ [trim cur] else chunks).

Definition chunkText (text : jsstring) (chunkSize overlap : Z) : list jsstring :=
  let sentences := split_sentences text in
  let '(cur, chunks) := fold_left (chunk_step chunkSize overlap) sentences ([], []) in
  if truthy cur then chunks ++ [trim cur] else chunks.

Definition default_chunkSize : Z := 1800.
Definition default_overlap : Z := 200.

End Chunker.

(** ** What the properties look at *)

Module View.

(** The texts and the offsets of chunk records, a missing one read as the
    empty text and as 0. *)
Definition texts (l : list Worker.ChunkMeta) : list jsstring :=
  List.map (fun c => default [] (Worker.chunk_text c)) l.

Definition starts (l : list Worker.ChunkMeta) : list Z :=
  List.map (fun c => default 0 (Worker.char_start c)) l.

(** [text.slice(a, b)] for offsets within the text. *)
Definition slice (text : jsstring) (a b : Z) : jsstring :=
  take (Z.to_nat (b - a)) (drop (Z.to_nat a) text).

(** A record as the paragraph and recursive strategies make them: a text,
    the type, and offsets whose distance is the length of the text. *)
Definition well_formed (t : ChunkType) (c : Worker.ChunkMeta) : Prop :=
  exists text a,
    Worker.chunk_text c = Some text /\ Worker.chunk_type c = Some t
    /\ Worker.char_start c = Some a /\ Worker.char_end c = Some (a + len text).

(** What the loop of [recursiveChunkWithMeta] keeps true of the offsets: the
    running start is not negative, and the records pushed so far are well
    formed, with starts that never go down and do not pass the running
    start. *)
Definition recursive_offsets_ok (st : Worker.RecState) : Prop :=
  0 <= Worker.start st
  /\ Forall (well_formed recursive) (Worker.chunks st)
  /\ StronglySorted Z.le (starts (Worker.chunks st))
  /\ Forall (fun a => 0 <= a <= Worker.start st) (starts (Worker.chunks st)).

(** What an element of the merged list of [hybridChunkWithMeta] becomes, and
    the text it carries. *)
Definition hybrid_record (i : nat) (c : option Worker.ChunkMeta) : Worker.ChunkMeta :=
  Worker.with_type hybrid (Worker.with_index i (Worker.spread c)).

Definition item_text (c : option Worker.ChunkMeta) : jsstring :=
  default [] (Worker.chunk_text (Worker.spread c)).


(** The chunks that were not inserted, as the console tells. *)
Definition is_chunk_error (e : Worker.LogEvent) : bool :=
  match e with
  | Worker.InsertError _ | Worker.EmbeddingError _ => true
  | _ => false
  end.

Definition chunk_errors (log : list Worker.LogEvent) : nat :=
  length (List.filter is_chunk_error log).

(** [s] occurs in [text]. *)
Definition occurs (p text : jsstring) : Prop :=
  exists pre post, text = pre ++ p ++ post.

(** One of the words occurs in the text, whatever the case of its letters
    A to Z. *)
Definition mentions (words : list string) (text : jsstring) : Prop :=
  exists w, In w words /\ occurs (lit w) (toLowerCase text).

(** The sum of the lengths of the segments, as [classifyDocument] adds them. *)
Definition total_length (paragraphs : list jsstring) : Z :=
  fold_left (fun a p => a + len p) paragraphs 0.

(** The second store holds nothing that the first did not hold, and still
    holds what does not belong to the document [k]. *)
Definition shrunk (k : nat) (s s' : Store) : Prop :=
  (forall c, In c (Db.chunks s') -> In c (Db.chunks s))
  /\ (forall c, In c (Db.chunks s) -> c_document_id c <> k -> In c (Db.chunks s'))
  /\ (forall d, In d (documents s') -> In d (documents s))
  /\ (forall d, In d (documents s) -> d_id d <> k -> In d (documents s'))
  /\ jobs s' = jobs s
  /\ bucket s' ⊆ bucket s.

End View.

(** ** More sample collaborators and stores *)

Module Fixture.


(** No queue: the upload route processes inline. *)
#[local] Instance no_queue : Env := {|
  embedder := embedder (Env := Sample.env);
  parsePdf := parsePdf (Env := Sample.env);
  sha256hex := sha256hex (Env := Sample.env);
  sqrt := sqrt (Env := Sample.env);
  reranker := reranker (Env := Sample.env);
  gemini := None;
  openai := None;
  signedUrl p := None;
  chunk_insert_error c := None;
  document_insert_error d := None;
  storage_error p := None;
  queue_ready := false;
  queue_add_error j := None;
  store_fault c := NoFault;
|}.

(** A store that refuses the chunk whose text is "B". *)
#[local] Instance rejecting : Env := {|
  embedder := embedder (Env := Sample.env);
  parsePdf := parsePdf (Env := Sample.env);
  sha256hex := sha256hex (Env := Sample.env);
  sqrt := sqrt (Env := Sample.env);
  reranker := reranker (Env := Sample.env);
  gemini := None;
  openai := None;
  signedUrl p := None;
  chunk_insert_error c :=
    if bool_decide (c_chunk_text c = lit "B") then Some (lit "value too long") else None;
  document_insert_error d := None;
  storage_error p := None;
  queue_ready := true;
  queue_add_error j := None;
  store_fault c := NoFault;
|}.

(** A generative model that rewrites every question to "x files", and a
    store whose chunks lie across the sample question. *)
#[local] Instance rephrasing : Env := {|
  embedder := embedder (Env := Sample.env);
  parsePdf := parsePdf (Env := Sample.env);
  sha256hex := sha256hex (Env := Sample.env);
  sqrt := sqrt (Env := Sample.env);
  reranker := reranker (Env := Sample.env);
  gemini := Some (fun prompt => Ok (Some (lit "x files")));
  openai := None;
  signedUrl p := None;
  chunk_insert_error c := None;
  document_insert_error d := None;
  storage_error p := None;
  queue_ready := true;
  queue_add_error j := None;
  store_fault c := NoFault;
|}.

(** A model whose vectors have integer components: three vectors of
    dimension 5 and one of dimension 2. The second has length 10 and the
    third length 8; the first component of each is its inner product with
    the first vector. *)
#[local] Instance vectors : Env := {|
  embedder t :=
    if bool_decide (t = lit "three tenths") then Ok [3; 9; 3; 1; 0]%Q
    else if bool_decide (t = lit "three eighths") then Ok [3; 7; 2; 1; 1]%Q
    else if bool_decide (t = lit "short") then Ok [1; 0]%Q
    else Ok [1; 0; 0; 0; 0]%Q;
  parsePdf := parsePdf (Env := Sample.env);
  sha256hex := sha256hex (Env := Sample.env);
  sqrt := sqrt (Env := Sample.env);
  reranker := reranker (Env := Sample.env);
  gemini := None;
  openai := None;
  signedUrl p := None;
  chunk_insert_error c := None;
  document_insert_error d := None;
  storage_error p := None;
  queue_ready := true;
  queue_add_error j := None;
  store_fault c := NoFault;
|}.



(** A table of documents without the column [created_at]: the ordered select
    answers with an error. *)
#[local] Instance no_created_at : Env := {|
  embedder := embedder (Env := Sample.env);
  parsePdf := parsePdf (Env := Sample.env);
  sha256hex := sha256hex (Env := Sample.env);
  sqrt := sqrt (Env := Sample.env);
  reranker := reranker (Env := Sample.env);
  gemini := None;
  openai := None;
  signedUrl p := None;
  chunk_insert_error c := None;
  document_insert_error d := None;
  storage_error p := None;
  queue_ready := true;
  queue_add_error j := None;
  store_fault c :=
    match c with
    | SelectOrdered => ErrorResult (lit "column documents.created_at does not exist")
    | _ => NoFault
    end;
|}.

Definition x_store : Store :=
  {| documents := [Sample.doc 10 1 "a.pdf"];
     Db.chunks := [Sample.chunk 101 10 "x-rays" [0; 1]%Q;
                   Sample.chunk 102 10 "xylophones" [0; 1]%Q];
     bucket := ∅; jobs := []; next_id := 300 |}.

(** Two users whose documents point at the same stored object. *)
Definition shared_store : Store :=
  {| documents :=
       [ {| d_id := 10; d_user_id := 1; d_file_name := lit "a.pdf";
            d_storage_path := Some (lit "uploads/abc.pdf"); d_file_hash := Some (lit "abc") |};
         {| d_id := 20; d_user_id := 2; d_file_name := lit "mine.pdf";
            d_storage_path := Some (lit "uploads/abc.pdf"); d_file_hash := Some (lit "abc") |} ];
     Db.chunks :=
       [Sample.chunk 101 10 "one" [1; 0]%Q; Sample.chunk 201 20 "one" [1; 0]%Q];
     bucket := {[ lit "uploads/abc.pdf" := Sample.bytes_of "abc" ]};
     jobs := []; next_id := 300 |}.

End Fixture.

(** * Properties *)

(** ** The text normalizer *)

Section Normalizer.

Lemma trimEnd_nil_iff (s : jsstring) : trimEnd s = [] <-> forallb is_ws s = true.
Proof.
  induction s as [|c r IH]; simpl; [tauto|].
  destruct (trimEnd r) eqn:Hr.
  - destruct (is_ws c); simpl; [tauto|]. split; discriminate.
  - split; [discriminate|]. intros H. apply andb_prop in H as [_ H].
    apply IH in H. discriminate.
Qed.

Lemma trimEnd_app (a b : jsstring) :
  trimEnd (a ++ b) = match trimEnd b with
                     | [] => trimEnd a
                     | _ :: _ => a ++ trimEnd b
                     end.
Proof.
  induction a as [|c a IH]; simpl.
  - destruct (trimEnd b); reflexivity.
  - rewrite IH. destruct (trimEnd b) eqn:Hb; [reflexivity|].
    destruct a; reflexivity.
Qed.

Lemma trimEnd_snoc (a : jsstring) (c : N) :
  is_ws c = false -> trimEnd (a ++ [c]) = a ++ [c].
Proof. intros H. rewrite trimEnd_app. simpl. rewrite H. reflexivity. Qed.

Lemma trimEnd_length (s : jsstring) : (length (trimEnd s) <= length s)%nat.
Proof.
  induction s as [|c r IH]; simpl; [lia|].
  destruct (trimEnd r); [destruct (is_ws c)|]; simpl in *; lia.
Qed.

Lemma trimStart_length (s : jsstring) : (length (trimStart s) <= length s)%nat.
Proof.
  induction s as [|c r IH]; simpl; [lia|].
  destruct (is_ws c); simpl; lia.
Qed.

Lemma replace_ws_runs_length (b : bool) (s : jsstring) :
  (length (replace_ws_runs b s) <= length s)%nat.
Proof.
  revert b. induction s as [|c r IH]; intros b; simpl; [lia|].
  destruct (is_ws c); [destruct b|]; simpl;
    [specialize (IH true) | specialize (IH true) | specialize (IH false)]; lia.
Qed.

Lemma trimStart_in_run (s : jsstring) :
  trimStart (replace_ws_runs true s) = replace_ws_runs true s.
Proof.
  induction s as [|c r IH]; simpl; [reflexivity|].
  destruct (is_ws c) eqn:Hc; [assumption|]. simpl. rewrite Hc. reflexivity.
Qed.

Lemma trimStart_replace (s : jsstring) :
  trimStart (replace_ws_runs false s) = replace_ws_runs true s.
Proof.
  destruct s as [|c r]; simpl; [reflexivity|].
  destruct (is_ws c) eqn:Hc; simpl.
  - apply trimStart_in_run.
  - rewrite Hc. reflexivity.
Qed.

Lemma rev_cons_nonempty (x : N) (cur : jsstring) : rev (x :: cur) <> [].
Proof.
  intros H. apply (f_equal (@length N)) in H.
  rewrite length_rev in H. discriminate.
Qed.

Lemma words_from_nonempty (s cur : jsstring) :
  Forall (fun w => w <> []) (Spec.words_from cur s)
  /\ (cur <> [] -> Spec.words_from cur s <> []).
Proof.
  revert cur. induction s as [|c r IH]; intros cur.
  - destruct cur as [|x cur]; cbn [Spec.words_from]; split;
      try congruence; repeat constructor.
    apply rev_cons_nonempty.
  - cbn [Spec.words_from]. destruct (is_ws c).
    + destruct cur as [|x cur]; [split; [apply IH|congruence]|].
      split; [|congruence]. constructor; [|apply IH].
      apply rev_cons_nonempty.
    + split; [apply IH|]. intros _. apply IH. congruence.
Qed.

Lemma join_nil_iff (sep : jsstring) (ws : list jsstring) :
  Forall (fun w => w <> []) ws -> join sep ws = [] -> ws = [].
Proof.
  intros H. destruct H as [|w ws Hw Hws]; [reflexivity|].
  simpl. destruct ws; [congruence|].
  intros J. destruct w; [congruence|discriminate].
Qed.

Lemma collapse_words (s : jsstring) :
  (forall cur, cur <> [] -> Forall (fun c => is_ws c = false) cur ->
     trimEnd (rev cur ++ replace_ws_runs false s) = join [SP] (Spec.words_from cur s))
  /\ trimEnd (replace_ws_runs true s) = join [SP] (Spec.words_from [] s).
Proof.
  induction s as [|c r [IH1 IH2]]; simpl.
  - split; [|reflexivity]. intros cur Hne Hcur.
    destruct cur as [|x cur]; [congruence|]. rewrite List.app_nil_r. simpl.
    apply trimEnd_snoc. inversion Hcur; assumption.
  - destruct (is_ws c) eqn:Hc.
    + split; [|exact IH2]. intros cur Hne Hcur.
      destruct cur as [|x cur]; [congruence|].
      rewrite trimEnd_app. simpl (trimEnd (SP :: _)). rewrite IH2.
      destruct (Spec.words_from [] r) as [|w ws] eqn:Hw.
      * cbn [join]. simpl rev. apply trimEnd_snoc. inversion Hcur; assumption.
      * destruct (join [SP] (w :: ws)) as [|j js] eqn:Hj.
        { apply join_nil_iff in Hj; [discriminate|].
          rewrite <- Hw. apply words_from_nonempty. }
        change (join [SP] (rev (x :: cur) :: w :: ws))
          with (rev (x :: cur) ++ [SP] ++ join [SP] (w :: ws)).
        rewrite Hj. reflexivity.
    + split.
      * intros cur Hne Hcur.
        specialize (IH1 (c :: cur)). simpl in IH1.
        rewrite <- List.app_assoc in IH1. simpl in IH1. apply IH1; [congruence|].
        constructor; assumption.
      * apply (IH1 [c]); [congruence|]. constructor; [assumption|constructor].
Qed.

Lemma remove_controls (s : jsstring) :
  remove_class Worker.is_c0 (remove_class Worker.is_nul s)
  = List.filter (fun c => negb (Spec.is_control c)) s.
Proof.
  unfold remove_class. induction s as [|c r IH]; simpl; [reflexivity|].
  unfold Worker.is_nul, Worker.is_c0, Spec.is_control in *.
  destruct (N.eqb_spec c 0) as [->|Hc]; simpl.
  - exact IH.
  - destruct (N.leb_spec 1 c); [|lia]. simpl.
    destruct (N.leb_spec c 31); simpl; rewrite IH; reflexivity.
Qed.

Lemma cleanText_normalized (s : jsstring) : Worker.cleanText s = Spec.normalized s.
Proof.
  unfold Worker.cleanText, Spec.normalized, Spec.words, trim.
  rewrite remove_controls, trimStart_replace. apply collapse_words.
Qed.

Lemma cleanText_length (s : jsstring) : len (Worker.cleanText s) <= len s.
Proof.
  unfold Worker.cleanText, trim, remove_class, len.
  pose proof (trimEnd_length (trimStart (replace_ws_runs false
    (List.filter (fun c => negb (Worker.is_c0 c))
       (List.filter (fun c => negb (Worker.is_nul c)) s))))).
  pose proof (trimStart_length (replace_ws_runs false
    (List.filter (fun c => negb (Worker.is_c0 c))
       (List.filter (fun c => negb (Worker.is_nul c)) s)))).
  pose proof (replace_ws_runs_length false
    (List.filter (fun c => negb (Worker.is_c0 c))
       (List.filter (fun c => negb (Worker.is_nul c)) s))).
  pose proof (List.filter_length_le (fun c => negb (Worker.is_c0 c))
    (List.filter (fun c => negb (Worker.is_nul c)) s)).
  pose proof (List.filter_length_le (fun c => negb (Worker.is_nul c)) s).
  lia.
Qed.

Lemma words_from_Forall (P : N -> Prop) (s cur : jsstring) :
  Forall P cur -> Forall P s -> Forall (Forall P) (Spec.words_from cur s).
Proof.
  revert cur. induction s as [|c r IH]; intros cur Hcur Hs; cbn [Spec.words_from].
  - destruct cur; repeat constructor. apply List.Forall_forall. intros y Hy.
    apply in_rev in Hy. rewrite List.Forall_forall in Hcur. auto.
  - inversion Hs as [|? ? Hc Hr]; subst. destruct (is_ws c).
    + destruct cur as [|x cur]; [apply IH; auto|].
      constructor; [|apply IH; auto].
      apply List.Forall_forall. intros y Hy. apply in_rev in Hy.
      rewrite List.Forall_forall in Hcur. auto.
    + apply IH; auto.
Qed.

Lemma words_from_no_ws (s cur : jsstring) :
  Forall (fun c => is_ws c = false) cur ->
  Forall (Forall (fun c => is_ws c = false)) (Spec.words_from cur s).
Proof.
  revert cur. induction s as [|c r IH]; intros cur Hcur; cbn [Spec.words_from].
  - destruct cur; repeat constructor. apply List.Forall_forall. intros y Hy.
    apply in_rev in Hy. rewrite List.Forall_forall in Hcur. auto.
  - destruct (is_ws c) eqn:Hc.
    + destruct cur as [|x cur]; [apply IH; auto|].
      constructor; [|apply IH; auto].
      apply List.Forall_forall. intros y Hy. apply in_rev in Hy.
      rewrite List.Forall_forall in Hcur. auto.
    + apply IH; auto.
Qed.

Lemma join_Forall (P : N -> Prop) (sep : jsstring) (ws : list jsstring) :
  Forall P sep -> Forall (Forall P) ws -> Forall P (join sep ws).
Proof.
  intros Hsep. induction 1 as [|w ws Hw Hws IH]; [constructor|].
  cbn [join]. destruct ws; [assumption|].
  apply List.Forall_app; split; [assumption|]. apply List.Forall_app; split; assumption.
Qed.

Lemma join_head_no_ws (w : jsstring) (ws : list jsstring) :
  Spec.wordy (w :: ws) ->
  exists c t, join [SP] (w :: ws) = c :: t /\ is_ws c = false.
Proof.
  intros [Hne Hws]. inversion Hne as [|? ? Hw _]; subst.
  inversion Hws as [|? ? Hcw _]; subst.
  destruct w as [|c w0]; [congruence|]. inversion Hcw; subst.
  exists c. cbn [join]. destruct ws; eauto.
Qed.

Lemma no_ws_pair_app (w x : jsstring) :
  Forall (fun c => is_ws c = false) w -> Spec.no_ws_pair x -> Spec.no_ws_pair (w ++ x).
Proof.
  induction 1 as [|c w Hc Hw IH]; intros Hx; [assumption|].
  specialize (IH Hx). simpl. destruct (w ++ x); [exact I|].
  rewrite Hc. auto.
Qed.

Lemma join_shape (ws : list jsstring) :
  Spec.wordy ws ->
  let t := join [SP] ws in
  (forall c, In c t -> is_ws c = true -> c = SP)
  /\ Spec.no_ws_pair t /\ trimStart t = t /\ trimEnd t = t.
Proof.
  induction ws as [|w ws IH]; intros Hwordy; [simpl; tauto|].
  pose proof Hwordy as [Hne Hws].
  inversion Hne as [|? ? Hw Hne']; subst. inversion Hws as [|? ? Hcw Hws']; subst.
  assert (Hwordy' : Spec.wordy ws) by (split; assumption).
  specialize (IH Hwordy'). cbv zeta in IH. destruct IH as (IHc & IHp & IHs & IHe).
  destruct (join_head_no_ws w ws Hwordy) as (c0 & t0 & Ht0 & Hc0).
  cbv zeta. cbn [join] in *. destruct ws as [|w' ws].
  - rewrite <- (List.app_nil_r w). repeat split.
    + intros c Hc Hcws. rewrite List.app_nil_r in Hc.
      rewrite List.Forall_forall in Hcw. rewrite (Hcw c Hc) in Hcws. discriminate.
    + apply no_ws_pair_app; [assumption|exact I].
    + rewrite List.app_nil_r, Ht0. simpl. rewrite Hc0. reflexivity.
    + destruct (exists_last Hw) as (w0 & c & ->). rewrite List.app_nil_r.
      apply trimEnd_snoc. rewrite List.Forall_forall in Hcw. apply Hcw.
      apply in_or_app. right. left. reflexivity.
  - destruct (join_head_no_ws w' ws Hwordy') as (c1 & t1 & Ht1 & Hc1).
    repeat split.
    + intros c Hc Hcws. apply in_app_or in Hc as [Hc|Hc].
      * rewrite List.Forall_forall in Hcw. rewrite (Hcw c Hc) in Hcws. discriminate.
      * destruct Hc as [Hc|Hc]; [congruence|]. apply IHc; assumption.
    + apply no_ws_pair_app; [assumption|].
      change (Spec.no_ws_pair (SP :: join [SP] (w' :: ws))).
      rewrite Ht1. rewrite Ht1 in IHp. simpl. rewrite Hc1.
      split; [reflexivity|]. simpl in IHp. rewrite Hc1 in IHp. exact IHp.
    + rewrite Ht0. simpl. rewrite Hc0. reflexivity.
    + rewrite trimEnd_app.
      change ([SP] ++ join [SP] (w' :: ws)) with (SP :: join [SP] (w' :: ws)).
      cbn [trimEnd]. rewrite IHe, Ht1. reflexivity.
Qed.

Lemma words_wordy (s : jsstring) : Spec.wordy (Spec.words s).
Proof.
  split; [apply words_from_nonempty|apply words_from_no_ws; constructor].
Qed.

(** The normalizer, as the code has it. For every string, [cleanText]
    first removes the code units U+0000 to U+001F (tab, line feed and
    carriage return among them) and then joins the words that remain, the
    runs of code units that are not white space, by single spaces. The
    result holds no control code unit, no white space but the single space,
    no two spaces in a row and none at either end; the empty string gives
    the empty string. *)
Theorem cleanText_spec (s : jsstring) :
  let out := Worker.cleanText s in
  out = Spec.normalized s
  /\ Forall (fun c => Spec.is_control c = false) out
  /\ (forall c, In c out -> is_ws c = true -> c = SP)
  /\ Spec.no_ws_pair out
  /\ trim out = out
  /\ Worker.cleanText [] = [].
Proof.
  cbv zeta. rewrite cleanText_normalized. unfold Spec.normalized.
  set (t := List.filter (fun c => negb (Spec.is_control c)) s).
  destruct (join_shape (Spec.words t) (words_wordy t)) as (Hc & Hp & Hs & He).
  repeat split; try assumption.
  - apply join_Forall; [repeat constructor|].
    apply words_from_Forall; [constructor|].
    apply List.Forall_forall. intros c Hc'. apply List.filter_In in Hc' as [_ Hc'].
    destruct (Spec.is_control c); [discriminate|reflexivity].
  - unfold trim. rewrite Hs. exact He.
Qed.

End Normalizer.

(** C7 fails on white space that is a control character. The second
    replacement of [cleanText] deletes the code units U+0001 to U+001F, and
    with them tab, line feed and carriage return, before the third can turn
    a run of white space into one space. Whatever stands around it, a
    control character leaves no trace: two sentences that a line feed
    separates are glued, and so are the two paragraphs of a document when
    the recursive strategy cleans its buffer. *)
Theorem cleanText_glues_lines :
  (forall (u v : jsstring) (c : N),
     Spec.is_control c = true -> Worker.cleanText (u ++ c :: v) = Worker.cleanText (u ++ v))
  /\ is_ws NL = true /\ Spec.is_control NL = true
  /\ Worker.cleanText (lit "Intro text." ++ NL :: lit "Body text.")
     = lit "Intro text.Body text."
  /\ Worker.cleanText (lit "name:" ++ 9%N :: lit "value") = lit "name:value"
  /\ View.texts (Worker.recursiveChunkWithMeta
                   (lit "Intro text." ++ [NL; NL] ++ lit "Body text.") 1500 200)
     = [lit "Intro text.Body text."].
Proof.
  split; [|repeat split; reflexivity].
  intros u v c Hc. rewrite !cleanText_normalized. unfold Spec.normalized.
  rewrite !List.filter_app. cbn [List.filter]. rewrite Hc. reflexivity.
Qed.

(** ** The chunking engine *)

Section Chunking.

Import Worker.

Lemma cleanText_drops_separator (body : jsstring) :
  cleanText (body ++ [NL; NL]) = cleanText body.
Proof.
  unfold cleanText, remove_class. rewrite !List.filter_app. simpl.
  rewrite List.app_nil_r. reflexivity.
Qed.

Lemma cleaned_buffer_bound (maxChars : Z) (st : RecState) :
  Spec.buffer_ok maxChars st ->
  truthy (cleanText (current st)) = true ->
  len (cleanText (current st)) <= maxChars.
Proof.
  intros [[Hcur|(body & Hcur & Hlen)] _] Ht; rewrite Hcur in *.
  - discriminate.
  - rewrite cleanText_drops_separator. pose proof (cleanText_length body). lia.
Qed.

Lemma recursive_step_ok (maxChars overlap : Z) (st : RecState) (part : jsstring) :
  len part <= maxChars -> Spec.buffer_ok maxChars st ->
  Spec.buffer_ok maxChars (recursive_step maxChars overlap st part).
Proof.
  intros Hpart Hst. pose proof Hst as [Hcur Hchunks]. unfold recursive_step.
  destruct (Z.leb_spec (len (current st ++ part)) maxChars) as [Hle|Hgt].
  - split; [|exact Hchunks]. right. exists (current st ++ part). simpl.
    split; [|exact Hle]. rewrite <- List.app_assoc. reflexivity.
  - split; simpl.
    + right. exists part. split; [reflexivity|assumption].
    + destruct (truthy (cleanText (current st))) eqn:Ht; [|exact Hchunks].
      apply List.Forall_app. split; [exact Hchunks|]. constructor; [|constructor].
      eexists. split; [reflexivity|]. apply cleaned_buffer_bound; assumption.
Qed.

Lemma recursive_loop_ok (maxChars overlap : Z) (parts : list jsstring) (st : RecState) :
  (forall part, In part parts -> len part <= maxChars) ->
  Spec.buffer_ok maxChars st ->
  Spec.buffer_ok maxChars (fold_left (recursive_step maxChars overlap) parts st).
Proof.
  revert st. induction parts as [|part parts IH]; intros st Hparts Hst; simpl.
  - exact Hst.
  - apply IH; [intros p Hp; apply Hparts; right; exact Hp|].
    apply recursive_step_ok; [apply Hparts; left; reflexivity|exact Hst].
Qed.

Lemma recursive_flush_ok (maxChars : Z) (st : RecState) :
  Spec.buffer_ok maxChars st -> Spec.within_budget maxChars (recursive_flush st).
Proof.
  intros Hst. pose proof Hst as [Hcur Hchunks]. unfold recursive_flush.
  destruct (truthy (trim (current st))) eqn:Ht; [|exact Hchunks].
  apply List.Forall_app. split; [exact Hchunks|]. constructor; [|constructor].
  eexists. split; [reflexivity|].
  destruct Hcur as [Hcur|(body & Hcur & Hlen)]; rewrite Hcur in *.
  - discriminate.
  - rewrite cleanText_drops_separator. pose proof (cleanText_length body). lia.
Qed.

Lemma in_imap_with_index (l : list ChunkMeta) (c : ChunkMeta) :
  In c (imap with_index l) -> exists i c0, In c0 l /\ c = with_index i c0.
Proof.
  intros H. apply list_elem_of_In in H. apply elem_of_lookup_imap in H.
  destruct H as (i & c0 & -> & Hl). exists i, c0. split; [|reflexivity].
  apply list_elem_of_In. eapply list_elem_of_lookup_2. exact Hl.
Qed.

Lemma recursive_chunk_within_budget (text : jsstring) (maxChars overlap : Z)
  (c : ChunkMeta) :
  (forall part, In part (split_nn text) -> len part <= maxChars) ->
  In c (recursiveChunkWithMeta text maxChars overlap) ->
  exists t, chunk_text c = Some t /\ len t <= maxChars.
Proof.
  intros Hparts Hc. unfold recursiveChunkWithMeta in Hc.
  apply in_imap_with_index in Hc as (i & c0 & Hc0 & ->).
  assert (Hok : Spec.within_budget maxChars
    (recursive_flush (fold_left (recursive_step maxChars overlap) (split_nn text)
       {| current := []; start := 0; Worker.chunks := [] |}))).
  { apply recursive_flush_ok. apply recursive_loop_ok; [exact Hparts|].
    split; [left; reflexivity|constructor]. }
  unfold Spec.within_budget in Hok. rewrite List.Forall_forall in Hok.
  exact (Hok c0 Hc0).
Qed.

Lemma all_ws_clean (s : jsstring) : forallb is_ws s = true -> cleanText s = [].
Proof.
  intros H. rewrite cleanText_normalized. unfold Spec.normalized, Spec.words.
  assert (Hf : forallb is_ws (List.filter (fun c => negb (Spec.is_control c)) s) = true).
  { induction s as [|c r IH]; [reflexivity|]. cbn [forallb] in H.
    apply andb_prop in H as [Hc Hr]. cbn [List.filter].
    destruct (negb (Spec.is_control c)); [cbn [forallb]; rewrite Hc|]; auto. }
  induction (List.filter (fun c => negb (Spec.is_control c)) s) as [|c r IH];
    [reflexivity|].
  cbn [forallb] in Hf. apply andb_prop in Hf as [Hc Hr].
  cbn [Spec.words_from]. rewrite Hc. exact (IH Hr).
Qed.

Lemma trim_nil_all_ws (s : jsstring) : trim s = [] -> forallb is_ws s = true.
Proof.
  unfold trim. intros H. apply trimEnd_nil_iff in H.
  induction s as [|c r IH]; [reflexivity|]. cbn [trimStart] in H. cbn [forallb].
  destruct (is_ws c) eqn:Hc; [exact (IH H)|].
  cbn [forallb] in H. rewrite Hc in H. discriminate.
Qed.

Lemma clean_truthy_trim (s : jsstring) :
  truthy (cleanText s) = true -> truthy (trim s) = true.
Proof.
  intros H. destruct (trim s) eqn:Ht; [|reflexivity].
  rewrite (all_ws_clean s (trim_nil_all_ws s Ht)) in H. discriminate.
Qed.

(** What the loop keeps true when no cleaned part is longer than a bound
    that is not below the budget: the cleaned buffer and the chunks pushed
    so far are within the bound. *)
Lemma recursive_step_bound (bound maxChars overlap : Z) (st : RecState)
  (part : jsstring) :
  maxChars <= bound -> len (cleanText part) <= bound ->
  len (cleanText (current st)) <= bound /\ Spec.within_budget bound (chunks st) ->
  len (cleanText (current (recursive_step maxChars overlap st part))) <= bound
  /\ Spec.within_budget bound (chunks (recursive_step maxChars overlap st part)).
Proof.
  intros HB Hpart [Hcur Hchunks]. unfold recursive_step.
  destruct (Z.leb_spec (len (current st ++ part)) maxChars) as [Hle|Hgt];
    cbn [current chunks].
  - split; [|exact Hchunks].
    rewrite List.app_assoc, cleanText_drops_separator.
    pose proof (cleanText_length (current st ++ part)). lia.
  - split; [rewrite cleanText_drops_separator; exact Hpart|].
    destruct (truthy (cleanText (current st))); [|exact Hchunks].
    apply List.Forall_app. split; [exact Hchunks|]. constructor; [|constructor].
    eexists. split; [reflexivity|exact Hcur].
Qed.

Lemma recursive_loop_bound (bound maxChars overlap : Z) (parts : list jsstring)
  (st : RecState) :
  maxChars <= bound ->
  (forall part, In part parts -> len (cleanText part) <= bound) ->
  len (cleanText (current st)) <= bound /\ Spec.within_budget bound (chunks st) ->
  Spec.within_budget bound
    (recursive_flush (fold_left (recursive_step maxChars overlap) parts st)).
Proof.
  intros HB. revert st. induction parts as [|part parts IH]; intros st Hparts Hst.
  - cbn [fold_left]. destruct Hst as [Hcur Hchunks]. unfold recursive_flush.
    destruct (truthy (trim (current st))); [|exact Hchunks].
    apply List.Forall_app. split; [exact Hchunks|]. constructor; [|constructor].
    eexists. split; [reflexivity|exact Hcur].
  - cbn [fold_left]. apply IH; [intros q Hq; apply Hparts; right; exact Hq|].
    apply recursive_step_bound; [exact HB|apply Hparts; left; reflexivity|exact Hst].
Qed.

Lemma recursive_step_keeps (maxChars overlap : Z) (st : RecState) (part : jsstring)
  (c : ChunkMeta) :
  In c (chunks st) -> In c (chunks (recursive_step maxChars overlap st part)).
Proof.
  intros H. unfold recursive_step.
  destruct (len (current st ++ part) <=? maxChars); cbn [chunks]; [exact H|].
  destruct (truthy (cleanText (current st))); [|exact H].
  apply in_or_app. left. exact H.
Qed.

Lemma recursive_loop_keeps (maxChars overlap : Z) (parts : list jsstring)
  (st : RecState) (c : ChunkMeta) :
  In c (chunks st) ->
  In c (recursive_flush (fold_left (recursive_step maxChars overlap) parts st)).
Proof.
  revert st. induction parts as [|part parts IH]; intros st H.
  - cbn [fold_left]. unfold recursive_flush.
    destruct (truthy (trim (current st))); [|exact H]. apply in_or_app. left. exact H.
  - cbn [fold_left]. apply IH, recursive_step_keeps, H.
Qed.

(** A part whose cleaned text is longer than the budget comes back as a
    chunk of its own. *)
Lemma long_part_is_a_chunk (maxChars overlap : Z) (p : jsstring)
  (parts : list jsstring) (st : RecState) :
  0 <= maxChars -> maxChars < len (cleanText p) ->
  exists c,
    In c (recursive_flush (fold_left (recursive_step maxChars overlap) (p :: parts) st))
    /\ chunk_text c = Some (cleanText p).
Proof.
  intros H0 Hlong. pose proof (cleanText_length p) as Hraw.
  assert (Htruthy : truthy (cleanText (p ++ [NL; NL])) = true).
  { rewrite cleanText_drops_separator. destruct (cleanText p); [|reflexivity].
    change (len []) with 0 in Hlong. lia. }
  cbn [fold_left]. unfold recursive_step at 2.
  assert (Hfirst : (len (current st ++ p) <=? maxChars) = false).
  { apply Z.leb_gt. unfold len in *. rewrite length_app. lia. }
  rewrite Hfirst.
  match goal with |- context [fold_left _ parts ?st0] => set (st1 := st0) end.
  exists (recursive_chunk (cleanText p) (start st1)). split; [|reflexivity].
  destruct parts as [|q rest].
  - cbn [fold_left]. unfold recursive_flush. subst st1. cbn [current start chunks].
    rewrite (clean_truthy_trim _ Htruthy), cleanText_drops_separator.
    apply in_or_app. right. left. reflexivity.
  - cbn [fold_left]. apply recursive_loop_keeps. unfold recursive_step.
    assert (Hnext : (len (current st1 ++ q) <=? maxChars) = false).
    { apply Z.leb_gt. subst st1. cbn [current]. unfold len in *.
      rewrite !length_app. lia. }
    rewrite Hnext. cbn [chunks]. subst st1. cbn [current start chunks].
    rewrite Htruthy, cleanText_drops_separator.
    apply in_or_app. right. left. reflexivity.
Qed.

Lemma in_imap_of (l : list ChunkMeta) (c0 : ChunkMeta) :
  In c0 l -> exists i, In (with_index i c0) (imap with_index l).
Proof.
  intros H. apply list_elem_of_In in H. apply list_elem_of_lookup_1 in H as [i Hi].
  exists i. apply list_elem_of_In. apply elem_of_lookup_imap. exists i, c0. auto.
Qed.

(** C5, as the code has it. The recursive strategy never cuts a segment. For
    a budget and an overlap that are not negative, every chunk record has a
    text of at most [maxChars + overlap] code units exactly when no
    blank-line-delimited segment of the text is longer than that once
    cleaned; so it does whenever no segment is longer than
    [maxChars + overlap]. *)
Theorem recursive_chunk_bound (text : jsstring) (maxChars overlap : Z) :
  0 <= maxChars -> 0 <= overlap ->
  let bounded :=
    forall c, In c (recursiveChunkWithMeta text maxChars overlap) ->
              exists t, chunk_text c = Some t /\ len t <= maxChars + overlap in
  (bounded
   <-> forall part, In part (split_nn text) -> len (cleanText part) <= maxChars + overlap)
  /\ ((forall part, In part (split_nn text) -> len part <= maxChars + overlap) -> bounded).
Proof.
  intros Hm Ho. cbv zeta.
  assert (Hsuff : (forall part, In part (split_nn text) ->
                     len (cleanText part) <= maxChars + overlap) ->
                  forall c, In c (recursiveChunkWithMeta text maxChars overlap) ->
                  exists t, chunk_text c = Some t /\ len t <= maxChars + overlap).
  { intros Hparts c Hc. unfold recursiveChunkWithMeta in Hc.
    apply in_imap_with_index in Hc as (i & c0 & Hc0 & ->).
    assert (Hok : Spec.within_budget (maxChars + overlap)
      (recursive_flush (fold_left (recursive_step maxChars overlap) (split_nn text)
         {| current := []; start := 0; Worker.chunks := [] |}))).
    { apply recursive_loop_bound; [lia|exact Hparts|].
      split; [change (0 <= maxChars + overlap); lia|constructor]. }
    unfold Spec.within_budget in Hok. rewrite List.Forall_forall in Hok.
    exact (Hok c0 Hc0). }
  split; [split; [|exact Hsuff]|].
  - intros Hall part Hpart.
    destruct (Z.le_gt_cases (len (cleanText part)) (maxChars + overlap)) as [|Hlong];
      [assumption|exfalso].
    apply in_split in Hpart as (l1 & l2 & Hsplit).
    destruct (long_part_is_a_chunk maxChars overlap part l2
                (fold_left (recursive_step maxChars overlap) l1
                   {| current := []; start := 0; Worker.chunks := [] |}) Hm)
      as (c0 & Hin & Htext); [lia|].
    rewrite <- fold_left_app, <- Hsplit in Hin.
    apply in_imap_of in Hin as [i Hin].
    destruct (Hall _ Hin) as (t & Ht & Hlen). cbn [with_index chunk_text] in Ht.
    rewrite Htext in Ht. injection Ht as <-. lia.
  - intros Hraw. apply Hsuff. intros part Hpart.
    pose proof (cleanText_length part). specialize (Hraw part Hpart). lia.
Qed.

Lemma recursive_chunk_bound_witness :
  let text := Sample.para (lit "Intro text.") (lit "Body text.") in
  0 <= default_maxChars /\ 0 <= default_overlap
  /\ (forall part, In part (split_nn text) -> len part <= default_maxChars + default_overlap)
  /\ forall c, In c (recursiveChunkWithMeta text default_maxChars default_overlap) ->
               exists t, chunk_text c = Some t
                         /\ len t <= default_maxChars + default_overlap.
Proof.
  cbv zeta.
  assert (Hm : 0 <= default_maxChars) by (unfold default_maxChars; lia).
  assert (Ho : 0 <= default_overlap) by (unfold default_overlap; lia).
  assert (H : forall part,
    In part (split_nn (Sample.para (lit "Intro text.") (lit "Body text."))) ->
    len part <= default_maxChars + default_overlap).
  { intros part [<-|[<-|[]]]; vm_compute; discriminate. }
  split; [exact Hm|]. split; [exact Ho|]. split; [exact H|].
  exact (proj2 (recursive_chunk_bound
                  (Sample.para (lit "Intro text.") (lit "Body text."))
                  default_maxChars default_overlap Hm Ho) H).
Defined.

(** C5, as stated, fails: one segment of 1701 code units, with no blank line
    in it, comes back as one chunk of 1701 code units. *)
Lemma recursive_chunk_exceeds_bound :
  exists c t,
    In c (recursiveChunkWithMeta (repeat 97%N 1701) default_maxChars default_overlap)
    /\ chunk_text c = Some t
    /\ default_maxChars + default_overlap < len t.
Proof.
  eexists. eexists. split; [left; reflexivity|].
  split; [reflexivity|]. vm_compute. reflexivity.
Qed.

Lemma paragraph_empty_text : paragraphChunkWithMeta [] = [].
Proof. reflexivity. Qed.

Lemma recursive_empty_text (maxChars overlap : Z) :
  recursiveChunkWithMeta [] maxChars overlap = [].
Proof.
  unfold recursiveChunkWithMeta. simpl. unfold recursive_step. simpl.
  destruct (len [] <=? maxChars); reflexivity.
Qed.

(** C6 at the hybrid strategy. For the empty text the recursive base is
    empty, [current] is undefined, and the strategy returns one record that
    has an index and a type but neither text nor offsets. *)
Theorem hybrid_empty_text_one_record :
  hybridChunkWithMeta []
  = Ok [ {| chunk_text := None; chunk_index := Some 0%nat;
            chunk_type := Some hybrid; char_start := None; char_end := None |} ].
Proof. reflexivity. Qed.

End Chunking.

(** ** Sorting *)

Section Sorting.
Context {A : Type}.

Lemma insert_sorted_perm (before : A -> A -> bool) (x : A) (l : list A) :
  Permutation (insert_sorted before x l) (x :: l).
Proof.
  induction l as [|y r IH]; simpl; [reflexivity|].
  destruct (before y x); [|reflexivity].
  rewrite IH. apply perm_swap.
Qed.

Lemma stable_sort_perm (before : A -> A -> bool) (l : list A) :
  Permutation (stable_sort before l) l.
Proof.
  induction l as [|x l IH]; simpl; [reflexivity|].
  rewrite insert_sorted_perm. constructor. exact IH.
Qed.

Lemma in_stable_sort (before : A -> A -> bool) (l : list A) (x : A) :
  In x (stable_sort before l) <-> In x l.
Proof.
  split; apply Permutation_in; [|symmetry]; apply stable_sort_perm.
Qed.

Lemma stable_sort_length (before : A -> A -> bool) (l : list A) :
  length (stable_sort before l) = length l.
Proof. apply Permutation_length, stable_sort_perm. Qed.

Lemma in_take (n : nat) (l : list A) (x : A) : In x (take n l) -> In x l.
Proof.
  revert n. induction l as [|y l IH]; intros [|n]; simpl; try tauto.
  intros [->|H]; [left; reflexivity|right; eauto].
Qed.

Lemma Qltb_true (x y : Q) : Qltb x y = true <-> (x < y)%Q.
Proof.
  unfold Qltb. rewrite negb_true_iff. split.
  - intros H. apply Qnot_le_lt. intros Hle. apply Qle_bool_iff in Hle. congruence.
  - intros H. destruct (Qle_bool y x) eqn:Hb; [|reflexivity].
    apply Qle_bool_iff in Hb. exfalso. exact (Qlt_not_le _ _ H Hb).
Qed.

Lemma Qltb_false (x y : Q) : Qltb x y = false <-> (y <= x)%Q.
Proof.
  unfold Qltb. rewrite negb_false_iff. apply Qle_bool_iff.
Qed.

Lemma insert_sorted_descending (score : A -> Q) (x : A) (l : list A) :
  descending score l -> descending score (insert_sorted (by_score_desc score) x l).
Proof.
  unfold descending. induction 1 as [|y r Hr IH Hy]; simpl.
  - constructor; constructor.
  - unfold by_score_desc at 1. destruct (Qltb (score x) (score y)) eqn:Hb.
    + constructor; [exact IH|].
      apply List.Forall_forall. intros z Hz.
      eapply Permutation_in in Hz; [|apply insert_sorted_perm].
      destruct Hz as [<-|Hz].
      * apply Qlt_le_weak, Qltb_true, Hb.
      * rewrite List.Forall_forall in Hy. auto.
    + apply Qltb_false in Hb. constructor; [constructor; assumption|].
      constructor; [exact Hb|].
      apply List.Forall_forall. intros z Hz. rewrite List.Forall_forall in Hy.
      eapply Qle_trans; [apply Hy; exact Hz|exact Hb].
Qed.

Lemma stable_sort_descending (score : A -> Q) (l : list A) :
  descending score (stable_sort (by_score_desc score) l).
Proof.
  induction l as [|x l IH]; simpl; [constructor|].
  apply insert_sorted_descending, IH.
Qed.

End Sorting.

(** ** Retrieval *)

Section Retrieval.
Context {E : Env}.

Import Chat.

Lemma keyed_document_unique (docs : list Document) (a b : Document) :
  List.NoDup (List.map d_id docs) -> In a docs -> In b docs -> d_id a = d_id b -> a = b.
Proof.
  induction docs as [|d docs IH]; simpl; [tauto|].
  intros Hnd Ha Hb Hab. inversion Hnd as [|? ? Hnot Hnd']; subst.
  destruct Ha as [->|Ha], Hb as [->|Hb]; auto.
  - exfalso. apply Hnot. rewrite Hab. apply in_map. exact Hb.
  - exfalso. apply Hnot. rewrite <- Hab. apply in_map. exact Ha.
Qed.

Lemma in_joined (s : Store) (c : Chunk) (d : Document) :
  In (c, d) (joined s) ->
  In c (Db.chunks s) /\ In d (documents s) /\ c_document_id c = d_id d.
Proof.
  unfold joined. intros H. apply in_flat_map in H as (c' & Hc' & H).
  apply in_map_iff in H as (d' & [= -> ->] & Hd).
  apply List.filter_In in Hd as [Hd Heq]. apply Nat.eqb_eq in Heq. auto.
Qed.

Lemma vectorQuery_owned (s : Store) (user_id : nat) (pgVector : list Q) (r : Row) :
  In r (vectorQuery s user_id pgVector) -> Spec.owned_by s user_id r.
Proof.
  unfold vectorQuery. intros H.
  apply in_map_iff in H as ([c d] & <- & H). simpl.
  apply in_take in H. apply in_stable_sort in H.
  apply List.filter_In in H as [H Hu]. simpl in Hu. apply Nat.eqb_eq in Hu.
  apply in_joined in H as (Hc & Hd & Hcd).
  exists c, d. auto.
Qed.

(** C1. The retrieval step: for every store whose documents are keyed by
    their identifier, every user identifier and every query vector (whatever
    the query string it embeds), each row that [vectorQuery] returns is a
    chunk of the store joined to a document of the store whose owner is the
    requesting user, and no document with that identifier has another
    owner. *)
Theorem retrieval_scoped_to_user (s : Store) (user_id : nat) (pgVector : list Q)
  (r : Row) :
  Spec.documents_keyed s ->
  In r (vectorQuery s user_id pgVector) ->
  Spec.owned_by s user_id r
  /\ forall d, In d (documents s) -> d_id d = r_document_id r -> d_user_id d = user_id.
Proof.
  intros Hkey Hr. pose proof (vectorQuery_owned _ _ _ _ Hr) as Hown.
  split; [exact Hown|].
  destruct Hown as (c & d & Hc & Hd & Hcd & Hu & ->).
  intros d' Hd' Hid. simpl in Hid.
  assert (d' = d) as ->; [|exact Hu].
  apply (keyed_document_unique (documents s)); try assumption. congruence.
Qed.

Lemma pool_query_owned (s : Store) (user_id : nat) (v : list Q) (rows : list Row) :
  pool_query s user_id v = Ok rows -> Forall (Spec.owned_by s user_id) rows.
Proof.
  unfold pool_query. destruct (store_fault VectorQuery); [|discriminate..].
  intros [= <-]. apply List.Forall_forall. intros r. apply vectorQuery_owned.
Qed.

Lemma self_correct_rows (s : Store) (user_id : nat) (question : jsstring)
  (rows : list Row) (relevance : SelfCorrection.Relevance)
  (finalRows : list Row) (trace : Trace) :
  self_correct s user_id question rows relevance = Ok (finalRows, trace) ->
  finalRows = rows
  \/ exists v, pool_query s user_id v = Ok finalRows.
Proof.
  unfold self_correct.
  destruct (SelfCorrection.needsCorrection relevance); [|intros [= <- _]; auto].
  destruct (present (rephrase_question question)); [|intros [= <- _]; auto].
  unfold getEmbedding, toPgVector.
  destruct (embedder _) as [emb|]; [|discriminate]. simpl.
  destruct (pool_query s user_id (truncate emb)) as [newRows|] eqn:Hq; [|discriminate].
  simpl. destruct (0 <? length newRows)%nat; intros [= <- _]; eauto.
Qed.

(** What a run that answers hands on: the rows of the first query, the rows
    the context is built from, and the prompt. *)
Lemma run_inversion (s : Store) (user_id : nat) (question : jsstring) (res : Run) :
  run s user_id question = Ok res ->
  (exists v, pool_query s user_id v = Ok (rows res))
  /\ (finalRows res = rows res \/ exists v, pool_query s user_id v = Ok (finalRows res))
  /\ prompt res = generationPrompt (finalContext (finalRows res)) question
  /\ sources (body res)
     = List.map with_signed_url
         (if (0 <? length (finalRows res))%nat then finalRows res else rows res).
Proof.
  unfold run, getEmbedding, toPgVector.
  destruct (embedder question) as [qe|]; [|discriminate]. cbn [Js.bind].
  destruct (pool_query s user_id (truncate qe)) as [rs|] eqn:Hq; [|discriminate].
  cbn [Js.bind].
  destruct reranker as [scorer|]; [|discriminate]. cbn [Js.bind].
  destruct (SelfCorrection.assessContextRelevance _ _ _) as [rel|]; [|discriminate].
  cbn [Js.bind].
  destruct (self_correct s user_id question rs rel) as [[fr tr]|] eqn:Hsc; [|discriminate].
  cbn [Js.bind].
  destruct (Faithfulness.getFaithfulnessScore _ _ _) as [faith|]; [|discriminate].
  cbn [Js.bind]. intros [= <-]. cbn [rows finalRows prompt body sources].
  apply self_correct_rows in Hsc. repeat split; eauto.
Qed.

(** The rows that reach the generation and the response are the user's. *)
Lemma run_scoped_to_user (s : Store) (user_id : nat) (question : jsstring) (res : Run) :
  run s user_id question = Ok res ->
  Forall (Spec.owned_by s user_id) (finalRows res)
  /\ Forall (fun src => Spec.owned_by s user_id (row src)) (sources (body res)).
Proof.
  intros Hrun. apply run_inversion in Hrun as ((v & Hv) & Hfr & _ & Hsrc).
  apply pool_query_owned in Hv.
  assert (Hf : Forall (Spec.owned_by s user_id) (finalRows res)).
  { destruct Hfr as [->|(v' & Hv')]; [exact Hv|]. eapply pool_query_owned, Hv'. }
  split; [exact Hf|]. rewrite Hsrc.
  apply List.Forall_forall. intros src Hin. apply in_map_iff in Hin as (r & <- & Hr).
  simpl. destruct (0 <? length (finalRows res))%nat;
    [rewrite List.Forall_forall in Hf|rewrite List.Forall_forall in Hv]; auto.
Qed.

Lemma score_all_rows (scorer : jsstring -> exn Q) (question : jsstring)
  (chunks : list Row) (scored : list (Row * Q)) :
  score_all scorer question chunks = Ok scored ->
  List.map fst scored = chunks
  /\ Forall (fun cs => scorer (question ++ lit " [SEP] " ++ r_chunk_text (fst cs))
                       = Ok (snd cs)) scored.
Proof.
  revert scored. induction chunks as [|c rest IH]; simpl; intros scored.
  - intros [= <-]. split; constructor.
  - destruct (scorer _) as [out|] eqn:Hout; [|discriminate]. simpl.
    destruct (score_all scorer question rest) as [sc|]; [|discriminate]. simpl.
    intros [= <-]. destruct (IH sc eq_refl) as [Hm Hf]. simpl. split.
    + f_equal. exact Hm.
    + constructor; [exact Hout|exact Hf].
Qed.

(** What [rerank] returns when it is called: at most six of the candidates,
    each with its row unchanged and the score of its pair, the higher scores
    first. *)
Lemma rerank_top_six (scorer : jsstring -> exn Q) (question : jsstring)
  (chunks : list Row) (top : list (Row * Q)) :
  rerank scorer question chunks = Ok top ->
  (length top <= 6)%nat
  /\ length top = Nat.min 6 (length chunks)
  /\ (forall cs, In cs top ->
        In (fst cs) chunks
        /\ scorer (question ++ lit " [SEP] " ++ r_chunk_text (fst cs)) = Ok (snd cs))
  /\ descending snd top.
Proof.
  unfold rerank. destruct (score_all scorer question chunks) as [scored|] eqn:Hs;
    [|discriminate]. cbn [Js.bind]. intros [= <-].
  apply score_all_rows in Hs as [Hm Hf].
  assert (Hlen : length scored = length chunks).
  { rewrite <- Hm. rewrite length_map. reflexivity. }
  split; [rewrite length_take; lia|].
  split; [rewrite length_take, stable_sort_length; lia|].
  split.
  - intros cs H. apply in_take, in_stable_sort in H. split.
    + rewrite <- Hm. apply in_map. exact H.
    + rewrite List.Forall_forall in Hf. auto.
  - pose proof (stable_sort_descending snd scored) as Hd. unfold descending in *.
    revert Hd. generalize (stable_sort (by_score_desc snd) scored). intros l Hd.
    assert (Hgen : forall n, StronglySorted (fun a b : Row * Q => (b.2 <= a.2)%Q) (take n l)).
    { induction Hd as [|x l Hl IHl Hx]; intros [|n]; simpl; try constructor.
      - apply IHl.
      - apply List.Forall_forall. intros y Hy. apply in_take in Hy.
        rewrite List.Forall_forall in Hx. auto. }
    apply Hgen.
Qed.

End Retrieval.

(** C4 in the handler. With seven chunks of the user in the store, the
    context of the generation prompt is built from all seven rows of the
    vector search, and the response lists all seven; [rerank], applied to the
    same rows, keeps six. *)
Theorem generation_context_not_reranked :
  exists res scorer top,
    Chat.run (E := Sample.env) Sample.store 1 (lit "What is in my documents?") = Ok res
    /\ List.map Chat.r_id (Chat.finalRows res) = [101; 102; 103; 104; 105; 106; 107]%nat
    /\ Chat.prompt res
       = Chat.generationPrompt
           (join [NL; NL]
              (List.map lit ["one"; "two"; "three"; "four"; "five"; "six"; "seven"]%string))
           (lit "What is in my documents?")
    /\ length (Chat.sources (Chat.body res)) = 7%nat
    /\ reranker (Env := Sample.env) = Ok scorer
    /\ Chat.rerank scorer (lit "What is in my documents?") (Chat.finalRows res) = Ok top
    /\ List.map (fun cs => Chat.r_id (fst cs)) top = [103; 107; 104; 105; 101; 102]%nat.
Proof.
  eexists. eexists. eexists.
  split; [vm_compute; reflexivity|].
  split; [reflexivity|]. split; [reflexivity|]. split; [reflexivity|].
  split; [reflexivity|]. split; [vm_compute; reflexivity|]. reflexivity.
Qed.

Lemma retrieval_scoped_to_user_witness :
  let r := Chat.row_of (Sample.chunk 101 10 "one" [1; 0]%Q) (Sample.doc 10 1 "a.pdf") in
  Spec.documents_keyed Sample.store
  /\ In r (Chat.vectorQuery (E := Sample.env) Sample.store 1 [1; 0]%Q)
  /\ Spec.owned_by Sample.store 1 r
  /\ forall d, In d (documents Sample.store) -> d_id d = Chat.r_document_id r ->
               d_user_id d = 1%nat.
Proof.
  assert (Hkey : Spec.documents_keyed Sample.store).
  { unfold Spec.documents_keyed. simpl.
    constructor; [simpl; intros [H|[]]; discriminate|].
    constructor; [simpl; tauto|constructor]. }
  assert (Hin : In (Chat.row_of (Sample.chunk 101 10 "one" [1; 0]%Q)
                      (Sample.doc 10 1 "a.pdf"))
                   (Chat.vectorQuery (E := Sample.env) Sample.store 1 [1; 0]%Q)).
  { left. reflexivity. }
  split; [exact Hkey|]. split; [exact Hin|].
  exact (retrieval_scoped_to_user (E := Sample.env) _ _ _ _ Hkey Hin).
Defined.

(** ** Self-correction and faithfulness *)

(** ** Numbers *)

Section Numbers.

Import SpecFloat FloatOps.
















(** The sum of products of the code is the inner product. *)
Lemma dot_from_inner (a b : list number) (s : number) :
  Similarity.dot_from s a b
  = fold_left PrimFloat.add
      (List.map (fun i => Spec.component i a * Spec.component i b)%float
         (seq 0 (length a))) s.
Proof.
  revert b s. induction a as [|v a IH]; intros b s; [reflexivity|].
  cbn [Similarity.dot_from length seq List.map fold_left].
  rewrite IH. rewrite <- seq_shift, List.map_map.
  replace (Spec.component 0 (v :: a) * Spec.component 0 b)%float
    with (v * hd Num.nan b)%float by (destruct b; reflexivity).
  f_equal. apply List.map_ext. intros i.
  unfold Spec.component. destruct b as [|w b]; [destruct i|]; reflexivity.
Qed.

Lemma norm_magnitude (a : list number) : Similarity.norm a = Spec.magnitude a.
Proof.
  unfold Similarity.norm, Spec.magnitude, Spec.inner, Spec.sum. f_equal.
  rewrite <- dot_from_inner. generalize 0%float as s.
  induction a as [|v a IH]; intros s; [reflexivity|]. apply IH.
Qed.

Lemma cosine_regularised (a b : list number) :
  Similarity.cosine a b = Spec.regularised_cosine a b.
Proof.
  unfold Similarity.cosine, Spec.regularised_cosine. rewrite !norm_magnitude.
  unfold Similarity.dot. rewrite dot_from_inner. reflexivity.
Qed.

End Numbers.

(** ** Sorting numbers *)

Section SortingNumbers.
Context {A : Type}.







End SortingNumbers.

Section Scoring.
Context {E : Env}.

Lemma relevance_loop_sum (qEmb : list number) (cs : list Candidate) (sum : number)
  (count : nat) :
  SelfCorrection.relevance_loop qEmb cs sum count
  = (fold_left PrimFloat.add (Spec.similarities Spec.regularised_cosine qEmb cs) sum,
     (count + length (Spec.similarities Spec.regularised_cosine qEmb cs))%nat).
Proof.
  revert sum count. induction cs as [|c rest IH]; intros sum count.
  - cbn. rewrite Nat.add_0_r. reflexivity.
  - cbn [SelfCorrection.relevance_loop Spec.similarities flat_map].
    fold (Spec.similarities Spec.regularised_cosine qEmb rest).
    destruct (candidate_text c) as [|u text]; cbn [truthy negb app]; [apply IH|].
    unfold Spec.embedding. destruct (embedder (u :: text)) as [t|]; cbn [app]; [|apply IH].
    rewrite IH, cosine_regularised. cbn [fold_left length]. rewrite Nat.add_succ_r.
    reflexivity.
Qed.

(** C8. [assessContextRelevance] answers [needsCorrection = true] with the
    reason [no_context] when the question is missing or empty or there is no
    candidate. For a question that has an embedding and a list with at least
    one candidate, it answers without a reason, and it marks
    [needsCorrection] exactly when the mean, in double precision, of the
    regularised cosines (1e-8 added to the product of the lengths) of the
    question and the embedded candidates is below the threshold (whatever
    the threshold, 0.30 by default). For a question whose embedding fails it
    throws. *)
Theorem assess_relevance_spec (question : option jsstring)
  (contextChunks : option (list Candidate)) (threshold : number) :
  (present question = false \/ contextChunks = None \/ contextChunks = Some [] ->
   SelfCorrection.assessContextRelevance question contextChunks threshold
   = Ok {| SelfCorrection.needsCorrection := true;
           SelfCorrection.reason := Some SelfCorrection.no_context;
           SelfCorrection.avgSimilarity := None;
           SelfCorrection.threshold := None |})
  /\ (forall q cs qEmb,
        question = Some q -> contextChunks = Some cs -> q <> [] -> cs <> [] ->
        Spec.embedding q = Some qEmb ->
        exists r,
          SelfCorrection.assessContextRelevance question contextChunks threshold = Ok r
          /\ SelfCorrection.reason r = None
          /\ SelfCorrection.needsCorrection r
             = (Spec.mean (Spec.similarities Spec.regularised_cosine qEmb cs)
                <? threshold)%float)
  /\ (forall q cs e,
        question = Some q -> contextChunks = Some cs -> q <> [] -> cs <> [] ->
        embedder q = Throw e ->
        SelfCorrection.assessContextRelevance question contextChunks threshold = Throw e).
Proof.
  split; [|split].
  - intros [Hq|[->| ->]].
    + destruct question as [[|c q]|]; try discriminate; reflexivity.
    + destruct question as [[|c q]|]; reflexivity.
    + destruct question as [[|c q]|]; reflexivity.
  - intros q cs qEmb -> -> Hq Hcs Hemb.
    destruct q as [|u q]; [congruence|]. destruct cs as [|c cs]; [congruence|].
    unfold SelfCorrection.assessContextRelevance. unfold Spec.embedding in Hemb.
    destruct (embedder (u :: q)) as [qT|]; [|discriminate]. injection Hemb as <-.
    cbn [Js.bind]. rewrite relevance_loop_sum. cbn beta iota zeta.
    eexists. split; [reflexivity|]. split; [reflexivity|].
    cbn [SelfCorrection.needsCorrection]. f_equal.
    set (sims := Spec.similarities Spec.regularised_cosine _ (c :: cs)).
    cbn [Nat.add]. unfold Spec.mean, Spec.sum.
    destruct sims as [|x sims]; reflexivity.
  - intros q cs e -> -> Hq Hcs Hemb.
    destruct q as [|u q]; [congruence|]. destruct cs as [|c cs]; [congruence|].
    unfold SelfCorrection.assessContextRelevance. rewrite Hemb. reflexivity.
Qed.






End Scoring.

Lemma assess_relevance_spec_witness :
  SelfCorrection.assessContextRelevance (E := Sample.env) (Some (lit "q")) (Some [])
    SelfCorrection.default_threshold
  = Ok {| SelfCorrection.needsCorrection := true;
          SelfCorrection.reason := Some SelfCorrection.no_context;
          SelfCorrection.avgSimilarity := None;
          SelfCorrection.threshold := None |}
  /\ exists r,
       SelfCorrection.assessContextRelevance (E := Sample.env) (Some (lit "q"))
         (Some [CString (lit "x"); CString (lit "y")]) SelfCorrection.default_threshold
       = Ok r
       /\ SelfCorrection.reason r = None
       /\ SelfCorrection.needsCorrection r
          = (Spec.mean (Spec.similarities (E := Sample.env) Spec.regularised_cosine
                          [1; 0]%float [CString (lit "x"); CString (lit "y")])
             <? SelfCorrection.default_threshold)%float.
Proof.
  split.
  - apply (proj1 (assess_relevance_spec (E := Sample.env) (Some (lit "q")) (Some [])
                    SelfCorrection.default_threshold)).
    right. right. reflexivity.
  - apply (proj1 (proj2 (assess_relevance_spec (E := Sample.env) (Some (lit "q"))
                           (Some [CString (lit "x"); CString (lit "y")])
                           SelfCorrection.default_threshold)) (lit "q"));
      first [reflexivity | discriminate].
Defined.

(** C8, as stated, fails at the threshold. A question and one candidate
    whose vectors, of lengths 1 and 10, have the inner product 3: their
    cosine is 3/10, the threshold itself, so that the mean cosine is not
    below the threshold; the code divides by 10 + 1e-8 and marks
    [needsCorrection]. And for a question that the model has no vector for,
    the call throws and marks nothing. *)
Lemma assess_relevance_boundary :
  let q := [1; 0; 0; 0; 0]%float in
  let c := [3; 9; 3; 1; 0]%float in
  Spec.embedding (E := Fixture.vectors) (lit "q") = Some q
  /\ Spec.embedding (E := Fixture.vectors) (lit "three tenths") = Some c
  /\ Spec.inner q c = 3%float /\ Spec.magnitude q = 1%float /\ Spec.magnitude c = 10%float
  /\ Spec.cosine q c = SelfCorrection.default_threshold
  /\ (Spec.mean (Spec.similarities (E := Fixture.vectors) Spec.cosine q
                   [CString (lit "three tenths")])
      <? SelfCorrection.default_threshold)%float = false
  /\ (exists r,
       SelfCorrection.assessContextRelevance (E := Fixture.vectors) (Some (lit "q"))
         (Some [CString (lit "three tenths")]) SelfCorrection.default_threshold = Ok r
       /\ SelfCorrection.needsCorrection r = true
       /\ SelfCorrection.avgSimilarity r = Some (3 / (1 * 10 + 1e-8))%float)
  /\ SelfCorrection.assessContextRelevance (E := Sample.env) (Some (lit "A"))
       (Some [CString (lit "x")]) SelfCorrection.default_threshold
     = Throw (lit "embedding failed").
Proof.
  cbv zeta. repeat (split; [vm_compute; reflexivity|]).
  split; [|reflexivity].
  eexists. split; [vm_compute; reflexivity|]. split; reflexivity.
Qed.




(** ** Ingestion of one document *)

Section Ingestion.
Context {E : Env}.

Import Worker.

(** A chunk whose embedding throws ends the loop: the store and the console
    stay as they are, and no later chunk is looked at. *)
Lemma embed_and_insert_throw (documentId : nat) (chunk : ChunkMeta)
  (rest : list ChunkMeta) (s : Store) (log : list LogEvent) (t e : jsstring) :
  chunk_text chunk = Some t -> embedder t = Throw e ->
  embed_and_insert documentId (chunk :: rest) s log = (s, log, Throw e).
Proof. intros Ht He. simpl. rewrite Ht. simpl. rewrite He. reflexivity. Qed.

End Ingestion.

(** C3 in the worker. A document of two paragraphs, "A" and "B", with a
    model that has no vector for "A": the loop stops at "A", the chunk "B" is
    neither embedded nor inserted, and one processing error is logged for the
    document. The first worker of the repository, on the same text, logs the
    embedding error and inserts "B". *)
Theorem embedding_failure_aborts_document :
  let buffer := Sample.bytes_of "A

B" in
  embedder (Env := Sample.env) (lit "B") = Ok [1; 0]%Q
  /\ Worker.processPdfBufferAndInsert (E := Sample.env) buffer 7 Sample.empty_store
     = (Sample.empty_store,
        [Worker.ChunksCreated 2; Worker.ProcessingError (lit "embedding failed")])
  /\ exists s',
       Worker.worker_v1 (E := Sample.env) (Sample.text_of_bytes buffer) 7 Sample.empty_store
       = (s', [Worker.EmbeddingError (lit "embedding failed"); Worker.Finished])
       /\ List.map c_chunk_text (Db.chunks s') = [lit "B"].
Proof.
  cbv zeta. split; [reflexivity|]. split; [reflexivity|].
  eexists. split; reflexivity.
Qed.

(** ** Deleting a document *)

Section Deleting.
Context {E : Env}.

Import Docs.

Lemma filter_none {A : Type} (f : A -> bool) (l : list A) :
  (forall x, In x l -> f x = false) -> List.filter f l = [].
Proof.
  induction l as [|x l IH]; intros H; simpl; [reflexivity|].
  rewrite (H x (or_introl eq_refl)). apply IH. intros y Hy. apply H. right. exact Hy.
Qed.

Lemma owned_head (s : Store) (k u : nat) (d : Document) :
  Spec.documents_keyed s -> In d (documents s) -> d_id d = k -> d_user_id d = u ->
  exists rest, documents_owned k u s = d :: rest.
Proof.
  intros Hkey Hd Hk Hu. unfold documents_owned.
  destruct (List.filter _ (documents s)) as [|d0 rest] eqn:Hf.
  - assert (Hin : In d (List.filter
      (fun d => Nat.eqb (d_id d) k && Nat.eqb (d_user_id d) u) (documents s))).
    { apply List.filter_In. split; [exact Hd|].
      rewrite Hk, Hu, !Nat.eqb_refl. reflexivity. }
    rewrite Hf in Hin. destruct Hin.
  - exists rest. f_equal.
    assert (Hin : In d0 (List.filter
      (fun d => Nat.eqb (d_id d) k && Nat.eqb (d_user_id d) u) (documents s))).
    { rewrite Hf. left. reflexivity. }
    apply List.filter_In in Hin as [Hin Hb]. apply andb_prop in Hb as [Hb _].
    apply Nat.eqb_eq in Hb.
    apply (keyed_document_unique (documents s)); try assumption. congruence.
Qed.

(** Deleting, when the store answers. A delete request for a document that
    is not in the store, or that another user owns, changes nothing in the
    store; when the lookup does not throw, the only call is the lookup and
    the answer is 404. For a document of the requester, in a store keyed by
    document identifier and with every call succeeding, the answer is
    success; the calls are the lookup, the deletion of the chunks, then the
    deletion of the document row, then the removal of the stored object when
    the row names one; afterwards no chunk of the document, no row with its
    identifier and no object at its path is left. The identifier is not 0,
    which the route reads as a missing one. *)
Theorem delete_document_spec (s : Store) (u : User) (k : nat) :
  k <> 0%nat ->
  let req := {| method := DELETE; user := Some u; documentId := Some k |} in
  ((forall d, In d (documents s) -> d_id d = k -> d_user_id d <> u_id u) ->
   fst (fst (handler s req)) = s
   /\ ((forall e, store_fault SelectOwned <> Exception e) ->
       handler s req = (s, [SelectOwned], Error 404 (lit "Document not found"))))
  /\ (forall d,
        Spec.documents_keyed s -> In d (documents s) ->
        d_id d = k -> d_user_id d = u_id u ->
        (forall op, store_fault op = NoFault) ->
        exists s',
          handler s req
          = (s',
             [SelectOwned; DeleteChunks; DeleteDocument]
             ++ match d_storage_path d with
                | Some (_ :: _) => [RemoveObject]
                | _ => []
                end,
             Success)
          /\ (forall c, In c (Db.chunks s') -> c_document_id c <> k)
          /\ (forall d', In d' (documents s') -> d_id d' <> k)
          /\ (forall p, d_storage_path d = Some p -> p <> [] -> bucket s' !! p = None)).
Proof.
  intros Hk0. cbv zeta. unfold handler. cbn [user method documentId].
  destruct k as [|k']; [congruence|]. remember (S k') as k eqn:Ek. clear Ek Hk0 k'.
  unfold delete_document.
  split.
  - intros Hnot.
    assert (Hnone : documents_owned k (u_id u) s = []).
    { apply filter_none. intros d Hd.
      destruct (Nat.eqb_spec (d_id d) k) as [Hk|]; [|reflexivity].
      destruct (Nat.eqb_spec (d_user_id d) (u_id u)) as [Hu|]; [|reflexivity].
      exfalso. exact (Hnot d Hd Hk Hu). }
    rewrite Hnone. cbn [take].
    destruct (store_fault SelectOwned) as [| |e]; split; try reflexivity.
    intros H. exfalso. exact (H e eq_refl).
  - intros d Hkey Hd Hk Hu Hok.
    destruct (owned_head s k (u_id u) d Hkey Hd Hk Hu) as (rest & Hown).
    rewrite Hown. cbn [take]. unfold call. rewrite !Hok. cbn [fst snd app].
    assert (Hchunks : forall s0 c,
      In c (Db.chunks (Db.delete_chunks_of k s0)) -> c_document_id c <> k).
    { intros s0 c Hc. simpl in Hc. apply List.filter_In in Hc as [_ Hc].
      intros Heq. rewrite Heq, Nat.eqb_refl in Hc. discriminate. }
    assert (Hdocs : forall s0 d',
      In d' (documents (Db.delete_document k s0)) -> d_id d' <> k).
    { intros s0 d' Hd'. simpl in Hd'. apply List.filter_In in Hd' as [_ Hd'].
      intros Heq. rewrite Heq, Nat.eqb_refl in Hd'. discriminate. }
    destruct (d_storage_path d) as [[|c p]|] eqn:Hp.
    + eexists. split; [reflexivity|]. split; [apply Hchunks|]. split; [apply Hdocs|].
      intros p' [= <-] Hne. congruence.
    + eexists. split; [reflexivity|]. split; [apply Hchunks|]. split; [apply Hdocs|].
      intros p' [= <-] _. simpl. apply lookup_delete_eq.
    + eexists. split; [reflexivity|]. split; [apply Hchunks|]. split; [apply Hdocs|].
      intros p' [=].
Qed.

End Deleting.

Lemma delete_document_spec_witness :
  let stranger := {| Docs.method := DELETE; Docs.user := Some Sample.bob;
                     Docs.documentId := Some 10%nat |} in
  let owner := {| Docs.method := DELETE; Docs.user := Some Sample.alice;
                  Docs.documentId := Some 10%nat |} in
  Docs.handler (E := Sample.env) Sample.store stranger
  = (Sample.store, [SelectOwned], Docs.Error 404 (lit "Document not found"))
  /\ exists s',
       Docs.handler (E := Sample.env) Sample.store owner
       = (s', [SelectOwned; DeleteChunks; DeleteDocument; RemoveObject], Docs.Success)
       /\ (forall c, In c (Db.chunks s') -> c_document_id c <> 10%nat)
       /\ (forall d', In d' (documents s') -> d_id d' <> 10%nat)
       /\ bucket s' !! lit "uploads/a.pdf" = None.
Proof.
  cbv zeta. split.
  - apply (proj1 (delete_document_spec (E := Sample.env) Sample.store Sample.bob 10
                    ltac:(discriminate))).
    + intros d [<-|[<-|[]]]; simpl; intros; discriminate.
    + intros e; discriminate.
  - destruct (proj2 (delete_document_spec (E := Sample.env) Sample.store Sample.alice 10
                       ltac:(discriminate))
                (Sample.doc 10 1 "a.pdf")) as (s' & Hh & Hc & Hd & Hb).
    + unfold Spec.documents_keyed. simpl.
      constructor; [simpl; intros [H|[]]; discriminate|].
      constructor; [simpl; tauto|constructor].
    + left. reflexivity.
    + reflexivity.
    + reflexivity.
    + reflexivity.
    + exists s'. split; [exact Hh|]. split; [exact Hc|]. split; [exact Hd|].
      apply Hb; [reflexivity|discriminate].
Defined.


(** ** Uploading the same bytes again *)

Section Uploading.
Context {E : Env}.

Import Upload.

Lemma documents_at_ext (p : jsstring) (u : nat) (s s' : Store) :
  documents s = documents s' -> documents_at p u s = documents_at p u s'.
Proof. unfold documents_at. intros ->. reflexivity. Qed.

Lemma storage_upload_path (path : jsstring) (content : list Byte.byte) (s s1 : Store)
  (data error : option jsstring) :
  storage_upload path content s = (s1, data, error) ->
  documents s1 = documents s /\ (data = None \/ data = Some path).
Proof.
  unfold storage_upload. destruct (storage_error path).
  - intros [= <- <- _]. auto.
  - destruct (bucket s !! path); intros [= <- <- _]; auto.
Qed.

Lemma take_one_head {A : Type} (l : list A) (x : A) : head l = Some x -> take 1 l = [x].
Proof. destruct l; simpl; [discriminate|]. intros [= ->]. reflexivity. Qed.

(** The body of the loop, run again on the same bytes. *)
Lemma upload_file_again (s s1 : Store) (user_id : nat) (f1 f2 : UploadFile)
  (r1 : FileResult) (t1 : option Inline) (k : nat) :
  store_fault SelectExisting = NoFault ->
  fileContent f1 = fileContent f2 ->
  extension (origName f1) = extension (origName f2) ->
  upload_file user_id f1 s = (s1, r1, t1) ->
  documentId r1 = Some k ->
  upload_file user_id f2 s1
  = (s1,
     {| fileName := Some (origName f2); documentId := Some k;
        storagePath := Some (lit "uploads/" ++ sha256hex (fileContent f2)
                             ++ extension (origName f2));
        queued := Some false; note := Some (lit "Already uploaded by you");
        error := None |}, None).
Proof.
  intros Hsel Hbytes Hext Hup Hk.
  set (path := lit "uploads/" ++ sha256hex (fileContent f2) ++ extension (origName f2)).
  assert (Hfound : exists d rest, documents_at path user_id s1 = d :: rest /\ d_id d = k).
  { unfold upload_file in Hup. rewrite Hsel, Hbytes, Hext in Hup. fold path in Hup.
    destruct (take 1 (documents_at path user_id s)) as [|d0 rest0] eqn:Hex.
    - destruct (storage_upload path (fileContent f2) s) as [[s' data] err] eqn:Hst.
      apply storage_upload_path in Hst as [Hdocs Hdata].
      destruct (match err with
                | Some msg =>
                    if negb (includes (toLowerCase msg) (lit "already exists"))
                    then Some msg else None
                | None => None
                end); [injection Hup as <- <- <-; discriminate|].
      assert (Hfinal : match data with
                       | Some ((_ :: _) as p) => p
                       | _ => path
                       end = path).
      { destruct Hdata as [->| ->]; reflexivity. }
      rewrite Hfinal in Hup.
      destruct (document_insert_error _); [injection Hup as <- <- <-; discriminate|].
      set (row := fun k0 : nat =>
             {| d_id := k0; d_user_id := user_id; d_file_name := origName f1;
                d_storage_path := Some path;
                d_file_hash := Some (sha256hex (fileContent f2)) |}) in *.
      destruct (match store_fault FetchInserted with
                | NoFault => head (documents_at path user_id (insert_document row s'))
                | _ => None
                end) as [document|] eqn:Hdoc;
        [|injection Hup as <- <- <-; discriminate].
      assert (Hhead : head (documents_at path user_id (insert_document row s'))
                      = Some document).
      { destruct (store_fault FetchInserted); [exact Hdoc|discriminate..]. }
      destruct (documents_at path user_id (insert_document row s')) as [|d rest] eqn:Hat;
        [discriminate|]. injection Hhead as ->.
      destruct queue_ready.
      + destruct (queue_add_error _); injection Hup as <- <- <-; [discriminate|].
        injection Hk as <-. exists document, rest. split; [|reflexivity].
        rewrite <- Hat. apply documents_at_ext. reflexivity.
      + injection Hup as <- <- <-. injection Hk as <-.
        exists document, rest. split; [exact Hat|reflexivity].
    - injection Hup as <- <- <-. injection Hk as <-.
      destruct (documents_at path user_id s) as [|d rest]; [discriminate|].
      simpl in Hex. injection Hex as <- _. exists d, rest. auto. }
  destruct Hfound as (d & rest & Hat & Hd).
  unfold upload_file. rewrite Hsel. fold path. rewrite Hat. simpl. rewrite Hd.
  reflexivity.
Qed.

(** Uploading the same bytes again under a name with the same extension. The
    comparison is on the storage path, which is made of the digest of the
    bytes and of the extension of the file name. When an upload by a user
    has produced a document identifier, a second upload by the same user of
    the same bytes under a name with the same extension, the lookup
    answering, returns that identifier with the note of the short-circuit
    and leaves the whole store as it was: no document, no chunk, no job and
    no object is added. *)
Theorem reupload_is_idempotent (s s1 : Store) (u : User) (f1 f2 : UploadFile)
  (r1 : FileResult) (k : nat) :
  store_fault SelectExisting = NoFault ->
  fileContent f1 = fileContent f2 ->
  extension (origName f1) = extension (origName f2) ->
  handler s {| method := POST; user := Some u; form := Ok (Some [f1]) |}
  = (s1, Files [r1]) ->
  documentId r1 = Some k ->
  handler s1 {| method := POST; user := Some u; form := Ok (Some [f2]) |}
  = (s1,
     Files
       [ {| fileName := Some (origName f2); documentId := Some k;
            storagePath := Some (lit "uploads/" ++ sha256hex (fileContent f2)
                                 ++ extension (origName f2));
            queued := Some false; note := Some (lit "Already uploaded by you");
            error := None |} ]).
Proof.
  intros Hsel Hbytes Hext Hup Hk. unfold handler, serve in *.
  cbn [method user form] in *. cbn [upload_files] in *.
  destruct (upload_file (u_id u) f1 s) as [[s1' r1'] t1'] eqn:Hfirst.
  cbn [fst] in Hup. injection Hup as <- <-.
  rewrite (upload_file_again s s1' (u_id u) f1 f2 r1' t1' k Hsel Hbytes Hext Hfirst Hk).
  reflexivity.
Qed.

End Uploading.

Lemma reupload_is_idempotent_witness :
  let first := Sample.upload "report.pdf" "same bytes" in
  let again := Sample.upload "copy.pdf" "same bytes" in
  exists s1 r1,
    Upload.handler (E := Sample.env) Sample.empty_store
      (Sample.upload_request Sample.alice first) = (s1, Upload.Files [r1])
    /\ Upload.documentId r1 = Some 1%nat
    /\ Upload.handler (E := Sample.env) s1 (Sample.upload_request Sample.alice again)
       = (s1,
          Upload.Files
            [ {| Upload.fileName := Some (lit "copy.pdf");
                 Upload.documentId := Some 1%nat;
                 Upload.storagePath := Some (lit "uploads/73616d65206279746573.pdf");
                 Upload.queued := Some false;
                 Upload.note := Some (lit "Already uploaded by you");
                 Upload.error := None |} ]).
Proof.
  cbv zeta. eexists. eexists.
  split; [reflexivity|]. split; [reflexivity|].
  exact (reupload_is_idempotent (E := Sample.env) Sample.empty_store _ Sample.alice
           (Sample.upload "report.pdf" "same bytes")
           (Sample.upload "copy.pdf" "same bytes") _ 1%nat
           eq_refl eq_refl eq_refl eq_refl eq_refl).
Defined.

(** C2 fails: the lookup of the route compares the storage path, which ends
    with the extension of the file name, and not the digest that it has
    computed and that it writes to [file_hash]. The same bytes, uploaded by
    the same user as report.pdf and then as report.PDF, make a second
    document with the same digest and a second job. *)
Theorem reupload_other_extension_duplicates :
  let first := Sample.upload "report.pdf" "same bytes" in
  let again := Sample.upload "report.PDF" "same bytes" in
  Upload.fileContent first = Upload.fileContent again
  /\ exists s1 r1 s2 r2,
       Upload.handler (E := Sample.env) Sample.empty_store
         (Sample.upload_request Sample.alice first) = (s1, Upload.Files [r1])
       /\ Upload.handler (E := Sample.env) s1
            (Sample.upload_request Sample.alice again) = (s2, Upload.Files [r2])
       /\ Upload.documentId r1 = Some 1%nat
       /\ Upload.documentId r2 = Some 2%nat
       /\ Upload.note r2 = None
       /\ List.map d_user_id (documents s2) = [1; 1]%nat
       /\ List.map d_file_hash (documents s2)
          = [Some (lit "73616d65206279746573"); Some (lit "73616d65206279746573")]
       /\ List.map j_documentId (jobs s2) = [1; 2]%nat.
Proof.
  cbv zeta. split; [reflexivity|].
  eexists. eexists. eexists. eexists.
  split; [reflexivity|]. split; [reflexivity|]. repeat split.
Qed.

(** ** More on the chunking engine *)

Section ChunkingMore.

Import Worker.

Lemma map_imap {A B C : Type} (f : nat -> A -> B) (g : B -> C) (g' : A -> C)
  (l : list A) :
  (forall i a, g (f i a) = g' a) -> List.map g (imap f l) = List.map g' l.
Proof.
  revert f. induction l as [|a l IH]; intros f H; [reflexivity|].
  rewrite imap_cons. simpl. rewrite H. f_equal. apply IH. intros i b. apply H.
Qed.

Lemma map_imap_index {A B : Type} (f : nat -> A -> B) (ix : B -> option nat)
  (l : list A) (k : nat) :
  (forall i a, ix (f i a) = Some (k + i)%nat) ->
  List.map ix (imap f l) = List.map Some (seq k (length l)).
Proof.
  revert f k. induction l as [|a l IH]; intros f k H; [reflexivity|].
  rewrite imap_cons. simpl. rewrite H, Nat.add_0_r. f_equal.
  apply IH. intros i b. unfold compose. rewrite H. f_equal. lia.
Qed.

Lemma Forall_imap {A B : Type} (f : nat -> A -> B) (P : A -> Prop) (Q : B -> Prop)
  (l : list A) :
  (forall i a, P a -> Q (f i a)) -> Forall P l -> Forall Q (imap f l).
Proof.
  revert f. induction l as [|a l IH]; intros f H Hl; [constructor|].
  inversion Hl; subst. rewrite imap_cons. constructor; [auto|].
  apply IH; [|assumption]. intros i b. apply H.
Qed.

Lemma paragraph_loop_spec (text : jsstring) (parts : list jsstring)
  (cursor : Z) (index : nat) :
  let l := paragraph_loop text parts cursor index in
  View.texts l = List.filter truthy (List.map cleanText parts)
  /\ List.map chunk_index l = List.map Some (seq index (length l))
  /\ Forall (View.well_formed paragraph) l.
Proof.
  revert cursor index. induction parts as [|part rest IH]; intros cursor index.
  - repeat split; constructor.
  - cbn [paragraph_loop List.map List.filter].
    destruct (truthy (cleanText part)) eqn:Ht; cbn [negb].
    + destruct (IH (indexOf text (cleanText part) cursor + len (cleanText part))
                  (S index)) as (H1 & H2 & H3).
      cbv zeta in *. repeat split.
      * cbn [View.texts List.map chunk_text default]. f_equal. exact H1.
      * cbn [List.map chunk_index length seq]. f_equal. exact H2.
      * constructor; [|exact H3]. eexists. eexists. cbn. repeat split.
    + apply IH.
Qed.

(** The paragraph strategy. Its records are, in order, the cleaned texts of
    the blank-line-delimited segments that are not empty once cleaned; their
    indices count from 0 without a gap, their type is [paragraph], and the
    end offset of each is its start offset plus the length of its text. *)
Theorem paragraph_chunks (text : jsstring) :
  let l := paragraphChunkWithMeta text in
  View.texts l = List.filter truthy (List.map cleanText (split_nn text))
  /\ List.map chunk_index l = List.map Some (seq 0 (length l))
  /\ Forall (View.well_formed paragraph) l.
Proof. apply paragraph_loop_spec. Qed.

Lemma startsWith_take (p s : jsstring) :
  startsWith p s = true -> take (length p) s = p.
Proof.
  revert s. induction p as [|a p IH]; intros s; [reflexivity|].
  destruct s as [|b s]; simpl; [discriminate|].
  intros H. apply andb_prop in H as [Hab H]. apply N.eqb_eq in Hab as ->.
  f_equal. apply IH, H.
Qed.

Lemma indexOf_at_found (p s : jsstring) (k j : Z) :
  indexOf_at p s k = j -> j <> -1 -> 0 <= k ->
  k <= j /\ take (length p) (drop (Z.to_nat (j - k)) s) = p.
Proof.
  revert k. induction s as [|c r IH]; intros k; simpl.
  - destruct p as [|a p]; simpl.
    + intros <- _ Hk. split; [lia|]. rewrite Z.sub_diag. reflexivity.
    + intros <- H. congruence.
  - destruct (startsWith p (c :: r)) eqn:Hs.
    + intros <- _ Hk. split; [lia|]. rewrite Z.sub_diag. simpl drop.
      apply startsWith_take, Hs.
    + intros Hj Hne Hk. destruct (IH (k + 1) Hj Hne) as [Hle Ht]; [lia|].
      split; [lia|]. replace (Z.to_nat (j - k)) with (S (Z.to_nat (j - (k + 1)))) by lia.
      exact Ht.
Qed.

Lemma indexOf_found (text p : jsstring) (pos j : Z) :
  indexOf text p pos = j -> j <> -1 ->
  0 <= j /\ Z.min (Z.max pos 0) (len text) <= j
  /\ take (length p) (drop (Z.to_nat j) text) = p.
Proof.
  unfold indexOf. intros Hj Hne.
  set (k := Z.min (Z.max pos 0) (len text)) in *.
  assert (Hk : 0 <= k) by (unfold k, len; lia).
  destruct (indexOf_at_found _ _ _ _ Hj Hne Hk) as [Hle Ht].
  split; [lia|]. split; [exact Hle|].
  rewrite drop_drop in Ht. replace (Z.to_nat j) with (Z.to_nat k + Z.to_nat (j - k))%nat by lia.
  exact Ht.
Qed.

Lemma paragraph_loop_offsets (text : jsstring) (parts : list jsstring)
  (cursor : Z) (index : nat) :
  Forall (fun c => exists t a,
            chunk_text c = Some t /\ char_start c = Some a
            /\ (a = -1 \/ (0 <= a /\ View.slice text a (a + len t) = t)))
    (paragraph_loop text parts cursor index).
Proof.
  revert cursor index. induction parts as [|part rest IH]; intros cursor index.
  - constructor.
  - cbn [paragraph_loop]. destruct (truthy (cleanText part)); cbn [negb]; [|apply IH].
    constructor; [|apply IH].
    eexists. eexists. cbn [chunk_text char_start].
    split; [reflexivity|]. split; [reflexivity|].
    destruct (Z.eq_dec (indexOf text (cleanText part) cursor) (-1)) as [He|Hne];
      [left; exact He|right].
    destruct (indexOf_found _ _ _ _ eq_refl Hne) as (H0 & _ & Ht).
    split; [exact H0|]. unfold View.slice.
    replace (Z.to_nat (indexOf text (cleanText part) cursor + len (cleanText part)
                       - indexOf text (cleanText part) cursor))
      with (length (cleanText part)) by (unfold len; lia).
    exact Ht.
Qed.

(** The offsets of the paragraph strategy. The start offset of a record is
    -1 when its cleaned text is not found in the document from the cursor on
    (cleaning changed the segment); otherwise the document, cut from the
    start offset to the end offset, is the text of the record. *)
Theorem paragraph_offsets_locate_text (text : jsstring) :
  Forall (fun c => exists t a,
            chunk_text c = Some t /\ char_start c = Some a
            /\ (a = -1 \/ (0 <= a /\ View.slice text a (a + len t) = t)))
    (paragraphChunkWithMeta text).
Proof. apply paragraph_loop_offsets. Qed.

End ChunkingMore.

Section RecursiveAndHybrid.

Import Worker.

Lemma sorted_snoc (l : list Z) (x : Z) :
  StronglySorted Z.le l -> Forall (fun a => a <= x) l -> StronglySorted Z.le (l ++ [x]).
Proof.
  induction 1 as [|a l Hl IH Ha]; intros Hx; simpl.
  - repeat constructor.
  - inversion Hx; subst. constructor; [auto|].
    apply List.Forall_app. split; [exact Ha|]. constructor; [assumption|constructor].
Qed.

Lemma recursive_step_offsets (maxChars overlap : Z) (st : RecState) (part : jsstring) :
  View.recursive_offsets_ok st ->
  View.recursive_offsets_ok (recursive_step maxChars overlap st part).
Proof.
  intros (H0 & Hwf & Hs & Hb). unfold recursive_step.
  destruct (len (current st ++ part) <=? maxChars); [repeat split; assumption|].
  assert (Hle : start st <= start st + Z.max 0 (len (current st) - overlap)) by lia.
  unfold View.recursive_offsets_ok. cbn [start Worker.chunks].
  destruct (truthy (cleanText (current st))).
  - split; [lia|]. unfold View.starts in *. rewrite List.map_app. cbn [List.map].
    split; [|split].
    + apply List.Forall_app. split; [exact Hwf|]. constructor; [|constructor].
      eexists. eexists. cbn. repeat split.
    + apply sorted_snoc; [exact Hs|].
      eapply Forall_impl; [exact Hb|]. cbn. intros a Ha. lia.
    + apply List.Forall_app. split.
      * eapply Forall_impl; [exact Hb|]. cbn. intros a Ha. lia.
      * constructor; [cbn; lia|constructor].
  - split; [lia|]. split; [exact Hwf|]. split; [exact Hs|].
    eapply Forall_impl; [exact Hb|]. cbn. intros a Ha. lia.
Qed.

Lemma recursive_loop_offsets (maxChars overlap : Z) (parts : list jsstring)
  (st : RecState) :
  View.recursive_offsets_ok st ->
  View.recursive_offsets_ok (fold_left (recursive_step maxChars overlap) parts st).
Proof.
  revert st. induction parts as [|part parts IH]; intros st Hst; simpl; [exact Hst|].
  apply IH, recursive_step_offsets, Hst.
Qed.

Lemma recursive_flush_offsets (st : RecState) :
  View.recursive_offsets_ok st ->
  Forall (View.well_formed recursive) (recursive_flush st)
  /\ StronglySorted Z.le (View.starts (recursive_flush st))
  /\ Forall (fun a => 0 <= a) (View.starts (recursive_flush st)).
Proof.
  intros (H0 & Hwf & Hs & Hb). unfold recursive_flush.
  destruct (truthy (trim (current st))).
  - unfold View.starts in *. rewrite List.map_app. cbn [List.map]. split; [|split].
    + apply List.Forall_app. split; [exact Hwf|]. constructor; [|constructor].
      eexists. eexists. cbn. repeat split.
    + apply sorted_snoc; [exact Hs|].
      eapply Forall_impl; [exact Hb|]. cbn. intros a Ha. lia.
    + apply List.Forall_app. split.
      * eapply Forall_impl; [exact Hb|]. cbn. intros a Ha. lia.
      * constructor; [cbn; lia|constructor].
  - split; [exact Hwf|]. split; [exact Hs|].
    eapply Forall_impl; [exact Hb|]. cbn. intros a Ha. lia.
Qed.

Lemma recursive_records_ok (text : jsstring) (maxChars overlap : Z) :
  let l := recursiveChunkWithMeta text maxChars overlap in
  List.map chunk_index l = List.map Some (seq 0 (length l))
  /\ Forall (View.well_formed recursive) l
  /\ Forall (fun a => 0 <= a) (View.starts l)
  /\ StronglySorted Z.le (View.starts l).
Proof.
  cbv zeta. unfold recursiveChunkWithMeta.
  set (st := fold_left (recursive_step maxChars overlap) (split_nn text)
               {| current := []; start := 0; Worker.chunks := [] |}).
  assert (Hst : View.recursive_offsets_ok st).
  { apply recursive_loop_offsets. repeat split; try constructor. cbn. lia. }
  destruct (recursive_flush_offsets st Hst) as (Hwf & Hs & Hb).
  assert (Hstarts : View.starts (imap with_index (recursive_flush st))
                    = View.starts (recursive_flush st)).
  { unfold View.starts. apply map_imap. reflexivity. }
  split; [|split; [|split]].
  - rewrite length_imap. apply map_imap_index. reflexivity.
  - eapply Forall_imap; [|exact Hwf]. intros i c (t & a & H1 & H2 & H3 & H4).
    exists t, a. cbn. auto.
  - rewrite Hstarts. exact Hb.
  - rewrite Hstarts. exact Hs.
Qed.

(** The recursive strategy, for every text, budget and overlap. The indices
    of its records count from 0 without a gap; each record has a text, the
    type [recursive] and an end offset that is its start offset plus the
    length of its text; the start offsets are not negative and never go down
    from one record to the next. *)
Theorem recursive_chunks (text : jsstring) (maxChars overlap : Z) :
  let l := recursiveChunkWithMeta text maxChars overlap in
  List.map chunk_index l = List.map Some (seq 0 (length l))
  /\ Forall (View.well_formed recursive) l
  /\ Forall (fun a => 0 <= a) (View.starts l)
  /\ StronglySorted Z.le (View.starts l).
Proof. apply recursive_records_ok. Qed.

Lemma join_cons_nonempty (sep x : jsstring) (l : list jsstring) :
  l <> [] -> join sep (x :: l) = x ++ sep ++ join sep l.
Proof. destruct l; [congruence|reflexivity]. Qed.

Lemma join_merge (sep a b : jsstring) (l1 l2 : list jsstring) :
  join sep (l1 ++ (a ++ sep ++ b) :: l2) = join sep (l1 ++ a :: b :: l2).
Proof.
  induction l1 as [|x l1 IH].
  - cbn [app]. rewrite (join_cons_nonempty sep a (b :: l2)) by discriminate.
    destruct l2 as [|z l2].
    + reflexivity.
    + rewrite !join_cons_nonempty by discriminate.
      rewrite <- !List.app_assoc. reflexivity.
  - cbn [app]. rewrite !join_cons_nonempty by (destruct l1; discriminate).
    rewrite IH. reflexivity.
Qed.

Lemma merge_fold (M : Z) (rest merged : list ChunkMeta) (cur : ChunkMeta) :
  1800 <= M ->
  Forall (fun c => is_Some (chunk_text c)) (merged ++ cur :: rest) ->
  exists merged' cur',
    fold_left merge_step rest (Ok (merged, Some cur)) = Ok (merged', Some cur')
    /\ join [SP] (View.texts (merged' ++ [cur']))
       = join [SP] (View.texts (merged ++ cur :: rest))
    /\ (Forall (fun t => len t <= M) (View.texts (merged ++ cur :: rest)) ->
        Forall (fun t => len t <= M) (View.texts (merged' ++ [cur']))).
Proof.
  intros HM. revert merged cur. induction rest as [|next rest IH]; intros merged cur Ht.
  - exists merged, cur. repeat split; auto.
  - assert (Hcur : is_Some (chunk_text cur)).
    { rewrite List.Forall_forall in Ht. apply Ht. apply in_or_app. right. left. reflexivity. }
    assert (Hnext : is_Some (chunk_text next)).
    { rewrite List.Forall_forall in Ht. apply Ht. apply in_or_app. right. right. left.
      reflexivity. }
    destruct Hcur as [ct Hct], Hnext as [nt Hnt].
    cbn [fold_left]. unfold merge_step at 2. cbn [Js.bind]. unfold text_of.
    rewrite Hct, Hnt. cbn [Js.bind].
    destruct (Z.ltb_spec (len ct + len nt) 1800) as [Hlt|Hge].
    + set (cur2 := {| chunk_text := Some (ct ++ [SP] ++ nt);
                      chunk_index := chunk_index cur; chunk_type := Some hybrid;
                      char_start := char_start cur; char_end := char_end next |}).
      destruct (IH merged cur2) as (merged' & cur' & Hf & Hj & Hb).
      { apply List.Forall_app in Ht as [Hm Hr]. inversion Hr as [|? ? _ Hr']; subst.
        inversion Hr' as [|? ? _ Hr'']; subst.
        apply List.Forall_app. split; [exact Hm|]. constructor; [|exact Hr''].
        eexists. reflexivity. }
      exists merged', cur'. split; [exact Hf|].
      assert (Htx : View.texts (merged ++ cur2 :: rest)
                    = View.texts merged ++ (ct ++ [SP] ++ nt) :: View.texts rest).
      { unfold View.texts. rewrite List.map_app. reflexivity. }
      assert (Htx' : View.texts (merged ++ cur :: next :: rest)
                     = View.texts merged ++ ct :: nt :: View.texts rest).
      { unfold View.texts. rewrite List.map_app. cbn [List.map]. rewrite Hct, Hnt.
        reflexivity. }
      split.
      * rewrite Hj, Htx, Htx'. apply join_merge.
      * intros Hall. apply Hb. rewrite Htx. rewrite Htx' in Hall.
        apply List.Forall_app in Hall as [Hm Hr]. inversion Hr as [|? ? _ Hr']; subst.
        inversion Hr' as [|? ? _ Hr'']; subst.
        apply List.Forall_app. split; [exact Hm|]. constructor; [|exact Hr''].
        unfold len in *. rewrite !length_app. cbn [length]. lia.
    + destruct (IH (merged ++ [cur]) next) as (merged' & cur' & Hf & Hj & Hb).
      { rewrite <- List.app_assoc. exact Ht. }
      rewrite <- List.app_assoc in Hj, Hb. exists merged', cur'. auto.
Qed.

(** The shape of a result of [hybridChunkWithMeta]: the merged list, with
    the record that was current at the end, mapped by the final [map]. *)
Lemma hybrid_inversion (text : jsstring) :
  exists items,
    hybridChunkWithMeta text = Ok (imap View.hybrid_record items)
    /\ items <> []
    /\ join [SP] (List.map View.item_text items)
       = join [SP] (View.texts (recursiveChunkWithMeta text 1500 200))
    /\ (forall M, 1800 <= M ->
          Forall (fun t => len t <= M) (View.texts (recursiveChunkWithMeta text 1500 200)) ->
          Forall (fun t => len t <= M) (List.map View.item_text items)).
Proof.
  unfold hybridChunkWithMeta.
  pose proof (recursive_records_ok text 1500 200) as (_ & Hwf & _).
  destruct (recursiveChunkWithMeta text 1500 200) as [|b0 rest].
  - exists [None]. split; [reflexivity|]. split; [discriminate|].
    split; [reflexivity|]. intros M HM _.
    constructor; [change (0 <= M); lia|constructor].
  - cbn [tail head].
    assert (Ht : Forall (fun c => is_Some (chunk_text c)) ([] ++ b0 :: rest)).
    { eapply Forall_impl; [exact Hwf|]. intros c (t & a & H1 & _). eexists. exact H1. }
    destruct (merge_fold 1800 rest [] b0 (Z.le_refl _) Ht)
      as (merged' & cur' & Hf & Hj & _).
    rewrite Hf. cbn [Js.bind].
    assert (Hitems : List.map View.item_text (List.map Some merged' ++ [Some cur'])
                     = View.texts (merged' ++ [cur'])).
    { unfold View.texts. rewrite !List.map_app, List.map_map. reflexivity. }
    exists (List.map Some merged' ++ [Some cur']).
    split; [reflexivity|]. split; [destruct merged'; discriminate|].
    rewrite Hitems. split; [exact Hj|].
    intros M HM Hall.
    destruct (merge_fold M rest [] b0 HM Ht) as (m2 & c2 & Hf2 & _ & Hb2).
    rewrite Hf in Hf2. injection Hf2 as <- <-. apply Hb2. exact Hall.
Qed.

Lemma hybrid_texts (items : list (option ChunkMeta)) :
  View.texts (imap View.hybrid_record items) = List.map View.item_text items.
Proof. unfold View.texts. apply map_imap. reflexivity. Qed.

(** The hybrid strategy, for every text. It never throws and never returns
    the empty list; the indices of its records count from 0 without a gap,
    and every record has the type [hybrid]. *)
Theorem hybrid_chunks (text : jsstring) :
  exists l,
    hybridChunkWithMeta text = Ok l
    /\ l <> []
    /\ List.map chunk_index l = List.map Some (seq 0 (length l))
    /\ Forall (fun c => chunk_type c = Some hybrid) l.
Proof.
  destruct (hybrid_inversion text) as (items & Hh & Hne & _).
  exists (imap View.hybrid_record items). split; [exact Hh|]. split; [|split].
  - destruct items; [congruence|]. rewrite imap_cons. discriminate.
  - rewrite length_imap. apply map_imap_index. reflexivity.
  - eapply Forall_imap with (P := fun _ => True); [reflexivity|].
    apply List.Forall_forall. auto.
Qed.

(** Merging loses no text: the texts of the hybrid records, joined by single
    spaces, are the texts of the recursive records they were merged from,
    joined by single spaces. *)
Theorem hybrid_keeps_text (text : jsstring) :
  exists l,
    hybridChunkWithMeta text = Ok l
    /\ join [SP] (View.texts l)
       = join [SP] (View.texts (recursiveChunkWithMeta text 1500 200)).
Proof.
  destruct (hybrid_inversion text) as (items & Hh & _ & Hj & _).
  exists (imap View.hybrid_record items). split; [exact Hh|].
  rewrite hybrid_texts. exact Hj.
Qed.

(** The size of the hybrid records. When no blank-line-delimited segment of
    the text is longer than 1500, no hybrid record has a text longer than
    the merge ceiling, 1800. *)
Theorem hybrid_chunk_bound (text : jsstring) (l : list ChunkMeta) :
  (forall part, In part (split_nn text) -> len part <= 1500) ->
  hybridChunkWithMeta text = Ok l ->
  Forall (fun t => len t <= 1800) (View.texts l).
Proof.
  intros Hparts Hl. destruct (hybrid_inversion text) as (items & Hh & _ & _ & Hb).
  rewrite Hh in Hl. injection Hl as <-. rewrite hybrid_texts.
  apply Hb; [lia|]. apply List.Forall_forall. intros t Ht.
  unfold View.texts in Ht. apply in_map_iff in Ht as (c & <- & Hc).
  destruct (recursive_chunk_within_budget text 1500 200 c Hparts Hc) as (t & -> & Hlen).
  cbn. lia.
Qed.

End RecursiveAndHybrid.

Lemma hybrid_chunk_bound_witness :
  let text := Sample.para (lit "Intro text.") (lit "Body text.") in
  (forall part, In part (split_nn text) -> len part <= 1500)
  /\ exists l,
       Worker.hybridChunkWithMeta text = Ok l
       /\ Forall (fun t => len t <= 1800) (View.texts l).
Proof.
  cbv zeta.
  assert (H : forall part,
    In part (split_nn (Sample.para (lit "Intro text.") (lit "Body text."))) ->
    len part <= 1500).
  { intros part [<-|[<-|[]]]; vm_compute; discriminate. }
  split; [exact H|]. eexists. split; [reflexivity|].
  exact (hybrid_chunk_bound _ _ H eq_refl).
Defined.

(** ** The document classifier *)

Section Classifier.

Import Worker.

Lemma mean_below (total n : Z) :
  0 < n ->
  (Qltb (inject_Z total / inject_Z n) (inject_Z 500) = true <-> total < 500 * n).
Proof.
  intros Hn. rewrite Qltb_true. destruct n as [|p|p]; try lia.
  unfold Qlt, Qdiv, Qmult, Qinv, inject_Z. cbn. lia.
Qed.

(** The first rule of [classifyDocument]. A document is [short_structured]
    exactly when it has at most two pages (a missing count reading as one
    page) and the mean length of its blank-line-delimited segments is below
    500, whatever words it holds. *)
Theorem classify_short_iff (text : jsstring) (pages : nat) :
  classifyDocument text pages = short_structured
  <-> (pages <= 2)%nat
      /\ View.total_length (split_nn text)
         < 500 * Z.max 1 (Z.of_nat (length (split_nn text))).
Proof.
  unfold classifyDocument, View.total_length.
  set (total := fold_left (fun a p => a + len p) (split_nn text) 0).
  set (n := Z.max 1 (Z.of_nat (length (split_nn text)))).
  assert (Hn : 0 < n) by (unfold n; lia).
  pose proof (mean_below total n Hn) as Hmean.
  assert (Hpages : ((if Nat.eqb pages 0 then 1%nat else pages) <=? 2)%nat = true
                   <-> (pages <= 2)%nat).
  { destruct pages as [|k]; cbn [Nat.eqb]; rewrite Nat.leb_le; lia. }
  destruct ((if Nat.eqb pages 0 then 1%nat else pages) <=? 2)%nat eqn:Hp;
    destruct (Qltb (inject_Z total / inject_Z n) (inject_Z 500)) eqn:Hq; cbn [andb].
  - split; [|reflexivity]. intros _. split; [apply Hpages|apply Hmean]; reflexivity.
  - split.
    + repeat (destruct (test_words_i _ text)); discriminate.
    + intros [_ H]. apply Hmean in H. discriminate.
  - split.
    + repeat (destruct (test_words_i _ text)); discriminate.
    + intros [H _]. apply Hpages in H. discriminate.
  - split.
    + repeat (destruct (test_words_i _ text)); discriminate.
    + intros [H _]. apply Hpages in H. discriminate.
Qed.

Lemma indexOf_at_eq (p s : jsstring) (k : Z) :
  indexOf_at p s k
  = if startsWith p s then k
    else match s with
         | [] => -1
         | _ :: r => indexOf_at p r (k + 1)
         end.
Proof. destruct s; reflexivity. Qed.

Lemma startsWith_app (p post : jsstring) : startsWith p (p ++ post) = true.
Proof.
  induction p as [|a p IH]; [reflexivity|]. simpl. rewrite N.eqb_refl. exact IH.
Qed.

Lemma indexOf_at_complete (p pre post : jsstring) (k : Z) :
  0 <= k -> indexOf_at p (pre ++ p ++ post) k <> -1.
Proof.
  revert k. induction pre as [|c pre IH]; intros k Hk; rewrite indexOf_at_eq.
  - cbn [app]. rewrite startsWith_app. lia.
  - destruct (startsWith p ((c :: pre) ++ p ++ post)); [lia|].
    cbn [app]. apply IH. lia.
Qed.

(** [text.includes(p)] is the occurrence of [p] in [text]. *)
Lemma includes_occurs (text p : jsstring) :
  includes text p = true <-> View.occurs p text.
Proof.
  unfold includes. rewrite negb_true_iff, Z.eqb_neq. split.
  - intros Hne. destruct (indexOf_found text p 0 _ eq_refl Hne) as (H0 & _ & Ht).
    set (j := Z.to_nat (indexOf text p 0)) in *.
    exists (take j text), (drop (length p) (drop j text)).
    rewrite <- Ht at 1. rewrite take_drop, take_drop. reflexivity.
  - intros (pre & post & ->). unfold indexOf.
    replace (Z.min (Z.max 0 0) (len (pre ++ p ++ post))) with 0 by (unfold len; lia).
    cbn [Z.to_nat drop]. apply indexOf_at_complete. lia.
Qed.

Lemma test_words_mentions (words : list string) (text : jsstring) :
  test_words_i words text = true <-> View.mentions words text.
Proof.
  unfold test_words_i, View.mentions. rewrite existsb_exists.
  split; intros (w & Hw & H); exists w; (split; [exact Hw|]); apply includes_occurs, H.
Qed.

(** The other rules of [classifyDocument], for a document that is not
    [short_structured]: the first vocabulary that occurs in the text decides,
    in the order resume, table of contents, legal, and only a text that
    holds none of the words is [generic]. A word occurs whatever the case of
    its letters. *)
Theorem classify_by_vocabulary (text : jsstring) (pages : nat) :
  classifyDocument text pages <> short_structured ->
  let R := View.mentions ["resume"; "curriculum vitae"; "experience"]%string text in
  let T := View.mentions ["table of contents"; "chapter"]%string text in
  let L := View.mentions ["legal"; "hereby"; "whereas"]%string text in
  (classifyDocument text pages = resume <-> R)
  /\ (classifyDocument text pages = long_structured <-> ~ R /\ T)
  /\ (classifyDocument text pages = legal <-> ~ R /\ ~ T /\ L)
  /\ (classifyDocument text pages = generic <-> ~ R /\ ~ T /\ ~ L).
Proof.
  cbv zeta. rewrite <- !test_words_mentions. unfold classifyDocument.
  destruct (_ && _); [congruence|]. intros _.
  destruct (test_words_i ["resume"; "curriculum vitae"; "experience"]%string text);
    destruct (test_words_i ["table of contents"; "chapter"]%string text);
    destruct (test_words_i ["legal"; "hereby"; "whereas"]%string text);
    repeat split; try discriminate; try congruence; try tauto;
    intros; intuition congruence.
Qed.

End Classifier.

Lemma classify_by_vocabulary_witness :
  let text := lit "Curriculum Vitae. WHEREAS the parties..." in
  Worker.classifyDocument text 3 <> Worker.short_structured
  /\ Worker.classifyDocument text 3 = Worker.resume
  /\ View.mentions ["resume"; "curriculum vitae"; "experience"]%string text.
Proof.
  cbv zeta.
  assert (H : Worker.classifyDocument (lit "Curriculum Vitae. WHEREAS the parties...") 3
              <> Worker.short_structured) by (vm_compute; discriminate).
  split; [exact H|]. split; [reflexivity|].
  apply (proj1 (classify_by_vocabulary _ 3 H)). reflexivity.
Defined.

(** ** More on ingestion *)

Section IngestionMore.
Context {E : Env}.

Import Worker.

Lemma embed_and_insert_frame (documentId : nat) (cs : list ChunkMeta)
  (s : Store) (log : list LogEvent) :
  let s' := (embed_and_insert documentId cs s log).1.1 in
  documents s' = documents s /\ bucket s' = bucket s /\ jobs s' = jobs s
  /\ exists new,
       Db.chunks s' = Db.chunks s ++ new
       /\ Forall (fun c => c_document_id c = documentId) new.
Proof.
  cbv zeta. revert s log. induction cs as [|chunk rest IH]; intros s log.
  - cbn. repeat split. exists []. rewrite List.app_nil_r. split; constructor.
  - cbn [embed_and_insert]. destruct (chunk_text chunk) as [t|]; cbn [Js.bind].
    2:{ cbn. repeat split. exists []. rewrite List.app_nil_r. split; constructor. }
    destruct (embedder t) as [v|]; cbn [Js.bind].
    2:{ cbn. repeat split. exists []. rewrite List.app_nil_r. split; constructor. }
    destruct (chunk_insert_error _); [apply IH|].
    destruct (IH (insert_chunk (chunk_row documentId chunk t v) s) log)
      as (Hd & Hb & Hj & new & Hc & Hnew).
    split; [exact Hd|]. split; [exact Hb|]. split; [exact Hj|].
    exists (chunk_row documentId chunk t v (next_id s) :: new). split.
    + rewrite Hc. cbn. rewrite <- List.app_assoc. reflexivity.
    + constructor; [reflexivity|exact Hnew].
Qed.

(** [processPdfBufferAndInsert] writes to the table of chunks only: the
    documents, the bucket and the jobs stay as they are, no chunk that was
    there is removed, changed or moved, and every chunk that is added
    belongs to the document that is being processed. *)
Theorem processing_only_adds_chunks (fileBuffer : list Byte.byte) (documentId : nat)
  (s : Store) :
  let s' := (processPdfBufferAndInsert fileBuffer documentId s).1 in
  documents s' = documents s /\ bucket s' = bucket s /\ jobs s' = jobs s
  /\ exists new,
       Db.chunks s' = Db.chunks s ++ new
       /\ Forall (fun c => c_document_id c = documentId) new.
Proof.
  cbv zeta. unfold processPdfBufferAndInsert.
  assert (Hsame : documents s = documents s /\ bucket s = bucket s /\ jobs s = jobs s
                  /\ exists new, Db.chunks s = Db.chunks s ++ new
                                 /\ Forall (fun c => c_document_id c = documentId) new).
  { repeat split. exists []. rewrite List.app_nil_r. split; constructor. }
  destruct (parsePdf fileBuffer) as [[text numpages]|]; [|exact Hsame].
  destruct (match classifyDocument text numpages with
            | short_structured | resume => Ok (paragraphChunkWithMeta text)
            | _ => hybridChunkWithMeta text
            end) as [cs|]; [|exact Hsame].
  pose proof (embed_and_insert_frame documentId cs s [ChunksCreated (length cs)]) as H.
  cbv zeta in H.
  destruct (embed_and_insert documentId cs s [ChunksCreated (length cs)])
    as [[s' log] r]. destruct r; exact H.
Qed.

Lemma chunk_errors_snoc (log : list LogEvent) (e : LogEvent) :
  View.chunk_errors (log ++ [e])
  = (View.chunk_errors log + if View.is_chunk_error e then 1 else 0)%nat.
Proof.
  unfold View.chunk_errors. rewrite List.filter_app, length_app. cbn.
  destruct (View.is_chunk_error e); reflexivity.
Qed.

(** An insert that the store refuses costs one chunk only. When every record
    has a text and the embedder produces a vector for each, the loop of
    [processPdfBufferAndInsert] ends without an exception, and every record
    is either inserted or logged as an insert error. *)
Theorem insert_error_skips_one_chunk (documentId : nat) (cs : list ChunkMeta)
  (s : Store) (log : list LogEvent) :
  Forall (fun c => exists t v, chunk_text c = Some t /\ embedder t = Ok v) cs ->
  exists s' log',
    embed_and_insert documentId cs s log = (s', log', Ok ())
    /\ (length (Db.chunks s') + View.chunk_errors log'
        = length (Db.chunks s) + View.chunk_errors log + length cs)%nat.
Proof.
  intros Hcs. revert s log. induction Hcs as [|chunk rest (t & v & Ht & Hv) _ IH];
    intros s log.
  - exists s, log. split; [reflexivity|]. cbn. lia.
  - cbn [embed_and_insert]. rewrite Ht. cbn [Js.bind]. rewrite Hv. cbn [Js.bind].
    destruct (chunk_insert_error _) as [e|].
    + destruct (IH s (log ++ [InsertError e])) as (s' & log' & Heq & Hcount).
      exists s', log'. split; [exact Heq|]. rewrite chunk_errors_snoc in Hcount.
      cbn in Hcount. cbn [length]. lia.
    + destruct (IH (insert_chunk (chunk_row documentId chunk t v) s) log)
        as (s' & log' & Heq & Hcount).
      exists s', log'. split; [exact Heq|]. cbn in Hcount. rewrite length_app in Hcount.
      cbn in Hcount. cbn [length]. lia.
Qed.

Lemma worker_v1_loop_count (documentId : nat) (rawChunks : list jsstring)
  (s : Store) (log : list LogEvent) :
  let r := worker_v1_loop documentId rawChunks s log in
  (length (Db.chunks r.1) + View.chunk_errors r.2
   = length (Db.chunks s) + View.chunk_errors log
     + length (List.filter (fun t => truthy (cleanText_v1 t)) rawChunks))%nat.
Proof.
  cbv zeta. revert s log. induction rawChunks as [|raw rest IH]; intros s log.
  - cbn [worker_v1_loop fst snd List.filter length]. lia.
  - cbn [worker_v1_loop List.filter].
    destruct (truthy (cleanText_v1 raw)); cbn [negb]; [|apply IH].
    cbn [length].
    destruct (embedder (cleanText_v1 raw)) as [v|e].
    + destruct (chunk_insert_error _) as [e|].
      * rewrite IH, chunk_errors_snoc. cbn [View.is_chunk_error]. lia.
      * rewrite IH. cbn [insert_chunk bump_id set_chunks Db.chunks].
        rewrite length_app. cbn [length]. lia.
    + rewrite IH, chunk_errors_snoc. cbn [View.is_chunk_error]. lia.
Qed.

(** The first worker never gives up on a document: every paragraph that is
    not empty once cleaned is either inserted or logged as an embedding or
    insert error, whatever the embedder and the store do. *)
Theorem worker_v1_attempts_every_paragraph (text : jsstring) (documentId : nat)
  (s : Store) :
  let r := worker_v1 text documentId s in
  (length (Db.chunks r.1) + View.chunk_errors r.2
   = length (Db.chunks s)
     + length (List.filter (fun t => truthy (cleanText_v1 t))
                 (List.filter (fun t => (0 <? len (trim t))%Z) (split_nn text))))%nat.
Proof.
  cbv zeta. unfold worker_v1.
  pose proof (worker_v1_loop_count documentId
    (List.filter (fun t => 0 <? len (trim t)) (split_nn text)) s []) as H.
  cbv zeta in H.
  destruct (worker_v1_loop documentId _ s []) as [s' log]. cbn [fst snd] in *.
  rewrite chunk_errors_snoc. cbn [View.is_chunk_error].
  change (View.chunk_errors []) with 0%nat in H. lia.
Qed.

End IngestionMore.

Lemma insert_error_skips_one_chunk_witness :
  let cs := Worker.paragraphChunkWithMeta (Sample.para (lit "C") (Sample.para (lit "B") (lit "D"))) in
  Forall (fun c => exists t v,
            Worker.chunk_text c = Some t /\ embedder (Env := Fixture.rejecting) t = Ok v) cs
  /\ exists s' log',
       Worker.embed_and_insert (E := Fixture.rejecting) 7 cs Sample.empty_store []
       = (s', log', Ok ())
       /\ List.map c_chunk_text (Db.chunks s') = [lit "C"; lit "D"]
       /\ (length (Db.chunks s') + View.chunk_errors log' = 0 + 0 + 3)%nat.
Proof.
  cbv zeta.
  assert (H : Forall (fun c => exists t v,
                Worker.chunk_text c = Some t
                /\ embedder (Env := Fixture.rejecting) t = Ok v)
              (Worker.paragraphChunkWithMeta
                 (Sample.para (lit "C") (Sample.para (lit "B") (lit "D"))))).
  { repeat constructor; eexists; eexists; split; reflexivity. }
  split; [exact H|].
  destruct (insert_error_skips_one_chunk (E := Fixture.rejecting) 7 _
              Sample.empty_store [] H) as (s' & log' & Heq & Hcount).
  exists s', log'. split; [exact Heq|]. split; [|exact Hcount].
  vm_compute in Heq. injection Heq as <- _. reflexivity.
Defined.

(** ** More on the upload route *)

Section UploadMore.
Context {E : Env}.

Import Upload.

Lemma after_last_dot_none (s : jsstring) : ~ In 46%N s -> after_last_dot s = None.
Proof.
  induction s as [|c r IH]; intros H; [reflexivity|]. cbn [after_last_dot].
  rewrite IH by (intros Hr; apply H; right; exact Hr).
  destruct (N.eqb_spec c 46) as [->|]; [|reflexivity].
  exfalso. apply H. left. reflexivity.
Qed.

Lemma after_last_dot_app (base e : jsstring) :
  ~ In 46%N e -> after_last_dot (base ++ 46%N :: e) = Some e.
Proof.
  intros He. induction base as [|c base IH].
  - cbn [app after_last_dot]. rewrite (after_last_dot_none e He). reflexivity.
  - cbn [app after_last_dot]. rewrite IH. reflexivity.
Qed.

(** The extension that enters the storage path. A name without a dot, and a
    name that ends with a dot, have the empty extension; for any other name
    the extension is the last dot and what follows it. *)
Theorem extension_spec (base e : jsstring) :
  ~ In 46%N e ->
  extension e = []
  /\ extension (base ++ [46%N]) = []
  /\ (e <> [] -> extension (base ++ 46%N :: e) = 46%N :: e).
Proof.
  intros He. unfold extension. split; [|split].
  - rewrite (after_last_dot_none e He). reflexivity.
  - rewrite (after_last_dot_app base []) by (intros []). reflexivity.
  - intros Hne. rewrite (after_last_dot_app base e He).
    destruct e; [congruence|reflexivity].
Qed.

Lemma inline_loop_frame (documentId : nat) (chunks : list jsstring) (s : Store) :
  let s' := inline_loop documentId chunks s in
  documents s' = documents s /\ bucket s' = bucket s /\ jobs s' = jobs s
  /\ exists new, Db.chunks s' = Db.chunks s ++ new.
Proof.
  cbv zeta. revert s. induction chunks as [|chunk rest IH]; intros s.
  - cbn. repeat split. exists []. rewrite List.app_nil_r. reflexivity.
  - cbn [inline_loop]. destruct (embedder chunk) as [v|].
    2:{ repeat split. exists []. rewrite List.app_nil_r. reflexivity. }
    destruct (chunk_insert_error _); [apply IH|].
    match goal with |- context [inline_loop documentId rest ?s1] =>
      destruct (IH s1) as (Hd & Hb & Hj & new & Hc) end.
    split; [exact Hd|]. split; [exact Hb|]. split; [exact Hj|].
    eexists. rewrite Hc. cbn. rewrite <- List.app_assoc. reflexivity.
Qed.

Lemma inline_processing_frame (documentId : nat) (content : list Byte.byte) (s : Store) :
  let s' := inline_processing documentId content s in
  documents s' = documents s /\ bucket s' = bucket s /\ jobs s' = jobs s
  /\ exists new, Db.chunks s' = Db.chunks s ++ new.
Proof.
  cbv zeta. unfold inline_processing. destruct (parsePdf content) as [[text n]|].
  - apply inline_loop_frame.
  - repeat split. exists []. rewrite List.app_nil_r. reflexivity.
Qed.

Lemma documents_at_new (path : jsstring) (u : nat) (s : Store) (row : nat -> Document) :
  d_storage_path (row (next_id s)) = Some path -> d_user_id (row (next_id s)) = u ->
  documents_at path u (insert_document row s)
  = documents_at path u s ++ [row (next_id s)].
Proof.
  intros Hp Hu. unfold documents_at. cbn [insert_document bump_id set_documents documents].
  rewrite List.filter_app. cbn [List.filter]. rewrite Hp, Hu, Nat.eqb_refl.
  unfold eqb_path. rewrite bool_decide_eq_true_2 by reflexivity. reflexivity.
Qed.

Lemma storage_upload_present (path : jsstring) (content stored : list Byte.byte)
  (s : Store) :
  storage_error path = None -> bucket s !! path = Some stored ->
  storage_upload path content s = (s, None, Some (lit "The resource already exists")).
Proof. intros He Hb. unfold storage_upload. rewrite He, Hb. reflexivity. Qed.

(** The storage is shared. When the object of a file is already in the
    bucket and the user has no document at its path, the upload is not an
    error: with the stores answering and the queue, when there is one,
    taking the job, a document of the user is added at the same path, with
    the next identifier, and the bucket stays as it is. *)
Theorem upload_shares_stored_object (s : Store) (user_id : nat) (file : UploadFile)
  (stored : list Byte.byte) :
  let hash := sha256hex (fileContent file) in
  let path := lit "uploads/" ++ hash ++ extension (origName file) in
  store_fault SelectExisting = NoFault -> store_fault FetchInserted = NoFault ->
  storage_error path = None -> (forall d, document_insert_error d = None) ->
  (queue_ready = true -> forall j, queue_add_error j = None) ->
  documents_at path user_id s = [] ->
  bucket s !! path = Some stored ->
  exists s' r task,
    upload_file user_id file s = (s', r, task)
    /\ error r = None /\ documentId r = Some (next_id s) /\ storagePath r = Some path
    /\ bucket s' = bucket s
    /\ documents s'
       = documents s
         ++ [ {| d_id := next_id s; d_user_id := user_id; d_file_name := origName file;
                 d_storage_path := Some path; d_file_hash := Some hash |} ].
Proof.
  cbv zeta. intros Hsel Hfetch Hst Hins Hq Hnone Hobj.
  unfold upload_file. rewrite Hsel, Hnone. cbn [take].
  rewrite (storage_upload_present _ _ stored s Hst Hobj).
  replace (includes (toLowerCase (lit "The resource already exists"))
             (lit "already exists")) with true by (vm_compute; reflexivity).
  cbn [negb]. rewrite Hins, Hfetch.
  rewrite documents_at_new by reflexivity. rewrite Hnone. cbn [app head d_id].
  destruct queue_ready.
  - rewrite (Hq eq_refl). eexists. eexists. eexists. split; [reflexivity|].
    cbn. repeat split.
  - eexists. eexists. eexists. split; [reflexivity|]. cbn. repeat split.
Qed.

(** What one round of the loop does to the store, whatever happens: the
    chunks and the jobs that were there stay, at most one document is added,
    for the user, and the bucket only grows. *)
Lemma upload_file_frame (user_id : nat) (file : UploadFile) (s : Store) :
  let s' := (upload_file user_id file s).1.1 in
  (exists new, documents s' = documents s ++ new
               /\ Forall (fun d => d_user_id d = user_id) new)
  /\ Db.chunks s' = Db.chunks s
  /\ bucket s ⊆ bucket s'.
Proof.
  cbv zeta.
  assert (Hsame : forall s0 : Store,
    (exists new, documents s0 = documents s0 ++ new
                 /\ Forall (fun d => d_user_id d = user_id) new)
    /\ Db.chunks s0 = Db.chunks s0
    /\ bucket s0 ⊆ bucket s0).
  { intros s0. split; [|split]; [exists []|reflexivity|reflexivity].
    rewrite List.app_nil_r. split; constructor. }
  unfold upload_file.
  destruct (match store_fault SelectExisting with
            | NoFault => _ | ErrorResult _ => _ | Exception e => _ end) as [[|d ?]|];
    [|apply Hsame|apply Hsame].
  destruct (storage_upload _ (fileContent file) s) as [[s1 data] err] eqn:Hst.
  assert (Hs1 : documents s1 = documents s /\ Db.chunks s1 = Db.chunks s
                /\ bucket s ⊆ bucket s1).
  { unfold storage_upload in Hst. destruct (storage_error _).
    - injection Hst as <- _ _. auto.
    - destruct (bucket s !! _) eqn:Hb; injection Hst as <- _ _; auto.
      cbn. repeat split. apply insert_subseteq. exact Hb. }
  destruct Hs1 as (Hd1 & Hc1 & Hb1).
  assert (Hfail : (exists new, documents s1 = documents s ++ new
                     /\ Forall (fun d => d_user_id d = user_id) new)
                  /\ Db.chunks s1 = Db.chunks s
                  /\ bucket s ⊆ bucket s1).
  { split; [|split]; [exists []|exact Hc1|exact Hb1].
    rewrite List.app_nil_r. split; [exact Hd1|constructor]. }
  destruct (match err with Some _ => _ | None => _ end); [exact Hfail|].
  destruct (document_insert_error _); [exact Hfail|].
  set (row := fun k : nat => {| d_id := k; d_user_id := user_id |}).
  assert (Hins : (exists new, documents (insert_document row s1) = documents s ++ new
                     /\ Forall (fun d => d_user_id d = user_id) new)).
  { exists [row (next_id s1)]. cbn. rewrite Hd1. split; [reflexivity|].
    constructor; [reflexivity|constructor]. }
  destruct (match store_fault FetchInserted with
            | NoFault => _ | _ => _ end) as [document|];
    [|split; [exact Hins|split; [exact Hc1|exact Hb1]]].
  destruct queue_ready; [destruct (queue_add_error _)|]; cbn [fst];
    (split; [exact Hins|split; [exact Hc1|exact Hb1]]).
Qed.

Lemma upload_files_frame (user_id : nat) (files : list UploadFile) (s : Store) :
  let s' := (upload_files user_id files s).1.1 in
  (exists new, documents s' = documents s ++ new
               /\ Forall (fun d => d_user_id d = user_id) new)
  /\ Db.chunks s' = Db.chunks s
  /\ bucket s ⊆ bucket s'.
Proof.
  cbv zeta. revert s. induction files as [|file rest IH]; intros s.
  - cbn. split; [|split]; [exists []|reflexivity|reflexivity].
    rewrite List.app_nil_r. split; constructor.
  - cbn [upload_files].
    pose proof (upload_file_frame user_id file s) as H1. cbv zeta in H1.
    destruct (upload_file user_id file s) as [[s1 r] t]. cbn [fst] in H1.
    specialize (IH s1). destruct (upload_files user_id rest s1) as [[s2 rs] ts].
    cbn [fst] in *.
    destruct H1 as ((n1 & Hd1 & Hu1) & Hc1 & Hb1).
    destruct IH as ((n2 & Hd2 & Hu2) & Hc2 & Hb2).
    split; [|split].
    + exists (n1 ++ n2). rewrite Hd2, Hd1, <- List.app_assoc. split; [reflexivity|].
      apply List.Forall_app. auto.
    + rewrite Hc2. exact Hc1.
    + etransitivity; eassumption.
Qed.

(** The upload route only adds. Whatever the request and whatever fails, the
    documents and the chunks that were in the store are still there, in
    place and unchanged, every object of the bucket is still there, and
    every document that was added belongs to the authenticated user. *)
Theorem upload_only_adds (s : Store) (req : Request) :
  let s' := (handler s req).1 in
  (exists new, documents s' = documents s ++ new
               /\ Forall (fun d => exists u, user req = Some u /\ d_user_id d = u_id u) new)
  /\ (exists new, Db.chunks s' = Db.chunks s ++ new)
  /\ bucket s ⊆ bucket s'.
Proof.
  cbv zeta.
  assert (Hsame : (exists new, documents s = documents s ++ new
                     /\ Forall (fun d => exists u, user req = Some u
                                                   /\ d_user_id d = u_id u) new)
                  /\ (exists new, Db.chunks s = Db.chunks s ++ new)
                  /\ bucket s ⊆ bucket s).
  { split; [|split]; [exists []|exists []|reflexivity];
      rewrite List.app_nil_r; [split; constructor|reflexivity]. }
  unfold handler, serve. destruct (method req); try exact Hsame.
  destruct (user req) as [u|]; [|exact Hsame].
  destruct (form req) as [[files|]|]; try exact Hsame.
  pose proof (upload_files_frame (u_id u) files s) as H. cbv zeta in H.
  destruct (upload_files (u_id u) files s) as [[s' rs] ts]. cbn [fst] in *.
  destruct H as ((new & Hd & Hu) & Hc & Hb). split; [|split; [|exact Hb]].
  - exists new. split; [exact Hd|]. eapply Forall_impl; [exact Hu|].
    intros d Hd'. exists u. auto.
  - exists []. rewrite List.app_nil_r. exact Hc.
Qed.


Lemma upload_file_name (user_id : nat) (file : UploadFile) (s : Store) :
  let r := (upload_file user_id file s).1.2 in
  match error r with
  | None => fileName r = Some (origName file)
  | Some _ => fileName r = originalFilename file
  end.
Proof.
  cbv zeta. unfold upload_file.
  destruct (match store_fault SelectExisting with
            | NoFault => _ | ErrorResult _ => _ | Exception e => _ end) as [[|d ?]|];
    try reflexivity.
  destruct (storage_upload _ (fileContent file) s) as [[s1 data] err].
  destruct (match err with Some _ => _ | None => _ end); [reflexivity|].
  destruct (document_insert_error _); [reflexivity|].
  destruct (match store_fault FetchInserted with
            | NoFault => _ | _ => _ end); [|reflexivity].
  destruct queue_ready; [destruct (queue_add_error _)|]; reflexivity.
Qed.

(** One element of the results for each file. For an authenticated POST
    whose form was parsed, the response lists the files in the order of the
    upload, one element each, failed or not: a successful element names the
    file (or upload.pdf for a file without a name), a failed one carries the
    name as it was sent. *)
Theorem upload_answers_every_file (s : Store) (u : User) (files : list UploadFile) :
  exists s' results,
    handler s {| method := POST; user := Some u; form := Ok (Some files) |}
    = (s', Files results)
    /\ Forall2 (fun file r =>
                  match error r with
                  | None => fileName r = Some (origName file)
                  | Some _ => fileName r = originalFilename file
                  end) files results.
Proof.
  unfold handler, serve. cbn [method user form].
  assert (H : forall s0, Forall2 (fun file r =>
                  match error r with
                  | None => fileName r = Some (origName file)
                  | Some _ => fileName r = originalFilename file
                  end) files (upload_files (u_id u) files s0).1.2).
  { induction files as [|file rest IH]; intros s0; [constructor|].
    cbn [upload_files]. pose proof (upload_file_name (u_id u) file s0) as Hn.
    cbv zeta in Hn. destruct (upload_file (u_id u) file s0) as [[s1 r] t].
    specialize (IH s1). destruct (upload_files (u_id u) rest s1) as [[s2 rs] ts].
    constructor; assumption. }
  specialize (H s). destruct (upload_files (u_id u) files s) as [[s' rs] ts].
  exists s', rs. split; [reflexivity|exact H].
Qed.

Lemma inline_loop_all (documentId : nat) (chunks : list jsstring) (s : Store) :
  (forall t, In t chunks -> exists v, embedder t = Ok v) ->
  (forall c, chunk_insert_error c = None) ->
  exists new,
    Db.chunks (inline_loop documentId chunks s) = Db.chunks s ++ new
    /\ List.map c_chunk_text new = chunks
    /\ Forall (fun c => c_document_id c = documentId /\ c_chunk_index c = None
                        /\ c_chunk_type c = None /\ c_char_start c = None
                        /\ c_char_end c = None) new.
Proof.
  intros Hemb Hins. revert s. induction chunks as [|chunk rest IH]; intros s.
  - exists []. cbn. rewrite List.app_nil_r. repeat split. constructor.
  - cbn [inline_loop]. destruct (Hemb chunk (or_introl eq_refl)) as [v ->].
    rewrite Hins.
    match goal with |- context [inline_loop documentId rest ?s1] =>
      destruct (IH (fun t Ht => Hemb t (or_intror Ht)) s1) as (new & Hc & Ht & Hf) end.
    eexists (_ :: new). split; [|split].
    + rewrite Hc. cbn. rewrite <- List.app_assoc. reflexivity.
    + cbn. f_equal. exact Ht.
    + constructor; [cbn; auto|exact Hf].
Qed.

(** The inline fallback and the paragraph strategy cut a document alike.
    When the extractor gives a text, the embedder has a vector for each of
    its cleaned segments and the store accepts the rows, the inline path of
    the upload route adds, in order, one chunk for each record that the
    paragraph strategy of the worker makes of that text, with the same text;
    its rows have neither index, type nor offsets. *)
Theorem inline_matches_paragraph_strategy (documentId : nat) (content : list Byte.byte)
  (s : Store) (text : jsstring) (numpages : nat) :
  parsePdf content = Ok (text, numpages) ->
  (forall t, In t (View.texts (Worker.paragraphChunkWithMeta text)) ->
             exists v, embedder t = Ok v) ->
  (forall c, chunk_insert_error c = None) ->
  exists new,
    Db.chunks (inline_processing documentId content s) = Db.chunks s ++ new
    /\ List.map c_chunk_text new = View.texts (Worker.paragraphChunkWithMeta text)
    /\ Forall (fun c => c_document_id c = documentId /\ c_chunk_index c = None
                        /\ c_chunk_type c = None /\ c_char_start c = None
                        /\ c_char_end c = None) new.
Proof.
  intros Hpdf Hemb Hins. unfold inline_processing. rewrite Hpdf.
  destruct (paragraph_loop_spec text (split_nn text) 0 0) as (Htexts & _).
  change (Worker.paragraph_loop text (split_nn text) 0 0)
    with (Worker.paragraphChunkWithMeta text) in Htexts. rewrite Htexts in *.
  apply inline_loop_all; assumption.
Qed.

End UploadMore.

Lemma extension_spec_witness :
  ~ In 46%N (lit "pdf")
  /\ Upload.extension (lit "pdf") = []
  /\ Upload.extension (lit "report.v2" ++ [46%N]) = []
  /\ Upload.extension (lit "report.v2" ++ 46%N :: lit "pdf") = lit ".pdf".
Proof.
  assert (H : ~ In 46%N (lit "pdf")).
  { intros [H|[H|[H|[]]]]; discriminate. }
  split; [exact H|].
  destruct (extension_spec (lit "report.v2") (lit "pdf") H) as (H1 & H2 & H3).
  split; [exact H1|]. split; [exact H2|]. apply H3. discriminate.
Defined.

Lemma upload_shares_stored_object_witness :
  let s1 := (Upload.upload_file (E := Sample.env) 1
               (Sample.upload "report.pdf" "same bytes") Sample.empty_store).1.1 in
  let path := lit "uploads/73616d65206279746573.pdf" in
  documents_at path 2 s1 = []
  /\ bucket s1 !! path = Some (Sample.bytes_of "same bytes")
  /\ exists s2 r task,
       Upload.upload_file (E := Sample.env) 2 (Sample.upload "mine.pdf" "same bytes") s1
       = (s2, r, task)
       /\ Upload.error r = None /\ Upload.documentId r = Some 2%nat
       /\ bucket s2 = bucket s1
       /\ List.map d_user_id (documents s2) = [1; 2]%nat
       /\ List.map d_storage_path (documents s2) = [Some path; Some path].
Proof.
  cbv zeta. split; [reflexivity|]. split; [reflexivity|].
  destruct (upload_shares_stored_object (E := Sample.env)
              (Upload.upload_file (E := Sample.env) 1
                 (Sample.upload "report.pdf" "same bytes") Sample.empty_store).1.1
              2 (Sample.upload "mine.pdf" "same bytes") (Sample.bytes_of "same bytes")
              eq_refl eq_refl eq_refl (fun _ => eq_refl) (fun _ _ => eq_refl)
              eq_refl eq_refl)
    as (s2 & r & task & Hup & He & Hid & _ & Hb & Hd).
  exists s2, r, task. split; [exact Hup|]. split; [exact He|]. split; [exact Hid|].
  split; [exact Hb|]. rewrite Hd. split; reflexivity.
Defined.


Lemma inline_matches_paragraph_strategy_witness :
  let content := Sample.bytes_of "Intro text.

Body text." in
  exists text new,
    parsePdf (Env := Fixture.no_queue) content = Ok (text, 1%nat)
    /\ Db.chunks (Upload.inline_processing (E := Fixture.no_queue) 7 content
                    Sample.empty_store) = new
    /\ List.map c_chunk_text new = [lit "Intro text."; lit "Body text."]
    /\ List.map c_chunk_text new = View.texts (Worker.paragraphChunkWithMeta text).
Proof.
  cbv zeta. eexists. eexists. split; [reflexivity|]. split; [reflexivity|].
  split; [reflexivity|].
  destruct (inline_matches_paragraph_strategy (E := Fixture.no_queue) 7
              (Sample.bytes_of "Intro text.

Body text.") Sample.empty_store _ 1 eq_refl) as (new & Hc & Ht & _).
  - intros t [<-|[<-|[]]]; eexists; reflexivity.
  - intros c. reflexivity.
  - cbn [Db.chunks Sample.empty_store app] in Hc. rewrite Hc. exact Ht.
Defined.

(** ** More on the chat route *)

Section ChatMore.
Context {E : Env}.

Import Chat.




(** The stages of a run that answers. *)
Lemma run_stages (s : Store) (user_id : nat) (question : jsstring) (res : Run) :
  run s user_id question = Ok res ->
  exists relevance,
    self_correct s user_id question (rows res) relevance
    = Ok (finalRows res, selfCorrection (body res))
    /\ answer (body res)
       = generate (generationPrompt (finalContext (finalRows res)) question).
Proof.
  unfold run, getEmbedding, toPgVector.
  destruct (embedder question) as [qe|]; [|discriminate]. cbn [Js.bind].
  destruct (pool_query s user_id (truncate qe)) as [rs|]; [|discriminate].
  cbn [Js.bind].
  destruct reranker as [scorer|]; [|discriminate]. cbn [Js.bind].
  destruct (SelfCorrection.assessContextRelevance _ _ _) as [rel|]; [|discriminate].
  cbn [Js.bind].
  destruct (self_correct s user_id question rs rel) as [[fr tr]|] eqn:Hsc; [|discriminate].
  cbn [Js.bind].
  destruct (Faithfulness.getFaithfulnessScore _ _ _) as [faith|]; [|discriminate].
  cbn [Js.bind]. intros [= <-]. cbn [rows finalRows prompt body selfCorrection answer].
  exists rel. split; [exact Hsc|reflexivity].
Qed.

Lemma self_correct_cases (s : Store) (user_id : nat) (question : jsstring)
  (rows : list Row) (relevance : SelfCorrection.Relevance)
  (finalRows : list Row) (trace : Trace) :
  self_correct s user_id question rows relevance = Ok (finalRows, trace) ->
  (rows <> [] -> finalRows <> [])
  /\ (needsCorrection trace = false ->
      finalRows = rows /\ retrievalUsed trace = None /\ rephrasedQuestion trace = None)
  /\ (needsCorrection trace = true ->
      (retrievalUsed trace = Some original /\ finalRows = rows
       /\ rephrasedQuestion trace = None
       /\ present (rephrase_question question) = false)
      \/ (retrievalUsed trace = Some rephrase
          /\ present (rephrasedQuestion trace) = true
          /\ rephrasedQuestion trace = rephrase_question question)).
Proof.
  unfold self_correct.
  destruct (SelfCorrection.needsCorrection relevance) eqn:Hn.
  - destruct (present (rephrase_question question)) eqn:Hp.
    + unfold getEmbedding, toPgVector.
      destruct (embedder _) as [emb|]; [|discriminate]. cbn [Js.bind].
      destruct (pool_query s user_id (truncate emb)) as [newRows|]; [|discriminate].
      cbn [Js.bind]. intros [= <- <-]. cbn. split; [|split].
      * intros Hr. destruct newRows; [exact Hr|discriminate].
      * discriminate.
      * intros _. right. auto.
    + intros [= <- <-]. cbn. split; [auto|]. split; [discriminate|].
      intros _. left. auto.
  - intros [= <- <-]. cbn. split; [auto|]. split; [auto|]. discriminate.
Qed.

(** Self-correction never loses the context and is a single retry. In a run
    that answers: if the first search found rows, the generation gets rows;
    when no correction is needed the rows of the first search are used as
    they are and the trace names no retrieval; when one is needed, either no
    rephrasing was obtained and the first rows are used (retrieval
    [original]), or the trace carries the non-empty rephrased question
    (retrieval [rephrase]). *)
Theorem correction_keeps_context (s : Store) (user_id : nat) (question : jsstring)
  (res : Run) :
  run s user_id question = Ok res ->
  let trace := selfCorrection (body res) in
  (rows res <> [] -> finalRows res <> [])
  /\ (needsCorrection trace = false ->
      finalRows res = rows res /\ retrievalUsed trace = None
      /\ rephrasedQuestion trace = None)
  /\ (needsCorrection trace = true ->
      (retrievalUsed trace = Some original /\ finalRows res = rows res
       /\ rephrasedQuestion trace = None
       /\ present (rephrase_question question) = false)
      \/ (retrievalUsed trace = Some rephrase
          /\ present (rephrasedQuestion trace) = true
          /\ rephrasedQuestion trace = rephrase_question question)).
Proof.
  intros Hrun. apply run_stages in Hrun as (rel & Hsc & _).
  exact (self_correct_cases _ _ _ _ _ _ _ Hsc).
Qed.

(** Without a generative model the route still answers. When neither client
    could be built, a run that answers gives the fixed apology as the answer,
    uses the rows of the first search, and carries no rephrased question. *)
Theorem answers_without_generative_model (s : Store) (user_id : nat)
  (question : jsstring) (res : Run) :
  gemini = None -> openai = None ->
  run s user_id question = Ok res ->
  answer (body res) = default_answer
  /\ finalRows res = rows res
  /\ rephrasedQuestion (selfCorrection (body res)) = None.
Proof.
  intros Hg Ho Hrun. apply run_stages in Hrun as (rel & Hsc & Ha).
  split.
  - rewrite Ha. unfold generate. rewrite Hg, Ho. reflexivity.
  - apply self_correct_cases in Hsc as (_ & Hno & Hyes).
    assert (Hr : rephrase_question question = None).
    { unfold rephrase_question. rewrite Hg. reflexivity. }
    destruct (needsCorrection (selfCorrection (body res))) eqn:Hn.
    + destruct (Hyes eq_refl) as [(_ & Hf & Hq & _)|(_ & Hp & Heq)].
      * split; assumption.
      * rewrite Heq, Hr in Hp. discriminate.
    + destruct (Hno eq_refl) as (Hf & _ & Hq). split; assumption.
Qed.

(** The chat route answers only the authenticated, and only from their own
    chunks. A response with an answer comes from a POST by an authenticated
    user with a non-empty question, and every source it lists is a chunk of
    a document that this user owns. *)
Theorem chat_answers_from_own_chunks (s : Store) (req : Request) (b : Answer) :
  handler s req = Json b ->
  method req = POST
  /\ present (question req) = true
  /\ exists u,
       user req = Some u
       /\ Forall (fun src => Spec.owned_by s (u_id u) (row src)) (sources b).
Proof.
  unfold handler. destruct (method req); try discriminate.
  destruct (user req) as [u|]; [|discriminate].
  destruct (question req) as [[|c q]|]; try discriminate.
  destruct (run s (u_id u) (c :: q)) as [res|] eqn:Hrun; [|discriminate].
  intros [= <-]. split; [reflexivity|]. split; [reflexivity|].
  exists u. split; [reflexivity|]. apply (run_scoped_to_user _ _ _ _ Hrun).
Qed.

End ChatMore.

Lemma correction_keeps_context_witness :
  exists res,
    Chat.run (E := Fixture.rephrasing) Fixture.x_store 1 (lit "what") = Ok res
    /\ Chat.rows res <> []
    /\ Chat.finalRows res <> []
    /\ Chat.needsCorrection (Chat.selfCorrection (Chat.body res)) = true
    /\ Chat.retrievalUsed (Chat.selfCorrection (Chat.body res)) = Some Chat.rephrase
    /\ Chat.rephrasedQuestion (Chat.selfCorrection (Chat.body res)) = Some (lit "x files").
Proof.
  eexists. split; [vm_compute; reflexivity|].
  split; [discriminate|]. split; [|repeat split].
  apply (proj1 (correction_keeps_context (E := Fixture.rephrasing) Fixture.x_store 1
                  (lit "what") _ eq_refl)).
  discriminate.
Defined.

Lemma answers_without_generative_model_witness :
  exists res,
    Chat.run (E := Sample.env) Sample.store 1 (lit "what") = Ok res
    /\ Chat.answer (Chat.body res) = Chat.default_answer
    /\ Chat.finalRows res = Chat.rows res
    /\ Chat.rephrasedQuestion (Chat.selfCorrection (Chat.body res)) = None.
Proof.
  eexists. split; [vm_compute; reflexivity|].
  exact (answers_without_generative_model (E := Sample.env) Sample.store 1 (lit "what") _
           eq_refl eq_refl eq_refl).
Defined.

Lemma chat_answers_from_own_chunks_witness :
  let req := {| Chat.method := POST; Chat.user := Some Sample.alice;
                Chat.question := Some (lit "what") |} in
  exists b,
    Chat.handler (E := Sample.env) Sample.store req = Chat.Json b
    /\ List.map (fun src => Chat.r_id (Chat.row src)) (Chat.sources b)
       = [101; 102; 103; 104; 105; 106; 107]%nat
    /\ Forall (fun src => Spec.owned_by Sample.store 1 (Chat.row src)) (Chat.sources b).
Proof.
  cbv zeta. eexists. split; [vm_compute; reflexivity|]. split; [reflexivity|].
  destruct (chat_answers_from_own_chunks (E := Sample.env) Sample.store
              {| Chat.method := POST; Chat.user := Some Sample.alice;
                 Chat.question := Some (lit "what") |} _ eq_refl)
    as (_ & _ & u & Hu & Hs).
  injection Hu as <-. exact Hs.
Defined.

(** ** More on the documents route *)

Section DocsMore.
Context {E : Env}.

Import Docs.

(** The listing is the requester's own. An authenticated GET leaves the
    store as it is. When one of the two selects answers, the identifiers
    listed are those of the documents of the store that the requester owns,
    as many entries as there are such documents; when neither answers, the
    answer is the error 500. *)
Theorem listing_is_own_documents (s : Store) (u : User) (k0 : option nat) :
  let answer := handler s {| method := GET; user := Some u; documentId := k0 |} in
  (store_fault SelectOrdered = NoFault \/ store_fault SelectUnordered = NoFault ->
   exists l,
     answer = (s, [], Documents l)
     /\ length l
        = length (List.filter (fun d => Nat.eqb (d_user_id d) (u_id u)) (documents s))
     /\ forall k,
          In k (List.map l_id l)
          <-> exists d, In d (documents s) /\ d_id d = k /\ d_user_id d = u_id u)
  /\ (store_fault SelectOrdered <> NoFault -> store_fault SelectUnordered <> NoFault ->
      answer = (s, [], Error 500 (lit "Failed to fetch documents"))).
Proof.
  cbv zeta. unfold handler. cbn [method user]. unfold list_documents.
  set (own := List.filter (fun d => Nat.eqb (d_user_id d) (u_id u)) (documents s)).
  assert (Hown : forall k,
    In k (List.map d_id own)
    <-> exists d, In d (documents s) /\ d_id d = k /\ d_user_id d = u_id u).
  { intros k. rewrite in_map_iff. split.
    - intros (d & <- & Hd). apply List.filter_In in Hd as [Hd Hu].
      apply Nat.eqb_eq in Hu. exists d. auto.
    - intros (d & Hd & <- & Hu). exists d. split; [reflexivity|].
      apply List.filter_In. split; [exact Hd|]. apply Nat.eqb_eq, Hu. }
  assert (Hids : forall l, List.map l_id (List.map listed l) = List.map d_id l).
  { intros l. rewrite List.map_map. reflexivity. }
  split.
  - intros Hsome. destruct (store_fault SelectOrdered) as [|e1|e1] eqn:H1.
    + eexists. split; [reflexivity|]. split.
      * rewrite length_map, length_rev. reflexivity.
      * intros k. rewrite Hids, <- Hown, List.map_rev, <- in_rev. reflexivity.
    + destruct Hsome as [Hsome|Hsome]; [discriminate|]. rewrite Hsome.
      eexists. split; [reflexivity|]. split; [apply length_map|].
      intros k. rewrite Hids. apply Hown.
    + destruct Hsome as [Hsome|Hsome]; [discriminate|]. rewrite Hsome.
      eexists. split; [reflexivity|]. split; [apply length_map|].
      intros k. rewrite Hids. apply Hown.
  - intros H1 H2.
    destruct (store_fault SelectOrdered); [congruence| |];
      destruct (store_fault SelectUnordered); congruence.
Qed.

Lemma shrunk_refl (k : nat) (s : Store) : View.shrunk k s s.
Proof. repeat split; auto. Qed.

Lemma shrunk_delete_chunks (k : nat) (s s1 : Store) :
  View.shrunk k s s1 -> View.shrunk k s (Db.delete_chunks_of k s1).
Proof.
  intros (H1 & H2 & H3 & H4 & H5 & H6). repeat split; cbn; auto.
  - intros c Hc. apply List.filter_In in Hc as [Hc _]. auto.
  - intros c Hc Hne. apply List.filter_In. split; [auto|].
    apply negb_true_iff, Nat.eqb_neq, Hne.
Qed.

Lemma shrunk_delete_document (k : nat) (s s1 : Store) :
  View.shrunk k s s1 -> View.shrunk k s (Db.delete_document k s1).
Proof.
  intros (H1 & H2 & H3 & H4 & H5 & H6). repeat split; cbn; auto.
  - intros d Hd. apply List.filter_In in Hd as [Hd _]. auto.
  - intros d Hd Hne. apply List.filter_In. split; [auto|].
    apply negb_true_iff, Nat.eqb_neq, Hne.
Qed.

Lemma shrunk_remove_object (k : nat) (p : jsstring) (s s1 : Store) :
  View.shrunk k s s1 -> View.shrunk k s (set_bucket (delete p) s1).
Proof.
  intros (H1 & H2 & H3 & H4 & H5 & H6). repeat split; cbn; auto.
  etransitivity; [apply delete_subseteq|exact H6].
Qed.

Lemma call_shrunk (k : nat) (op : StoreCall) (f : Store -> Store)
  (s : Store) (st st' : Store * list StoreCall) :
  (forall s1, View.shrunk k s s1 -> View.shrunk k s (f s1)) ->
  View.shrunk k s st.1 -> call op f st = Ok st' -> View.shrunk k s st'.1.
Proof.
  intros Hf Hst. unfold call. destruct (store_fault op); intros [= <-]; cbn; auto.
Qed.

(** A delete request touches one document only. Whatever the requester,
    whatever the store holds and whatever call fails, after a DELETE for the
    document [k] the store holds no chunk, no document and no object that it
    did not hold before, the jobs are as they were, and every chunk and
    every document row that does not belong to [k] is still there. *)
Theorem delete_touches_one_document (s : Store) (u : User) (k : nat) :
  View.shrunk k s
    (handler s {| method := DELETE; user := Some u; documentId := Some k |}).1.1.
Proof.
  unfold handler. cbn [method user documentId].
  destruct k as [|k']; [apply shrunk_refl|]. remember (S k') as k eqn:Ek. clear Ek k'.
  unfold delete_document.
  destruct (store_fault SelectOwned); try apply shrunk_refl.
  destruct (take 1 (documents_owned k (u_id u) s)) as [|doc ?]; [apply shrunk_refl|].
  destruct (call DeleteChunks _ (s, [SelectOwned])) as [st1|] eqn:H1;
    [|apply shrunk_refl].
  assert (S1 : View.shrunk k s st1.1).
  { eapply call_shrunk; [apply shrunk_delete_chunks| |exact H1]. apply shrunk_refl. }
  destruct (call DeleteDocument _ st1) as [st2|] eqn:H2; [|exact S1].
  assert (S2 : View.shrunk k s st2.1).
  { eapply call_shrunk; [apply shrunk_delete_document|exact S1|exact H2]. }
  destruct (d_storage_path doc) as [[|c p]|]; try exact S2.
  destruct (call RemoveObject _ st2) as [st3|] eqn:H3; [|exact S2].
  eapply call_shrunk; [apply shrunk_remove_object|exact S2|exact H3].
Qed.

(** Deleting a document removes the stored object even when it is shared.
    In a store keyed by document identifier, with every call succeeding,
    when the requester deletes their document (its identifier is not 0,
    which the route reads as a missing one) and a document with another
    identifier names the same storage path, the request succeeds, the other
    document stays, and the object at its path is gone from the bucket. *)
Theorem delete_removes_shared_object (s : Store) (u : User) (k : nat)
  (d d' : Document) (p : jsstring) :
  k <> 0%nat ->
  Spec.documents_keyed s ->
  In d (documents s) -> d_id d = k -> d_user_id d = u_id u ->
  d_storage_path d = Some p -> p <> [] ->
  In d' (documents s) -> d_id d' <> k -> d_storage_path d' = Some p ->
  (forall op, store_fault op = NoFault) ->
  exists s' calls,
    handler s {| method := DELETE; user := Some u; documentId := Some k |}
    = (s', calls, Success)
    /\ In d' (documents s')
    /\ bucket s' !! p = None.
Proof.
  intros Hk0 Hkey Hd Hk Hu Hp Hne Hd' Hk' Hp' Hok.
  unfold handler. cbn [method user documentId].
  destruct k as [|k0]; [congruence|]. remember (S k0) as k eqn:Ek. clear Ek Hk0 k0.
  unfold delete_document.
  destruct (owned_head s k (u_id u) d Hkey Hd Hk Hu) as (rest & Hown).
  rewrite Hown. cbn [take]. unfold call. rewrite !Hok. cbn [fst snd app]. rewrite Hp.
  destruct p as [|c p]; [congruence|].
  eexists. eexists. split; [reflexivity|]. cbn. split.
  - apply List.filter_In. split; [exact Hd'|].
    apply negb_true_iff, Nat.eqb_neq, Hk'.
  - apply lookup_delete_eq.
Qed.

End DocsMore.

Lemma listing_is_own_documents_witness :
  store_fault (Env := Fixture.no_created_at) SelectOrdered <> NoFault
  /\ exists l,
       Docs.handler (E := Fixture.no_created_at) Sample.store
         {| Docs.method := GET; Docs.user := Some Sample.alice; Docs.documentId := None |}
       = (Sample.store, [], Docs.Documents l)
       /\ List.map Docs.l_id l = [10]%nat.
Proof.
  split; [discriminate|].
  destruct (proj1 (listing_is_own_documents (E := Fixture.no_created_at) Sample.store
                     Sample.alice None) (or_intror eq_refl)) as (l & Hl & _).
  exists l. split; [exact Hl|]. vm_compute in Hl. injection Hl as <-. reflexivity.
Defined.

Lemma delete_removes_shared_object_witness :
  exists s' calls d',
    Docs.handler (E := Sample.env) Fixture.shared_store
      {| Docs.method := DELETE; Docs.user := Some Sample.alice;
         Docs.documentId := Some 10%nat |} = (s', calls, Docs.Success)
    /\ d_user_id d' = 2%nat
    /\ d_storage_path d' = Some (lit "uploads/abc.pdf")
    /\ In d' (documents s')
    /\ bucket s' !! lit "uploads/abc.pdf" = None.
Proof.
  destruct (delete_removes_shared_object (E := Sample.env) Fixture.shared_store
              Sample.alice 10
              {| d_id := 10; d_user_id := 1; d_file_name := lit "a.pdf";
                 d_storage_path := Some (lit "uploads/abc.pdf");
                 d_file_hash := Some (lit "abc") |}
              {| d_id := 20; d_user_id := 2; d_file_name := lit "mine.pdf";
                 d_storage_path := Some (lit "uploads/abc.pdf");
                 d_file_hash := Some (lit "abc") |}
              (lit "uploads/abc.pdf"))
    as (s' & calls & Hh & Hin & Hb).
  - discriminate.
  - unfold Spec.documents_keyed. simpl.
    constructor; [simpl; intros [H|[]]; discriminate|].
    constructor; [simpl; tauto|constructor].
  - left. reflexivity.
  - reflexivity.
  - reflexivity.
  - reflexivity.
  - discriminate.
  - right. left. reflexivity.
  - discriminate.
  - reflexivity.
  - reflexivity.
  - eexists s', calls, _. split; [exact Hh|]. split; [|split; [|split; [exact Hin|exact Hb]]];
      reflexivity.
Defined.

Lemma rerank_top_six_witness :
  let rows := Chat.vectorQuery (E := Sample.env) Sample.store 1 [1; 0]%Q in
  exists scorer top,
    reranker (Env := Sample.env) = Ok scorer
    /\ Chat.rerank scorer (lit "q") rows = Ok top
    /\ length rows = 7%nat
    /\ length top = 6%nat
    /\ descending snd top.
Proof.
  cbv zeta. exists (fun t : jsstring => Ok (inject_Z (len t))). eexists.
  split; [reflexivity|].
  split; [vm_compute; reflexivity|]. split; [reflexivity|]. split; [reflexivity|].
  refine (proj2 (proj2 (proj2 (rerank_top_six
    (fun t : jsstring => Ok (inject_Z (len t))) (lit "q")
    (Chat.vectorQuery (E := Sample.env) Sample.store 1 [1; 0]%Q) _ _)))).
  vm_compute. reflexivity.
Defined.

(** ** The sentence chunker *)

Section SentenceChunker.

Import Chunker.

Lemma trim_length (s : jsstring) : len (trim s) <= len s.
Proof.
  unfold trim, len. pose proof (trimEnd_length (trimStart s)).
  pose proof (trimStart_length s). lia.
Qed.

Lemma slice_from_length (start : Z) (s : jsstring) : len (slice_from start s) <= len s.
Proof. unfold slice_from, len. rewrite length_drop. lia. Qed.

Lemma chunk_step_bound (chunkSize overlap L : Z) (st : jsstring * list jsstring)
  (s : jsstring) :
  let B := Z.max (chunkSize + 1) (2 * L + 1) in
  len s <= L ->
  len st.1 <= B /\ Forall (fun c => len c <= B) st.2 ->
  len (chunk_step chunkSize overlap st s).1 <= B
  /\ Forall (fun c => len c <= B) (chunk_step chunkSize overlap st s).2.
Proof.
  cbv zeta. destruct st as [cur chunks]. cbn [fst snd]. intros Hs [Hcur Hchunks].
  unfold chunk_step. destruct (Z.leb_spec (len cur + len s) chunkSize) as [Hle|Hgt];
    cbn [fst snd].
  - split; [|exact Hchunks]. unfold len in *. rewrite !length_app.
    destruct (truthy cur); cbn [length]; lia.
  - split.
    + pose proof (slice_from_length (- Z.min overlap (len s)) s).
      unfold len in *. rewrite !length_app. cbn [length]. lia.
    + destruct (truthy cur); [|exact Hchunks].
      apply List.Forall_app. split; [exact Hchunks|]. constructor; [|constructor].
      pose proof (trim_length cur). lia.
Qed.

(** The size of the chunks of [chunkText]. When no sentence of the text is
    longer than [L], no chunk is longer than the larger of [chunkSize + 1]
    and [2 L + 1], whatever the overlap: the space that joins two sentences
    is not counted by the test against [chunkSize], and a sentence that
    opens a chunk follows a piece of itself. *)
Theorem chunkText_bound (text : jsstring) (chunkSize overlap L : Z) :
  0 <= L ->
  (forall s, In s (split_sentences text) -> len s <= L) ->
  Forall (fun c => len c <= Z.max (chunkSize + 1) (2 * L + 1))
    (chunkText text chunkSize overlap).
Proof.
  intros HL Hs. unfold chunkText.
  set (B := Z.max (chunkSize + 1) (2 * L + 1)).
  assert (Hfold : forall sentences st,
    (forall s, In s sentences -> len s <= L) ->
    len st.1 <= B /\ Forall (fun c => len c <= B) st.2 ->
    len (fold_left (chunk_step chunkSize overlap) sentences st).1 <= B
    /\ Forall (fun c => len c <= B)
         (fold_left (chunk_step chunkSize overlap) sentences st).2).
  { induction sentences as [|s0 rest IH]; intros st Hall Hst; [exact Hst|].
    cbn [fold_left]. apply IH; [intros s1 H1; apply Hall; right; exact H1|].
    apply chunk_step_bound; [apply Hall; left; reflexivity|exact Hst]. }
  specialize (Hfold (split_sentences text) ([], []) Hs).
  destruct (fold_left (chunk_step chunkSize overlap) (split_sentences text) ([], []))
    as [cur chunks]. cbn [fst snd] in Hfold.
  destruct Hfold as [Hcur Hchunks]; [split; [unfold B, len; cbn; lia|constructor]|].
  destruct (truthy cur); [|exact Hchunks].
  apply List.Forall_app. split; [exact Hchunks|]. constructor; [|constructor].
  pose proof (trim_length cur). lia.
Qed.

Lemma split_sentences_length (s acc : jsstring) (skipping : bool) :
  len (join [SP] (split_sentences_from acc skipping s)) <= len acc + len s.
Proof.
  revert acc skipping. induction s as [|c r IH]; intros acc skipping.
  - cbn [split_sentences_from join]. unfold len. rewrite length_rev. cbn [length]. lia.
  - cbn [split_sentences_from]. assert (Hc : len (c :: r) = 1 + len r).
    { unfold len. cbn [length]. lia. }
    rewrite Hc. destruct skipping.
    + destruct (is_ws c).
      * specialize (IH [] true). change (len []) with 0 in IH. unfold len in *. lia.
      * specialize (IH [c] false). change (len [c]) with 1 in IH. unfold len in *. lia.
    + destruct (is_ws c && match acc with p :: _ => is_stop p | [] => false end).
      * specialize (IH [] true). change (len []) with 0 in IH.
        destruct (split_sentences_from [] true r) as [|x l] eqn:Hx.
        { cbn [join]. unfold len in *. rewrite length_rev. lia. }
        rewrite join_cons_nonempty by discriminate.
        unfold len in *. rewrite !length_app, length_rev. cbn [length]. lia.
      * specialize (IH (c :: acc) false). unfold len in *. cbn [length] in IH. lia.
Qed.

Lemma split_sentences_head (s acc : jsstring) :
  acc <> [] \/ s <> [] ->
  exists s0 rest, split_sentences_from acc false s = s0 :: rest /\ s0 <> [].
Proof.
  revert acc. induction s as [|c r IH]; intros acc H.
  - destruct H as [H|H]; [|congruence]. exists (rev acc), []. split; [reflexivity|].
    destruct acc as [|a acc]; [congruence|]. cbn [rev]. intros E.
    apply app_eq_nil in E as [_ E]. discriminate.
  - cbn [split_sentences_from].
    destruct (is_ws c && match acc with p :: _ => is_stop p | [] => false end) eqn:Hsep.
    + exists (rev acc), (split_sentences_from [] true r). split; [reflexivity|].
      destruct acc as [|a acc]; [rewrite andb_false_r in Hsep; discriminate|].
      cbn [rev]. intros E. apply app_eq_nil in E as [_ E]. discriminate.
    + apply IH. left. discriminate.
Qed.

Lemma join_head_length (sep s : jsstring) (l : list jsstring) :
  len s <= len (join sep (s :: l)).
Proof.
  destruct l as [|x l]; [cbn [join]; lia|].
  rewrite join_cons_nonempty by discriminate. unfold len. rewrite !length_app. lia.
Qed.

Lemma chunk_steps_fit (chunkSize overlap : Z) (rest : list jsstring) :
  forall (cur : jsstring) (chunks : list jsstring),
    cur <> [] -> len (join [SP] (cur :: rest)) <= chunkSize ->
    fold_left (chunk_step chunkSize overlap) rest (cur, chunks)
    = (join [SP] (cur :: rest), chunks).
Proof.
  induction rest as [|s r IH]; intros cur chunks Hne Hlen; [reflexivity|].
  cbn [fold_left].
  assert (Hfit : len cur + len s <= chunkSize).
  { pose proof (join_head_length [SP] s r) as Hs.
    rewrite (join_cons_nonempty [SP] cur (s :: r)) in Hlen by discriminate.
    unfold len in *. rewrite !length_app in Hlen. cbn [length] in Hlen. lia. }
  assert (Hstep : chunk_step chunkSize overlap (cur, chunks) s
                  = (cur ++ [SP] ++ s, chunks)).
  { unfold chunk_step. apply Z.leb_le in Hfit. rewrite Hfit.
    destruct cur; [congruence|reflexivity]. }
  assert (Hm : join [SP] ((cur ++ [SP] ++ s) :: r) = join [SP] (cur :: s :: r))
    by exact (join_merge [SP] cur s [] r).
  rewrite Hstep, IH.
  - exact (f_equal (fun x => (x, chunks)) Hm).
  - destruct cur; [congruence|discriminate].
  - exact (eq_ind_r (fun x => len x <= chunkSize) Hlen Hm).
Qed.

(** A text that fits. A text not longer than [chunkSize] is never cut: the
    empty text gives no chunk, and any other text gives exactly one chunk,
    its sentences joined by single spaces and trimmed, whatever the
    overlap. *)
Theorem chunkText_small_text (text : jsstring) (chunkSize overlap : Z) :
  len text <= chunkSize ->
  chunkText text chunkSize overlap
  = if truthy text then [trim (join [SP] (split_sentences text))] else [].
Proof.
  intros Hlen. unfold chunkText. destruct text as [|c r].
  - cbn [split_sentences split_sentences_from rev fold_left truthy].
    unfold chunk_step. change (len [] + len []) with 0. change (len []) with 0 in Hlen.
    apply Z.leb_le in Hlen. rewrite Hlen. reflexivity.
  - cbn [truthy]. pose proof (split_sentences_length (c :: r) [] false) as Hall.
    change (len []) with 0 in Hall. unfold split_sentences.
    destruct (split_sentences_head (c :: r) []) as (s0 & rest & Hsplit & Hs0);
      [right; discriminate|].
    rewrite Hsplit in *. cbn [fold_left].
    assert (Hfirst : chunk_step chunkSize overlap ([], []) s0 = (s0, [])).
    { unfold chunk_step. change (len []) with 0.
      pose proof (join_head_length [SP] s0 rest).
      assert (H0 : 0 + len s0 <= chunkSize) by lia. apply Z.leb_le in H0. rewrite H0.
      reflexivity. }
    rewrite Hfirst, chunk_steps_fit; [|exact Hs0|lia].
    destruct (join [SP] (s0 :: rest)) as [|j js] eqn:Hj; [|reflexivity].
    pose proof (join_head_length [SP] s0 rest) as Hh. rewrite Hj in Hh.
    destruct s0; [congruence|]. unfold len in Hh. cbn [length] in Hh. lia.
Qed.

End SentenceChunker.

Lemma chunkText_bound_witness :
  let text := lit "Hello there. How are you? Fine!" in
  (forall s, In s (Chunker.split_sentences text) -> len s <= 12)
  /\ Chunker.chunkText text 12 3 = [lit "Hello there."; lit "ou? How are you?"; lit "ne! Fine!"]
  /\ Forall (fun c => len c <= Z.max (12 + 1) (2 * 12 + 1)) (Chunker.chunkText text 12 3).
Proof.
  cbv zeta.
  assert (H : forall s, In s (Chunker.split_sentences (lit "Hello there. How are you? Fine!"))
                        -> len s <= 12).
  { intros s [<-|[<-|[<-|[]]]]; vm_compute; discriminate. }
  split; [exact H|]. split; [reflexivity|].
  apply (chunkText_bound _ 12 3 12); [lia|exact H].
Defined.

Lemma chunkText_small_text_witness :
  len (lit "Hi.  Ok? ") <= 10
  /\ Chunker.chunkText (lit "Hi.  Ok? ") 10 3 = [lit "Hi. Ok?"].
Proof.
  assert (H : len (lit "Hi.  Ok? ") <= 10) by (vm_compute; discriminate).
  split; [exact H|].
  rewrite (chunkText_small_text (lit "Hi.  Ok? ") 10 3 H). reflexivity.
Defined.
